(** * dida365-cli: the resilient access layer

  A shallow embedding of the core parts of the command-line client:

  - [Token]: credential normalisation and expiry
    ([normalizeToken], [isTokenExpired] of [core/token.ts]);
  - [Http]: the retry loop of the transport client
    ([fetchWithRetry], [backoff] of [core/http.ts]);
  - [Cache]: the two-tier cache ([isCacheEntry], [readDisk], [get], [set],
    [fetch] of [core/cache.ts]) together with a small model of the
    cooperative scheduling of concurrent [fetch] calls;
  - [CacheOps]: [invalidate] and [purge] of [core/cache.ts];
  - [HttpRequest]: [HttpClient.request] of [core/http.ts];
  - [TokenStore]: the credential file ([validateToken], [loadToken],
    [saveToken], [clearToken] of [core/token.ts]), and [RefreshMutex]:
    [withRefreshMutex];
  - [BuildContext]: [buildContext] and its validators of [core/context.ts],
    and [Config]: [loadConfig] of [core/config.ts];
  - [Errors]: [normalizeError] and [exitCodeForError];
  - [Client]: [validateId], [tasksGet], [tasksUpdate] of [core/api.ts];
  - [Tags]: [dedupeTags], [ensureTagsOnTaskDraft] of [core/tags.ts];
  - [Projects]: the actions of [commands/projects.ts] on the cache.

  Conventions.  JavaScript numbers that are timestamps, durations, status
  codes and counters are integers far below 2^53, so they are modelled by
  [Z] and their arithmetic is exact.  The retry count of the transport
  client is compared with the attempt counter and is any number: it is a
  [Http.number], a rational or one of [NaN], [Infinity], [-Infinity].
  [Date.now()] is an explicit argument of every function that reads the
  clock.  An optional field is an [option]; JavaScript truthiness is written
  out where the source relies on it. *)

From Stdlib Require Import ZArith Lia Bool List.
From Stdlib Require QArith Qround.
From stdpp Require Import base option gmap strings list pretty.

Local Open Scope Z_scope.

(** ** Credentials: [core/token.ts] *)

Module Token.

(** [interface OAuthToken]: every field but [access_token] is optional. *)
Record OAuthToken := mkToken {
  access_token : string;
  refresh_token : option string;
  token_type : option string;
  scope : option string;
  expires_in : option Z;   (* seconds *)
  expires_at : option Z    (* epoch ms *)
}.

(** Truthiness of an optional number: [undefined] and [0] are falsy. *)
Definition truthy (o : option Z) : bool :=
  match o with
  | Some n => negb (n =? 0)
  | None => false
  end.

Definition set_expires_at (t : OAuthToken) (v : Z) : OAuthToken :=
  {| access_token := access_token t;
     refresh_token := refresh_token t;
     token_type := token_type t;
     scope := scope t;
     expires_in := expires_in t;
     expires_at := Some v |}.

(** [normalizeToken]:
    [if (!t.expires_at && t.expires_in) t.expires_at = Date.now() + t.expires_in * 1000]. *)
Definition normalizeToken (now : Z) (token : OAuthToken) : OAuthToken :=
  let t := token in
  if negb (truthy (expires_at t)) && truthy (expires_in t)
  then set_expires_at t (now + default 0 (expires_in t) * 1000)
  else t.

(** [isTokenExpired(token, skewSec = 60)]:
    [if (!token?.expires_at) return false;
     return Date.now() >= token.expires_at - skewSec * 1000]. *)
Definition isTokenExpired (now : Z) (token : OAuthToken) (skewSec : option Z) : bool :=
  let skew := default 60 skewSec in
  if negb (truthy (expires_at token)) then false
  else now >=? default 0 (expires_at token) - skew * 1000.

(** The expiry rule in the words of the specification: a credential without
    [expiresAt] never expires; otherwise it is expired when
    [now >= expiresAt - skew*1000]. *)
Definition spec_isExpired (now : Z) (token : OAuthToken) (skew : Z) : bool :=
  match expires_at token with
  | None => false
  | Some at_ => now >=? at_ - skew * 1000
  end.

(** The normalisation rule in the words of the specification: derive
    [expiresAt] exactly when it is absent and [expiresIn] is present and
    nonzero; otherwise keep [expiresAt] as it is. *)
Definition spec_normalized_expires_at (now : Z) (token : OAuthToken) : option Z :=
  match expires_at token, expires_in token with
  | None, Some i => if i =? 0 then None else Some (now + i * 1000)
  | at_, _ => at_
  end.

End Token.

(** ** Transport retry loop: [core/http.ts] *)

Module Http.

(** What the loop looks at in a [Response]. *)
Record Response := mkResponse {
  status : Z;
  statusText : string;
  body : string
}.

(** [Response.ok]: the status is in the range 200-299. *)
Definition ok (r : Response) : bool := (200 <=? status r) && (status r <=? 299).

(** The two error classes of [core/errors.ts] the loop raises. *)
Inductive AppError :=
| ApiError (message : string) (statusCode : Z)
| NetworkError (message : string) (cause : option string).

(** [new ApiError(message, statusCode)] prefixes the message. *)
Definition newApiError (message : string) (statusCode : Z) : AppError :=
  ApiError ("API returned HTTP " +:+ pretty statusCode +:+ ": " +:+ message) statusCode.

(** A value thrown inside the [try] block: one of the application errors or
    whatever [fetch] rejected with (only its message is kept). *)
Inductive thrown :=
| TApp (e : AppError)
| TOther (message : string).

(** The outcome of one call of [fetchWithTimeout]: a response of any status,
    or a rejection (network failure, abort on timeout). *)
Inductive attempt_outcome :=
| Resolved (r : Response)
| Rejected (message : string).

(** The environment: the scripted outcome of the i-th network call, the
    number of calls made so far and the delays slept so far. *)
Record world := mkWorld {
  script : nat -> attempt_outcome;
  calls : nat;
  sleeps : list Z
}.

Definition fetchWithTimeout (w : world) : attempt_outcome * world :=
  (script w (calls w),
   {| script := script w; calls := S (calls w); sleeps := sleeps w |}).

(** [backoff]: [Math.min(200 * Math.pow(2, attempt), 5000)] milliseconds. *)
Definition backoff_delay (attempt : Z) : Z := Z.min (200 * 2 ^ attempt) 5000.

Definition backoff (attempt : Z) (w : world) : world :=
  {| script := script w; calls := calls w;
     sleeps := sleeps w ++ [backoff_delay attempt] |}.

(** The retry count is a JavaScript number: a finite value (every double is
    a rational), [NaN], [Infinity] or [-Infinity].  The configuration accepts
    every finite number between 0 and 10, so 2.5 is a retry count. *)
Inductive number :=
| Finite (q : QArith_base.Q)
| NaN
| Infinity
| NegInfinity.

(** The number of an integer. *)
Definition of_Z (n : Z) : number := Finite (QArith_base.inject_Z n).

(** [Math.min(retries, 5)]. *)
Definition Math_min5 (retries : number) : number :=
  match retries with
  | Finite q =>
      if QArith_base.Qle_bool q (QArith_base.inject_Z 5) then Finite q else of_Z 5
  | NaN => NaN
  | Infinity => of_Z 5
  | NegInfinity => NegInfinity
  end.

(** [attempt <= maxRetries]; a comparison with [NaN] is false. *)
Definition attempt_le (attempt : Z) (maxRetries : number) : bool :=
  match maxRetries with
  | Finite q => QArith_base.Qle_bool (QArith_base.inject_Z attempt) q
  | Infinity => true
  | NaN | NegInfinity => false
  end.

(** [attempt < maxRetries]. *)
Definition attempt_lt (attempt : Z) (maxRetries : number) : bool :=
  match maxRetries with
  | Finite q => negb (QArith_base.Qle_bool q (QArith_base.inject_Z attempt))
  | Infinity => true
  | NaN | NegInfinity => false
  end.

(** [lo <= x && x <= hi] for a number [x] and two integers. *)
Definition number_between (lo hi : Z) (x : number) : Prop :=
  match x with
  | Finite q =>
      QArith_base.Qle (QArith_base.inject_Z lo) q
      /\ QArith_base.Qle q (QArith_base.inject_Z hi)
  | _ => False
  end.

(** How one iteration of the [for] loop ends. *)
Inductive ctl :=
| Return (r : Response)
| Throw (e : AppError)
| Continue (lastErr : option thrown).

Definition http_message (r : Response) : string :=
  "HTTP " +:+ pretty (status r) +:+ " " +:+ statusText r.

(** The [try] block: [inl] is a thrown value, [inr] a normal completion. *)
Definition try_block (maxRetries : number) (attempt : Z) (lastErr : option thrown)
    (o : attempt_outcome) (w : world) : (thrown + ctl) * world :=
  match o with
  | Rejected m => (inl (TOther m), w)
  | Resolved res =>
      if negb (ok res) then
        if (400 <=? status res) && (status res <? 500) then
          (inl (TApp (newApiError (http_message res) (status res))), w)
        else if (500 <=? status res) && attempt_lt attempt maxRetries then
          (inr (Continue lastErr), backoff attempt w)
        else
          (inl (TApp (newApiError (http_message res) (status res))), w)
      else (inr (Return res), w)
  end.

(** [err instanceof ApiError && err.statusCode && err.statusCode < 500]. *)
Definition is_client_api_error (err : thrown) : bool :=
  match err with
  | TApp (ApiError _ sc) => negb (sc =? 0) && (sc <? 500)
  | _ => false
  end.

(** [throw err] for an application error; any other value is wrapped:
    [new NetworkError("Network request failed", new Error(errorMessage))]. *)
Definition rethrow (err : thrown) : AppError :=
  match err with
  | TApp e => e
  | TOther m => NetworkError "Network request failed" (Some m)
  end.

(** The [catch] block: [lastErr = err]; a client error is rethrown at once;
    otherwise back off and continue while attempts remain. *)
Definition catch_block (maxRetries : number) (attempt : Z) (err : thrown) (w : world)
    : ctl * world :=
  if is_client_api_error err then (Throw (rethrow err), w)
  else if attempt_lt attempt maxRetries then (Continue (Some err), backoff attempt w)
  else (Throw (rethrow err), w).

(** The code after the loop.  It is reached when the loop body never ran
    ([maxRetries] negative, [NaN] or [-Infinity]) and when the last iteration
    ended with [continue], which happens when [maxRetries] is not an integer:
    the last attempt [a] has [a < maxRetries] and [a + 1 > maxRetries].
    [lastErr] is what the last [catch] received; a response with a status of
    500 or more that is retried inside the [try] block does not set it. *)
Definition after_loop (lastErr : option thrown) : AppError :=
  match lastErr with
  | Some (TApp e) => e
  | Some (TOther m) => NetworkError "Network request failed after retries" (Some m)
  | None => NetworkError "Network request failed after retries" (Some "undefined")
  end.

(** [for (let attempt = 0; attempt <= maxRetries; attempt++)]; [None] is
    returned only when the fuel runs out. *)
Fixpoint retry_loop (fuel : nat) (maxRetries : number) (attempt : Z)
    (lastErr : option thrown) (w : world) : option (AppError + Response) * world :=
  match fuel with
  | O => (None, w)
  | S fuel' =>
      if attempt_le attempt maxRetries then
        let '(o, w1) := fetchWithTimeout w in
        let '(c, w3) :=
          match try_block maxRetries attempt lastErr o w1 with
          | (inr c, w2) => (c, w2)
          | (inl err, w2) => catch_block maxRetries attempt err w2
          end in
        match c with
        | Return res => (Some (inr res), w3)
        | Throw e => (Some (inl e), w3)
        | Continue lastErr' => retry_loop fuel' maxRetries (attempt + 1) lastErr' w3
        end
      else (Some (inl (after_loop lastErr)), w)
  end.

(** [fetchWithRetry(url, init, timeoutMs, retries)].  As [maxRetries] is at
    most 5 the loop body runs at most six times, and the loop test once
    more: a fuel of 7 is never used up. *)
Definition fetchWithRetry (retries : number) (w : world)
    : option (AppError + Response) * world :=
  let maxRetries := Math_min5 retries in
  retry_loop 7 maxRetries 0 None w.

(** An outcome after which the loop tries again (when attempts remain): a
    rejection, or a response with status 500 or more. *)
Definition retryable (o : attempt_outcome) : bool :=
  match o with
  | Rejected _ => true
  | Resolved r => 500 <=? status r
  end.

(** The error raised when the last allowed attempt ends with [o]. *)
Definition final_error (o : attempt_outcome) : AppError :=
  match o with
  | Rejected m => NetworkError "Network request failed" (Some m)
  | Resolved r => newApiError (http_message r) (status r)
  end.

(** The delays slept before attempts 1 .. k. *)
Definition delays (k : nat) : list Z := map (fun i => backoff_delay (Z.of_nat i)) (seq 0 k).

Definition start (s : nat -> attempt_outcome) : world :=
  {| script := s; calls := 0; sleeps := [] |}.

(** The delays slept after attempts [a .. a+k-1]. *)
Fixpoint delays_from (a : Z) (k : nat) : list Z :=
  match k with
  | O => []
  | S k' => backoff_delay a :: delays_from (a + 1) k'
  end.

End Http.

(** ** JavaScript values *)

Module Js.

(** The values the cache handles: what a fetcher resolves with, what
    [JSON.parse] yields, what is thrown and caught, and the result objects
    [fetch] builds.  An object is the list of its own properties in insertion
    order (property names are unique in a well-formed object). *)
#[local] Unset Elimination Schemes.
Inductive value :=
| VUndefined
| VNull
| VBool (b : bool)
| VNum (n : Z)
| VStr (s : string)
| VArr (items : list value)
| VObj (fields : list (string * value))
| VError (name message : string) (code : option string).
#[local] Set Elimination Schemes.

(** Truthiness: [if (v)]. *)
Definition truthy (v : value) : bool :=
  match v with
  | VUndefined | VNull | VBool false | VNum 0 | VStr "" => false
  | _ => true
  end.

(** [typeof v === "object"] (which [null] satisfies too). *)
Definition typeof_object (v : value) : bool :=
  match v with
  | VNull | VArr _ | VObj _ | VError _ _ _ => true
  | _ => false
  end.

Fixpoint assoc (name : string) (fields : list (string * value)) : option value :=
  match fields with
  | [] => None
  | (k, v) :: rest => if String.eqb k name then Some v else assoc name rest
  end.

(** [name in v], for a [v] that is an object. *)
Definition has_field (name : string) (v : value) : bool :=
  match v with
  | VObj fields => match assoc name fields with Some _ => true | None => false end
  | VError _ _ code =>
      String.eqb name "name" || String.eqb name "message"
      || (String.eqb name "code" && match code with Some _ => true | None => false end)
  | _ => false
  end.

(** [v.name]: a missing property reads as [undefined]. *)
Definition get_field (name : string) (v : value) : value :=
  match v with
  | VObj fields => default VUndefined (assoc name fields)
  | VError n m code =>
      if String.eqb name "name" then VStr n
      else if String.eqb name "message" then VStr m
      else if String.eqb name "code" then from_option VStr VUndefined code
      else VUndefined
  | _ => VUndefined
  end.

(** [v === s] for a string literal [s]. *)
Definition is_string (s : string) (v : value) : bool :=
  match v with
  | VStr s' => String.eqb s' s
  | _ => false
  end.

Definition is_typeof_string (v : value) : bool :=
  match v with VStr _ => true | _ => false end.

Definition is_typeof_number (v : value) : bool :=
  match v with VNum _ => true | _ => false end.

(** The completion of an asynchronous call: [inl] a rejection with the thrown
    value, [inr] the resolved value. *)
Definition res (A : Type) : Type := value + A.

End Js.

(** ** The cache: [core/cache.ts] *)

Module Cache.
Import Js.

(** [interface CacheEntry]. *)
Record CacheEntry := mkEntry {
  key : string;
  value : Js.value;
  cachedAt : Z;
  expiresAt : Z
}.

(** [isCacheEntry]: an object with a string [key], some [value] property and
    numeric [cachedAt] and [expiresAt]. *)
Definition isCacheEntry (v : Js.value) : bool :=
  if negb (typeof_object v) || match v with VNull => true | _ => false end then false
  else
    is_typeof_string (get_field "key" v)
    && has_field "value" v
    && is_typeof_number (get_field "cachedAt" v)
    && is_typeof_number (get_field "expiresAt" v).

(** The entry a validated object is read as ([value is CacheEntry<T>]). *)
Definition as_entry (v : Js.value) : CacheEntry :=
  {| key := match get_field "key" v with VStr s => s | _ => "" end;
     value := get_field "value" v;
     cachedAt := match get_field "cachedAt" v with VNum n => n | _ => 0 end;
     expiresAt := match get_field "expiresAt" v with VNum n => n | _ => 0 end |}.

(** The object literal [{ key, value, cachedAt, expiresAt }] that [set]
    serialises. *)
Definition entry_object (e : CacheEntry) : Js.value :=
  VObj [("key", VStr (key e)); ("value", value e);
        ("cachedAt", VNum (cachedAt e)); ("expiresAt", VNum (expiresAt e))].

(** *** The file system

    A path holds a file with its text, or is [Faulty]: every access to it
    raises an error with the given code ([EACCES], [EISDIR], [ENOSPC], ...).
    A path that is not in the map does not exist. *)
Inductive node :=
| File (raw : string)
| Faulty (code : string).

Definition fs_error (code : string) : Js.value := VError "Error" code (Some code).

Definition readFile (d : gmap string node) (p : string) : res string :=
  match d !! p with
  | None => inl (fs_error "ENOENT")
  | Some (Faulty c) => inl (fs_error c)
  | Some (File raw) => inr raw
  end.

(** [fs.mkdir(dir, { recursive: true })]. *)
Definition mkdir (d : gmap string node) (dir : string) : res (gmap string node) :=
  match d !! dir with
  | Some (Faulty c) => inl (fs_error c)
  | Some (File _) => inl (fs_error "EEXIST")
  | None => inr d
  end.

Definition writeFile (d : gmap string node) (p raw : string) : res (gmap string node) :=
  match d !! p with
  | Some (Faulty c) => inl (fs_error c)
  | _ => inr (<[p := File raw]> d)
  end.

(** The functions of the Node.js runtime the cache calls. *)
Record Runtime := mkRuntime {
  sha1_hex : string -> string;               (* createHash("sha1").update(key).digest("hex") *)
  JSON_parse : string -> option Js.value;    (* [None]: a SyntaxError is thrown *)
  JSON_stringify : Js.value -> string
}.

(** Constructor options of [Cache]. *)
Record Options := mkOptions {
  dir : string;
  ttlMs : Z;
  staleIfErrorMs : Z
}.

(** The mutable state a cache works on: its [mem] map and the disk. *)
Record store := mkStore {
  mem : gmap string CacheEntry;
  disk : gmap string node
}.

Inductive source_tag := Memory | Disk.

(** The result of [get]: [{ entry?, stale, source }] ([source] may be [null]). *)
Record get_result := mkGet {
  entry : option CacheEntry;
  stale : bool;
  source : option source_tag
}.

Definition syntax_error : Js.value := VError "SyntaxError" "Unexpected token" None.

(** [err instanceof Error && "code" in err && err.code === "ENOENT"]. *)
Definition is_ENOENT (err : Js.value) : bool :=
  match err with
  | VError _ _ _ => has_field "code" err && is_string "ENOENT" (get_field "code" err)
  | _ => false
  end.

Section WithRuntime.
Context (rt : Runtime) (opts : Options).

(** [fileForKey]: [path.join(dir, hash + ".json")]. *)
Definition fileForKey (k : string) : string :=
  dir opts +:+ "/" +:+ sha1_hex rt k +:+ ".json".

(** The [try] block of [readDisk]. *)
Definition readDisk_try (k : string) (d : gmap string node) : res (option CacheEntry) :=
  match readFile d (fileForKey k) with
  | inl err => inl err
  | inr raw =>
      match JSON_parse rt raw with
      | None => inl syntax_error
      | Some parsed =>
          if negb (isCacheEntry parsed) then inr None
          else if negb (String.eqb (key (as_entry parsed)) k) then inr None
          else inr (Some (as_entry parsed))
      end
  end.

(** [readDisk]: a missing file is [undefined]; any other error is rethrown. *)
Definition readDisk (k : string) (d : gmap string node) : res (option CacheEntry) :=
  match readDisk_try k d with
  | inl err => if is_ENOENT err then inr None else inl err
  | inr r => inr r
  end.

Definition miss : get_result := {| entry := None; stale := false; source := None |}.

(** The part of [get] after a memory miss: the disk is consulted, a found
    entry is promoted into memory, and every error of the read is swallowed
    by the empty [catch]. *)
Definition get_disk (now : Z) (k : string) (st : store) : res (get_result * store) :=
  match readDisk k (disk st) with
  | inr (Some diskEntry) =>
      inr ({| entry := Some diskEntry; stale := now >? expiresAt diskEntry;
              source := Some Disk |},
           {| mem := <[k := diskEntry]> (mem st); disk := disk st |})
  | inr None => inr (miss, st)
  | inl _ => inr (miss, st)
  end.

(** The part of [get] before its first [await]: the memory lookup. *)
Definition get_mem (now : Z) (k : string) (st : store) : option get_result :=
  match mem st !! k with
  | Some memEntry =>
      Some {| entry := Some memEntry; stale := now >? expiresAt memEntry;
              source := Some Memory |}
  | None => None
  end.

(** [get(key)]; an asynchronous function completes with a value or a
    rejection. *)
Definition get (now : Z) (k : string) (st : store) : res (get_result * store) :=
  match get_mem now k st with
  | Some r => inr (r, st)
  | None => get_disk now k st
  end.

(** The entry [set] builds. *)
Definition new_entry (now : Z) (k : string) (v : Js.value) (ttl : option Z) : CacheEntry :=
  {| key := k; value := v; cachedAt := now;
     expiresAt := now + default (ttlMs opts) ttl |}.

(** The disk part of [set]: [mkdir] then [writeFile]. *)
Definition set_disk (e : CacheEntry) (d : gmap string node) : res (gmap string node) :=
  match mkdir d (dir opts) with
  | inl err => inl err
  | inr d1 => writeFile d1 (fileForKey (key e)) (JSON_stringify rt (entry_object e))
  end.

(** The rest of [set] for an entry built at the call: disk first, memory
    only after the write succeeded. *)
Definition set_entry (e : CacheEntry) (st : store) : res unit * store :=
  match set_disk e (disk st) with
  | inl err => (inl err, st)
  | inr d' => (inr tt, {| mem := <[key e := e]> (mem st); disk := d' |})
  end.

(** [set(key, value, ttlMs?)]. *)
Definition set (now : Z) (k : string) (v : Js.value) (ttl : option Z) (st : store)
    : res unit * store :=
  set_entry (new_entry now k v ttl) st.

(** *** [fetch]

    [fetch] is an asynchronous function with several suspension points.  Its
    code between two suspension points runs without interruption; the
    segments are given first, then composed for a caller that runs alone
    ([fetch]) and for interleaved callers ([step]). *)

(** The optional third argument [{ ttlMs?, staleIfErrorMs? }]. *)
Record FetchOptions := mkFetchOptions {
  opt_ttlMs : option Z;
  opt_staleIfErrorMs : option Z
}.

(** [{ value: entry.value, source: "cache", stale: false, cachedAt }]. *)
Definition cache_result (e : CacheEntry) : Js.value :=
  VObj [("value", value e); ("source", VStr "cache"); ("stale", VBool false);
        ("cachedAt", VNum (cachedAt e))].

(** [{ value: entry.value, source: "cache", stale: true, cachedAt, error: err }]. *)
Definition stale_result (e : CacheEntry) (err : Js.value) : Js.value :=
  VObj [("value", value e); ("source", VStr "cache"); ("stale", VBool true);
        ("cachedAt", VNum (cachedAt e)); ("error", err)].

(** [{ value, source: "origin", stale: false }]. *)
Definition origin_result (v : Js.value) : Js.value :=
  VObj [("value", v); ("source", VStr "origin"); ("stale", VBool false)].

(** The [catch] block of the origin fetch: the stale entry absorbs the error
    when [now - entry.expiresAt <= staleIfErrorMs], otherwise [throw err]. *)
Definition origin_catch (now window : Z) (found : option CacheEntry) (err : Js.value)
    : res Js.value :=
  match found with
  | Some e =>
      let staleAge := now - expiresAt e in
      if staleAge <=? window then inr (stale_result e err) else inl err
  | None => inl err
  end.

(** The origin fetch after [fetcher()] resolved with [v] and [set] has built
    its entry [e]: the disk and memory writes of [set], then [return value];
    an error of [set] goes through the same [catch]. *)
Definition origin_store (now window : Z) (found : option CacheEntry) (e : CacheEntry)
    (v : Js.value) (st : store) : res Js.value * store :=
  match set_entry e st with
  | (inr _, st') => (inr v, st')
  | (inl err, st') => (origin_catch now window found err, st')
  end.

(** [result && typeof result === "object" && "source" in result
     && result.source === "cache"]. *)
Definition is_cache_tagged (result : Js.value) : bool :=
  truthy result && typeof_object result && has_field "source" result
  && is_string "cache" (get_field "source" result).

(** Lines 128-134: what the caller that started the origin fetch returns once
    its promise has settled. *)
Definition leader_return (settled : res Js.value) : res Js.value :=
  match settled with
  | inl err => inl err
  | inr result =>
      if is_cache_tagged result then inr result else inr (origin_result result)
  end.

(** Lines 104-105: what a caller that found the fetch in flight returns once
    that promise has settled. *)
Definition waiter_return (settled : res Js.value) : res Js.value :=
  match settled with
  | inl err => inl err
  | inr v => inr (origin_result v)
  end.

Definition fetch_ttl (o : FetchOptions) : Z := default (ttlMs opts) (opt_ttlMs o).
Definition fetch_window (o : FetchOptions) : Z :=
  default (staleIfErrorMs opts) (opt_staleIfErrorMs o).

(** How a call of [fetch] that runs alone ends: it completes, having called
    the fetcher or not, or it finds a fetch of the key registered by someone
    else and waits for promise [p]. *)
Inductive fetch_end :=
| Returned (r : res Js.value) (fetcher_called : bool)
| Waiting (p : nat).

(** [fetch(key, fetcher, options)] for a caller nobody interleaves with.
    [now], [now_get] and [now_set] are the clock readings of [fetch], of its
    [get] and of its [set]; [fetched] is what [fetcher()] settles with;
    [registry] is the [inFlight] map at the call. *)
Definition fetch (now now_get now_set : Z) (k : string) (fetched : res Js.value)
    (o : FetchOptions) (registry : gmap string nat) (st : store) : fetch_end * store :=
  match get now_get k st with
  | inl err => (Returned (inl err) false, st)
  | inr (g, st1) =>
      match entry g, stale g with
      | Some e, false => (Returned (inr (cache_result e)) false, st1)
      | found, _ =>
          match registry !! k with
          | Some p => (Waiting p, st1)
          | None =>
              let '(settled, st2) :=
                match fetched with
                | inr v =>
                    origin_store now (fetch_window o) found
                      (new_entry now_set k v (Some (fetch_ttl o))) v st1
                | inl err => (origin_catch now (fetch_window o) found err, st1)
                end in
              (Returned (leader_return settled) true, st2)
          end
      end
  end.

(** *** Interleaved callers

    A task is one call of [fetch]; its program counter names the [await] it
    is suspended at. *)
Inductive pc :=
| AtReadFile (now now_get : Z)
    (* inside [get], at [await fs.readFile] *)
| AtGet (now : Z) (g : get_result)
    (* at [await this.get(key)], [get] having produced [g] *)
| AtExisting (p : nat)
    (* at [await existing] *)
| AtFetcher (now : Z) (found : option CacheEntry) (p : nat)
    (* the origin fetch is at [await fetcher()], the caller at [await promise] *)
| AtSet (now : Z) (found : option CacheEntry) (p : nat) (e : CacheEntry) (v : Js.value)
    (* the origin fetch is inside [await this.set(...)], at its disk write *)
| AtPromise (p : nat)
    (* the origin fetch has settled, the caller is still at [await promise] *)
| Finished (r : res Js.value).

Record task := mkTask {
  t_key : string;
  t_options : FetchOptions;
  t_pc : pc
}.

(** The process: the cache object ([mem], [inFlight]), the disk, the promises
    created by origin fetches (a promise that is not in [settled] is
    pending), the tasks, and a log with the key of every [fetcher()] call. *)
Record sys := mkSys {
  s_store : store;
  inFlight : gmap string nat;
  settled : gmap nat (res Js.value);
  next_promise : nat;
  tasks : gmap nat task;
  origin_calls : list string
}.

(** What the event loop does next.  [Call]: a new call of [fetch] runs up to
    its first suspension.  [Resume]: a suspended task continues (the awaited
    I/O or promise is complete).  [Settle]: the promise returned by the
    fetcher of a task settles.  [ResumeThrowing]: like [Resume] at
    [AtGet], for a fetcher that throws before returning a promise. *)
Inductive event :=
| Call (tid : nat) (k : string) (o : FetchOptions) (now now_get : Z)
| Resume (tid : nat)
| Settle (tid : nat) (fetched : res Js.value) (now_set : Z)
| ResumeThrowing (tid : nat) (err : Js.value).

Definition at_pc (t : task) (c : pc) : task :=
  {| t_key := t_key t; t_options := t_options t; t_pc := c |}.

Definition set_task (tid : nat) (t : task) (c : pc) (s : sys) : sys :=
  {| s_store := s_store s; inFlight := inFlight s; settled := settled s;
     next_promise := next_promise s;
     tasks := <[tid := at_pc t c]> (tasks s);
     origin_calls := origin_calls s |}.

Definition set_store (st : store) (s : sys) : sys :=
  {| s_store := st; inFlight := inFlight s; settled := settled s;
     next_promise := next_promise s; tasks := tasks s;
     origin_calls := origin_calls s |}.

(** The [finally] block and the settling of the origin fetch's promise:
    [this.inFlight.delete(key)]. *)
Definition finish_origin (k : string) (p : nat) (r : res Js.value) (s : sys) : sys :=
  {| s_store := s_store s; inFlight := delete k (inFlight s);
     settled := <[p := r]> (settled s);
     next_promise := next_promise s; tasks := tasks s;
     origin_calls := origin_calls s |}.

(** Lines 108-126 up to [await fetcher()]: the fetcher is called, the promise
    of the origin fetch is created and registered. *)
Definition start_origin (k : string) (s : sys) : nat * sys :=
  (next_promise s,
   {| s_store := s_store s; inFlight := <[k := next_promise s]> (inFlight s);
      settled := settled s;
      next_promise := S (next_promise s); tasks := tasks s;
      origin_calls := k :: origin_calls s |}).

(** The same lines for a fetcher that throws synchronously: [catch] and
    [finally] run before [this.inFlight.set(key, promise)]. *)
Definition start_origin_throwing (k : string) (r : res Js.value) (s : sys) : nat * sys :=
  (next_promise s,
   {| s_store := s_store s;
      inFlight := <[k := next_promise s]> (delete k (inFlight s));
      settled := <[next_promise s := r]> (settled s);
      next_promise := S (next_promise s); tasks := tasks s;
      origin_calls := k :: origin_calls s |}).

(** Lines 97-106 after [get] has produced [g]: [Some c] when the task
    finishes or waits without an origin fetch of its own. *)
Definition after_get (k : string) (g : get_result) (s : sys) : option pc :=
  match entry g, stale g with
  | Some e, false => Some (Finished (inr (cache_result e)))
  | _, _ =>
      match inFlight s !! k with
      | Some p => Some (AtExisting p)
      | None => None
      end
  end.

Definition step (ev : event) (s : sys) : option sys :=
  match ev with
  | Call tid k o now now_get =>
      match tasks s !! tid with
      | Some _ => None
      | None =>
          let t := {| t_key := k; t_options := o; t_pc := AtReadFile now now_get |} in
          match get_mem now_get k (s_store s) with
          | Some g => Some (set_task tid t (AtGet now g) s)
          | None => Some (set_task tid t (AtReadFile now now_get) s)
          end
      end
  | Resume tid =>
      match tasks s !! tid with
      | None => None
      | Some t =>
          let k := t_key t in
          match t_pc t with
          | AtReadFile now now_get =>
              match get_disk now_get k (s_store s) with
              | inr (g, st') => Some (set_task tid t (AtGet now g) (set_store st' s))
              | inl err => Some (set_task tid t (Finished (inl err)) s)
              end
          | AtGet now g =>
              match after_get k g s with
              | Some c => Some (set_task tid t c s)
              | None =>
                  let '(p, s') := start_origin k s in
                  Some (set_task tid t (AtFetcher now (entry g) p) s')
              end
          | AtExisting p =>
              match settled s !! p with
              | Some r => Some (set_task tid t (Finished (waiter_return r)) s)
              | None => None
              end
          | AtSet now found p e v =>
              let '(r, st') := origin_store now (fetch_window (t_options t)) found e v (s_store s) in
              Some (set_task tid t (AtPromise p) (finish_origin k p r (set_store st' s)))
          | AtPromise p =>
              match settled s !! p with
              | Some r => Some (set_task tid t (Finished (leader_return r)) s)
              | None => None
              end
          | AtFetcher _ _ _ => None
          | Finished _ => None
          end
      end
  | Settle tid fetched now_set =>
      match tasks s !! tid with
      | None => None
      | Some t =>
          let k := t_key t in
          match t_pc t with
          | AtFetcher now found p =>
              match fetched with
              | inr v =>
                  let e := new_entry now_set k v (Some (fetch_ttl (t_options t))) in
                  Some (set_task tid t (AtSet now found p e v) s)
              | inl err =>
                  let r := origin_catch now (fetch_window (t_options t)) found err in
                  Some (set_task tid t (AtPromise p) (finish_origin k p r s))
              end
          | _ => None
          end
      end
  | ResumeThrowing tid err =>
      match tasks s !! tid with
      | None => None
      | Some t =>
          let k := t_key t in
          match t_pc t with
          | AtGet now g =>
              match after_get k g s with
              | Some c => Some (set_task tid t c s)
              | None =>
                  let r := origin_catch now (fetch_window (t_options t)) (entry g) err in
                  let '(p, s') := start_origin_throwing k r s in
                  Some (set_task tid t (AtPromise p) s')
              end
          | _ => None
          end
      end
  end.

(** A schedule is run event by event; [None] when an event is not enabled. *)
Fixpoint run (evs : list event) (s : sys) : option sys :=
  match evs with
  | [] => Some s
  | ev :: rest =>
      match step ev s with
      | Some s' => run rest s'
      | None => None
      end
  end.

(** The event that lets task [tid] continue, its fetcher settling with
    [fetched] when it is the fetcher the task waits for. *)
Definition next_event (tid : nat) (fetched : res Js.value) (now_set : Z) (s : sys)
    : option event :=
  match tasks s !! tid with
  | Some t =>
      match t_pc t with
      | Finished _ => None
      | AtFetcher _ _ _ => Some (Settle tid fetched now_set)
      | _ => Some (Resume tid)
      end
  | None => None
  end.

(** Task [tid] is continued, and nothing else happens, until it has finished
    (or is stuck, or the fuel is used up). *)
Fixpoint drive (fuel : nat) (tid : nat) (fetched : res Js.value) (now_set : Z) (s : sys)
    : option sys :=
  match fuel with
  | O => Some s
  | S fuel' =>
      match next_event tid fetched now_set s with
      | None => Some s
      | Some ev =>
          match step ev s with
          | Some s' => drive fuel' tid fetched now_set s'
          | None => None
          end
      end
  end.

(** A process in which no call of [fetch] has been made yet. *)
Definition idle (st : store) : sys :=
  {| s_store := st; inFlight := ∅; settled := ∅; next_promise := 0%nat;
     tasks := ∅; origin_calls := [] |}.

(** One call of [fetch] run to its end in a process that does nothing else. *)
Definition fetch_alone (now now_get now_set : Z) (k : string) (fetched : res Js.value)
    (o : FetchOptions) (st : store) : option sys :=
  match step (Call 0 k o now now_get) (idle st) with
  | Some s => drive 5 0 fetched now_set s
  | None => None
  end.

(** What task [tid] returned, if it has finished. *)
Definition returned (tid : nat) (s : sys) : option (res Js.value) :=
  match tasks s !! tid with
  | Some t => match t_pc t with Finished r => Some r | _ => None end
  | None => None
  end.

(** The number of [fetcher()] calls made for key [k]. *)
Definition calls_for (k : string) (s : sys) : nat :=
  length (filter (fun k' => k' = k) (origin_calls s)).

(** The promise of the origin fetch a task is running, if it runs one. *)
Definition fetching (t : task) : option nat :=
  match t_pc t with
  | AtFetcher _ _ p | AtSet _ _ p _ _ => Some p
  | _ => None
  end.

(** The registry invariant: a running origin fetch is registered under its
    key with its own pending promise, no two tasks run the same promise, and
    only promises that were created are settled. *)
Definition registered (s : sys) : Prop :=
  forall tid t p, tasks s !! tid = Some t -> fetching t = Some p ->
    inFlight s !! t_key t = Some p /\ settled s !! p = None /\ (p < next_promise s)%nat.

Definition one_owner (s : sys) : Prop :=
  forall tid1 tid2 t1 t2 p,
    tasks s !! tid1 = Some t1 -> tasks s !! tid2 = Some t2 ->
    fetching t1 = Some p -> fetching t2 = Some p -> tid1 = tid2.

Definition settled_created (s : sys) : Prop :=
  forall p, is_Some (settled s !! p) -> (p < next_promise s)%nat.

Definition registry_invariant (s : sys) : Prop :=
  registered s /\ one_owner s /\ settled_created s.

(** Single flight: two tasks that run an origin fetch of the same key are
    the same task. *)
Definition single_flight (s : sys) : Prop :=
  forall tid1 tid2 t1 t2,
    tasks s !! tid1 = Some t1 -> tasks s !! tid2 = Some t2 ->
    is_Some (fetching t1) -> is_Some (fetching t2) -> t_key t1 = t_key t2 ->
    tid1 = tid2.

End WithRuntime.

End Cache.

(** ** Concrete inputs used by the examples below *)

Module Examples.
Import Token.

(** A credential whose [expires_at] is the number 0. *)
Definition epoch_token : OAuthToken :=
  {| access_token := "tok"; refresh_token := None; token_type := None;
     scope := None; expires_in := Some 3600; expires_at := Some 0 |}.

(** A credential with 30 seconds left at clock reading 1000000. *)
Definition short_lived_token : OAuthToken :=
  {| access_token := "tok"; refresh_token := None; token_type := None;
     scope := None; expires_in := None; expires_at := Some 1030000 |}.

(** A script for the retry loop: two responses 500, then a response 200. *)
Definition response_500 : Http.Response :=
  {| Http.status := 500; Http.statusText := "Internal Server Error"; Http.body := "Error" |}.

Definition response_200 : Http.Response :=
  {| Http.status := 200; Http.statusText := "OK"; Http.body := "{}" |}.

Definition script_500_500_200 (i : nat) : Http.attempt_outcome :=
  match i with
  | 0%nat | 1%nat => Http.Resolved response_500
  | _ => Http.Resolved response_200
  end.

End Examples.

Module CacheExamples.
Import Js Cache.

(** A runtime for the examples: the hash is the identity, and [JSON.parse]
    knows the texts of [parse_table] and rejects every other text. *)
Definition parse_table : list (string * Js.value) :=
  [("<entry of wrongKey>",
    VObj [("key", VStr "wrongKey"); ("value", VStr "test");
          ("cachedAt", VNum 1000); ("expiresAt", VNum 2000)]);
   ("<entry without expiresAt>",
    VObj [("key", VStr "k"); ("value", VStr "test"); ("cachedAt", VNum 1000)])].

Definition demo_runtime : Runtime :=
  {| sha1_hex := fun k => k;
     JSON_parse := fun raw => assoc raw parse_table;
     JSON_stringify := fun v =>
       match get_field "key" v with VStr k => "<entry of " +:+ k +:+ ">" | _ => "" end |}.

(** The cache of the specification's scenario: [ttl = 50ms],
    [staleWindow = 500ms]. *)
Definition demo_options : Options :=
  {| dir := "/cache"; ttlMs := 50; staleIfErrorMs := 500 |}.

Definition empty_store : store := {| mem := ∅; disk := ∅ |}.

(** A disk whose file for key [badJson] does not parse. *)
Definition corrupt_store : store :=
  {| mem := ∅; disk := {[ "/cache/badJson.json" := File "{invalid json" ]} |}.

(** A disk whose file for key [k] cannot be read. *)
Definition unreadable_store : store :=
  {| mem := ∅; disk := {[ "/cache/k.json" := Faulty "EACCES" ]} |}.

(** [set("k", "v1")] done at clock reading 1000 with the default ttl. *)
Definition v1_entry : CacheEntry :=
  {| key := "k"; value := VStr "v1"; cachedAt := 1000; expiresAt := 1050 |}.

Definition v1_store : store :=
  {| mem := {[ "k" := v1_entry ]};
     disk := {[ "/cache/k.json" := File "<entry of k>" ]} |}.

Definition no_options : FetchOptions :=
  {| opt_ttlMs := None; opt_staleIfErrorMs := None |}.

Definition network_error : Js.value := VError "Error" "Network error" None.

(** A payload that happens to carry a [source] property equal to ["cache"]. *)
Definition tagged_payload : Js.value :=
  VObj [("id", VNum 7); ("source", VStr "cache")].

(** Two callers of [fetch("k", fail)] at clock reading 1060, ten
    milliseconds after the entry of [v1_store] expired: both calls are made
    before either continues, the fetcher of the first one is still pending
    when the second one looks at the registry, then it rejects. *)
Definition two_callers_fetch_fails : list event :=
  [Call 1 "k" no_options 1060 1060;
   Call 2 "k" no_options 1060 1060;
   Resume 1;
   Resume 2;
   Settle 1 (inl network_error) 1100;
   Resume 1;
   Resume 2].

(** The same two callers with a fetcher that resolves with ["v2"]. *)
Definition two_callers_fetch_succeeds : list event :=
  [Call 1 "k" no_options 1060 1060;
   Call 2 "k" no_options 1060 1060;
   Resume 1;
   Resume 2;
   Settle 1 (inr (VStr "v2")) 1100;
   Resume 1;
   Resume 1;
   Resume 2].

(** A first caller whose fetcher throws before returning a promise, and a
    second caller of the same key much later. *)
Definition throwing_fetcher_then_second_call : list event :=
  [Call 1 "k" no_options 1000 1000;
   Resume 1;
   ResumeThrowing 1 network_error;
   Resume 1;
   Call 2 "k" no_options 9000 9000;
   Resume 2;
   Resume 2;
   Resume 2].

End CacheExamples.

(** ** Tactics for running the event loop symbolically *)

Module CacheTactics.
Import Cache.

(** Unfold the scheduler on a state built by [set_task] and friends and
    resolve the map lookups that appear. *)
Ltac sim :=
  repeat progress
    (cbn [Cache.step set_task set_store finish_origin start_origin
          at_pc tasks t_pc t_key t_options inFlight settled s_store next_promise
          origin_calls idle fst snd after_get entry stale];
     rewrite ?lookup_insert_eq, ?lookup_empty).

(** One iteration of [drive]. *)
Ltac drive1 :=
  lazymatch goal with
  | |- context [drive ?rt ?o (S ?fuel) ?tid ?fetched ?now_set ?s] =>
      change (drive rt o (S fuel) tid fetched now_set s)
        with (match next_event tid fetched now_set s with
              | None => Some s
              | Some ev =>
                  match Cache.step rt o ev s with
                  | Some s' => drive rt o fuel tid fetched now_set s'
                  | None => None
                  end
              end)
  end;
  unfold next_event; sim.

(** The end of a run of a single task: the result, the store, the call log
    and the registry are read off the final state. *)
Ltac finish_alone :=
  eexists _, _, _, _;
  split; [reflexivity|]; split; [reflexivity|];
  split; [unfold returned; sim; reflexivity|];
  split; [reflexivity|];
  split;
  [ unfold calls_for; cbn; rewrite ?decide_True by reflexivity; reflexivity
  | cbn; rewrite ?delete_insert_eq, ?delete_empty; reflexivity ].

End CacheTactics.

(** ** The cache: [invalidate] and [purge] of [core/cache.ts] *)

Module CacheOps.
Import Js Cache.

(** [fs.unlink]. *)
Definition unlink (d : gmap string node) (p : string) : res (gmap string node) :=
  match d !! p with
  | None => inl (fs_error "ENOENT")
  | Some (Faulty c) => inl (fs_error c)
  | Some (File _) => inr (delete p d)
  end.

(** [err instanceof Error && "code" in err && err.code !== "ENOENT"]. *)
Definition is_coded_other_than_ENOENT (err : Js.value) : bool :=
  match err with
  | VError _ _ _ =>
      has_field "code" err && negb (is_string "ENOENT" (get_field "code" err))
  | _ => false
  end.

(** The path [p] is the directory [d] itself or lies below it. *)
Definition under (d p : string) : bool :=
  String.eqb p d || String.prefix (d +:+ "/") p.

(** The error codes of the faulty paths at or below a directory. *)
Definition faulty_under (d : gmap string node) (dir : string) : list string :=
  omap (fun pn : string * node =>
          match pn.2 with
          | Faulty c => if under dir pn.1 then Some c else None
          | File _ => None
          end)
       (map_to_list d).

(** [fs.rm(dir, { recursive: true, force: true })]: everything at or below
    [dir] is removed; a directory that does not exist is not an error; a
    path that cannot be accessed makes the removal fail. *)
Definition rm_recursive_force (d : gmap string node) (dir : string)
    : res (gmap string node) :=
  match faulty_under d dir with
  | c :: _ => inl (fs_error c)
  | [] => inr (filter (fun pn : string * node => under dir pn.1 = false) d)
  end.

(** What a call of [get] answers, without the store. *)
Definition answer (r : res (get_result * store)) : option get_result :=
  match r with
  | inr (g, _) => Some g
  | inl _ => None
  end.

(** A new process on the same disk: the memory map is empty. *)
Definition restarted (st : store) : store := {| mem := ∅; disk := disk st |}.

Section WithRuntime.
Context (rt : Runtime) (opts : Options).

(** [invalidate(key)]: the memory entry goes first; a failure of [unlink] is
    rethrown only when the error carries a code other than [ENOENT]. *)
Definition invalidate (k : string) (st : store) : res unit * store :=
  let st1 := {| mem := delete k (mem st); disk := disk st |} in
  match unlink (disk st1) (fileForKey rt opts k) with
  | inr d' => (inr tt, {| mem := mem st1; disk := d' |})
  | inl err =>
      if is_coded_other_than_ENOENT err then (inl err, st1) else (inr tt, st1)
  end.

(** [purge()]: [this.mem.clear()], then the cache directory is removed. *)
Definition purge (st : store) : res unit * store :=
  let st1 := {| mem := ∅; disk := disk st |} in
  match rm_recursive_force (disk st1) (dir opts) with
  | inr d' => (inr tt, {| mem := ∅; disk := d' |})
  | inl err => (inl err, st1)
  end.

End WithRuntime.

End CacheOps.

Module CacheOpsExamples.
Import Js Cache CacheExamples.

(** A runtime that serialises an entry to its key and parses the text [k]
    back to the entry [v1_entry]. *)
Definition echo_runtime : Runtime :=
  {| sha1_hex := fun k => k;
     JSON_parse := fun raw =>
       if String.eqb raw "k" then Some (entry_object v1_entry) else None;
     JSON_stringify := fun v => match get_field "key" v with VStr k => k | _ => "" end |}.

(** The store after [set("k", "v1")] at 1000 under [echo_runtime]. *)
Definition echo_store : store :=
  {| mem := {[ "k" := v1_entry ]}; disk := {[ "/cache/k.json" := File "k" ]} |}.

(** A store that also holds another project's entry. *)
Definition other_entry : CacheEntry :=
  {| key := "other"; value := VStr "o1"; cachedAt := 900; expiresAt := 950 |}.

Definition two_key_store : store :=
  {| mem := {[ "other" := other_entry ]}; disk := ∅ |}.

End CacheOpsExamples.

(** ** The transport client: [HttpClient.request] of [core/http.ts] *)

Module HttpRequest.
Import Http.

(** The world after one call of [fetchWithTimeout]. *)
Definition tick (w : world) : world := snd (fetchWithTimeout w).

(** The body of the [for] loop of [fetchWithRetry]: the [try] block and,
    when it throws, the [catch] block. *)
Definition iteration (maxRetries : number) (attempt : Z) (lastErr : option thrown)
    (w : world) : ctl * world :=
  let '(o, w1) := fetchWithTimeout w in
  match try_block maxRetries attempt lastErr o w1 with
  | (inr c, w2) => (c, w2)
  | (inl err, w2) => catch_block maxRetries attempt err w2
  end.

(** An outcome after which the loop goes on when attempts remain: a
    rejection, a status of 500 or more, or the status 0 (the [statusCode] of
    its [ApiError] is falsy, so the [catch] block does not rethrow it). *)
Definition retried (o : attempt_outcome) : bool :=
  match o with
  | Rejected _ => true
  | Resolved r => (500 <=? status r) || (status r =? 0)
  end.

(** How the loop ends at the attempt that decides. *)
Definition settle (o : attempt_outcome) : AppError + Response :=
  match o with
  | Resolved r => if ok r then inr r else inl (final_error o)
  | Rejected _ => inl (final_error o)
  end.

(** The call that decides: the first one from call [c] on whose outcome is
    not retried, or the one [n] calls later when all before it are. *)
Fixpoint stop_index (s : nat -> attempt_outcome) (c n : nat) : nat :=
  match n with
  | O => c
  | S n' => if retried (s c) then stop_index s (S c) n' else c
  end.

(** The time slept, in milliseconds. *)
Definition total (l : list Z) : Z := foldr Z.add 0 l.

(** What the [catch] block stores in [lastErr] for a retried outcome: the
    rejection, or the [ApiError] of a status 0; a status of 500 or more is
    retried inside the [try] block and stores nothing. *)
Definition caught (o : attempt_outcome) : option thrown :=
  match o with
  | Rejected m => Some (TOther m)
  | Resolved r => if 500 <=? status r then None else Some (TApp (final_error o))
  end.

(** [lastErr] after the [n] calls from call [c] on, all retried, when it was
    [e] before them. *)
Fixpoint last_caught (s : nat -> attempt_outcome) (c n : nat) (e : option thrown)
    : option thrown :=
  match n with
  | O => e
  | S n' =>
      last_caught s (S c) n' (match caught (s c) with Some x => Some x | None => e end)
  end.

(** The number of retries the loop allows, [floor(Math.min(retries, 5))];
    [None] when the loop body never runs: a negative count, [NaN],
    [-Infinity]. *)
Definition allowed_retries (retries : number) : option nat :=
  match Math_min5 retries with
  | Finite m =>
      if QArith_base.Qle_bool (QArith_base.inject_Z 0) m
      then Some (Z.to_nat (Qround.Qfloor m)) else None
  | _ => None
  end.

(** [Math.min(retries, 5)] is not an integer. *)
Definition fractional (retries : number) : bool :=
  match Math_min5 retries with
  | Finite m => negb (QArith_base.Qle_bool m (QArith_base.inject_Z (Qround.Qfloor m)))
  | _ => false
  end.

(** [class HttpClient]. *)
Record HttpClient := mkHttpClient {
  baseUrl : string;
  token : option string;
  timeoutMs : Z;
  retries : number
}.

(** The constructor: [timeoutMs ?? 10000], [retries ?? 2]. *)
Definition newHttpClient (base : string) (tok : option string) (timeout : option Z)
    (tries : option number) : HttpClient :=
  {| baseUrl := base; token := tok;
     timeoutMs := default 10000 timeout; retries := default (of_Z 2) tries |}.

(** [!this.baseUrl || this.baseUrl.startsWith("TODO")]. *)
Definition unconfigured (c : HttpClient) : bool :=
  String.eqb (baseUrl c) "" || String.prefix "TODO" (baseUrl c).

(** [s.includes(sub)]. *)
Definition includes (s sub : string) : bool :=
  match String.index 0 sub s with
  | Some _ => true
  | None => false
  end.

Definition not_configured : AppError :=
  NetworkError "HTTP endpoint not configured. Set baseUrl in config." None.

Section WithRuntime.
(** What [request] takes from the platform: [new URL(path, base)], [None]
    when the constructor throws; the [content-type] header of a response,
    [res.headers.get("content-type") ?? ""]; [JSON.parse], [None] when it
    throws. *)
Context (URL_resolve : string -> string -> option string)
        (content_type : Response -> string)
        (JSON_parse : string -> option Js.value).

(** What [request] does with the response [fetchWithRetry] resolved with. *)
Definition read_response (res : Response) : thrown + Js.value :=
  let text := body res in
  if String.eqb text "" then inr (Js.VObj [])
  else if includes (content_type res) "application/json" then
    match JSON_parse text with
    | Some v => inr v
    | None => inl (TApp (newApiError "Invalid JSON response from API" (status res)))
    end
  else if ok res then inr (Js.VStr text)
  else inl (TApp (newApiError ("API returned HTTP " +:+ pretty (status res)) (status res))).

(** [HttpClient.request(method, path, body, headers)].  The method, the
    headers and the serialised body only go into the [init] argument of
    [fetch]; the outcomes of the calls are the script of the world, so they
    are not arguments here. *)
Definition request (c : HttpClient) (path : string) (w : world)
    : option (thrown + Js.value) * world :=
  if unconfigured c then (Some (inl (TApp not_configured)), w)
  else
    match URL_resolve path (baseUrl c) with
    | None => (Some (inl (TOther "Invalid URL")), w)
    | Some _ =>
        match fetchWithRetry (retries c) w with
        | (None, w') => (None, w')
        | (Some (inl e), w') => (Some (inl (TApp e)), w')
        | (Some (inr res), w') => (Some (read_response res), w')
        end
    end.

End WithRuntime.

End HttpRequest.

Module HttpRequestExamples.
Import Http HttpRequest.

(** A server that answers 500 to every call. *)
Definition script_500 (i : nat) : attempt_outcome := Resolved Examples.response_500.

(** The retry count 2.5, which the configuration accepts. *)
Definition two_and_a_half : number := Finite (QArith_base.Qmake 5 2).

(** Status 0 twice, then a redirect that is not followed. *)
Definition script_0_0_304 (i : nat) : attempt_outcome :=
  match i with
  | 0%nat | 1%nat => Resolved {| status := 0; statusText := ""; body := "" |}
  | _ => Resolved {| status := 304; statusText := "Not Modified"; body := "" |}
  end.

End HttpRequestExamples.

(** ** The credential file: [validateToken], [loadToken], [saveToken],
    [clearToken] of [core/token.ts] *)

Module TokenStore.
Import Js Cache.

(** [new Error(message)]. *)
Definition plain_error (m : string) : Js.value := VError "Error" m None.

(** Defining the property [name] of an object: an existing property keeps
    its place and takes the new value, a new one goes last. *)
Fixpoint obj_set (name : string) (v : Js.value) (fields : list (string * Js.value))
    : list (string * Js.value) :=
  match fields with
  | [] => [(name, v)]
  | (k, x) :: rest =>
      if String.eqb k name then (k, v) :: rest else (k, x) :: obj_set name v rest
  end.

(** The own properties a spread [...v] copies, for an object of properties. *)
Definition own_fields (v : Js.value) : list (string * Js.value) :=
  match v with
  | VObj fields => fields
  | _ => []
  end.

(** [{ ...base, ...src }]. *)
Definition spread (src base : list (string * Js.value)) : list (string * Js.value) :=
  fold_left (fun acc kv => obj_set kv.1 kv.2 acc) src base.

(** [typeof v === "number" ? v : undefined]. *)
Definition number_or_undefined (v : Js.value) : Js.value :=
  if is_typeof_number v then v else VUndefined.

(** [validateToken(data)].  Only an object with an [access_token] property of
    its own reaches the object literal. *)
Definition validateToken (data : Js.value) : res Js.value :=
  if negb (truthy data) || negb (typeof_object data) then
    inl (plain_error "Invalid token: not an object")
  else if negb (is_typeof_string (get_field "access_token" data))
          || negb (truthy (get_field "access_token" data)) then
    inl (plain_error "Invalid token: missing or invalid access_token")
  else
    inr (VObj (spread (own_fields data)
                 [("access_token", get_field "access_token" data);
                  ("refresh_token", get_field "refresh_token" data);
                  ("token_type", get_field "token_type" data);
                  ("scope", get_field "scope" data);
                  ("expires_in", number_or_undefined (get_field "expires_in" data));
                  ("expires_at", number_or_undefined (get_field "expires_at" data))])).

(** [e?.code === "ENOENT"]. *)
Definition code_is_ENOENT (e : Js.value) : bool :=
  is_string "ENOENT" (get_field "code" e).

(** [fs.rename(src, dst)]. *)
Definition rename (d : gmap string node) (src dst : string) : res (gmap string node) :=
  match d !! src with
  | None => inl (fs_error "ENOENT")
  | Some (Faulty c) => inl (fs_error c)
  | Some (File raw) =>
      match d !! dst with
      | Some (Faulty c) => inl (fs_error c)
      | _ => inr (<[dst := File raw]> (delete src d))
      end
  end.

(** The properties of a typed token: an absent optional field is no
    property (a property that is [undefined] is not serialised either). *)
Definition optional_field {A} (name : string) (f : A -> Js.value) (o : option A)
    : list (string * Js.value) :=
  match o with
  | Some x => [(name, f x)]
  | None => []
  end.

Definition token_object (t : Token.OAuthToken) : Js.value :=
  VObj (("access_token", VStr (Token.access_token t))
        :: optional_field "refresh_token" VStr (Token.refresh_token t)
        ++ optional_field "token_type" VStr (Token.token_type t)
        ++ optional_field "scope" VStr (Token.scope t)
        ++ optional_field "expires_in" VNum (Token.expires_in t)
        ++ optional_field "expires_at" VNum (Token.expires_at t)).

Section WithRuntime.
(** [JSON.parse]; [JSON.stringify(obj, null, 2)]; [path.dirname]. *)
Context (JSON_parse : string -> option Js.value)
        (JSON_stringify_indented : Js.value -> string)
        (dirname : string -> string).

(** The [try] block of [loadToken]. *)
Definition loadToken_try (tokenPath : string) (d : gmap string node) : res Js.value :=
  match readFile d tokenPath with
  | inl err => inl err
  | inr raw =>
      match JSON_parse raw with
      | None => inl syntax_error
      | Some parsed => validateToken parsed
      end
  end.

(** [loadToken(tokenPath)]: [None] is the result [null]. *)
Definition loadToken (tokenPath : string) (d : gmap string node) : res (option Js.value) :=
  match loadToken_try tokenPath d with
  | inr t => inr (Some t)
  | inl e => if code_is_ENOENT e then inr None else inl e
  end.

(** [atomicWriteJson(filePath, obj)], writing through the temporary file
    [tmp] (its name is made of the process id, the clock and a random
    number).  A failure of the final [chmod] is ignored. *)
Definition atomicWriteJson (tmp filePath : string) (obj : Js.value) (d : gmap string node)
    : res unit * gmap string node :=
  match mkdir d (dirname filePath) with
  | inl e => (inl e, d)
  | inr d1 =>
      match writeFile d1 tmp (JSON_stringify_indented obj) with
      | inl e => (inl e, d1)
      | inr d2 =>
          match rename d2 tmp filePath with
          | inl e => (inl e, d2)
          | inr d3 => (inr tt, d3)
          end
      end
  end.

(** [saveToken(tokenPath, token)]. *)
Definition saveToken (now : Z) (tmp tokenPath : string) (token : Token.OAuthToken)
    (d : gmap string node) : res Token.OAuthToken * gmap string node :=
  let normalized := Token.normalizeToken now token in
  match atomicWriteJson tmp tokenPath (token_object normalized) d with
  | (inl e, d') => (inl e, d')
  | (inr _, d') => (inr normalized, d')
  end.

(** [clearToken(tokenPath)]. *)
Definition clearToken (tokenPath : string) (d : gmap string node)
    : res unit * gmap string node :=
  match CacheOps.unlink d tokenPath with
  | inr d' => (inr tt, d')
  | inl e => if negb (code_is_ENOENT e) then (inl e, d) else (inr tt, d)
  end.

End WithRuntime.

End TokenStore.

Module TokenStoreExamples.
Import Js Cache TokenStore.

(** A stored token whose [expires_at] is a string. *)
Definition odd_token : Js.value :=
  VObj [("access_token", VStr "abc"); ("expires_at", VStr "tomorrow"); ("user", VStr "u1")].

Definition fresh_token : Token.OAuthToken :=
  {| Token.access_token := "abc"; Token.refresh_token := Some "r1";
     Token.token_type := None; Token.scope := None;
     Token.expires_in := Some 3600; Token.expires_at := None |}.

(** A token that is granted for 30 seconds. *)
Definition brief_token : Token.OAuthToken :=
  {| Token.access_token := "abc"; Token.refresh_token := None;
     Token.token_type := None; Token.scope := None;
     Token.expires_in := Some 30; Token.expires_at := None |}.

(** A token whose lifetime is one second in the past. *)
Definition backdated_token : Token.OAuthToken :=
  {| Token.access_token := "abc"; Token.refresh_token := None;
     Token.token_type := None; Token.scope := None;
     Token.expires_in := Some (-1); Token.expires_at := None |}.

(** A parser that knows one text. *)
Definition demo_parse (raw : string) : option Js.value :=
  if String.eqb raw "T" then Some (token_object (Token.normalizeToken 1000 fresh_token))
  else None.

Definition demo_stringify (v : Js.value) : string := "T".

Definition demo_dirname (p : string) : string := "/home/u/.config/dida365-cli".

Definition token_path : string := "/home/u/.config/dida365-cli/token.json".

Definition tmp_path : string := "/home/u/.config/dida365-cli/.tmp-1-1000-abc.json".

Definition old_disk : gmap string node := {[ token_path := File "old" ]}.

(** The target cannot be replaced. *)
Definition locked_disk : gmap string node := {[ token_path := Faulty "EACCES" ]}.

End TokenStoreExamples.

(** ** The command context: [buildContext] of [core/context.ts] *)

Module BuildContext.
Import Js.

(** [a ?? b]. *)
Definition nullish (v : Js.value) : bool :=
  match v with
  | VUndefined | VNull => true
  | _ => false
  end.

Definition coalesce (a b : Js.value) : Js.value := if nullish a then b else a.

(** [interface GlobalOptions]: the options of the command line. *)
Record GlobalOptions := mkGlobalOptions {
  opt_json : option bool;
  opt_config : option string;
  opt_token : option string;
  opt_cacheDir : option string;
  opt_timezone : option string
}.

Definition of_option (o : option string) : Js.value := from_option VStr VUndefined o.

(** [s.endsWith("/")]. *)
Fixpoint endsWith_slash (s : string) : bool :=
  match s with
  | EmptyString => false
  | String c EmptyString => Ascii.eqb c (Ascii.ascii_of_nat 47)
  | String _ rest => endsWith_slash rest
  end.

(** What [buildContext] returns, as far as the cache and the client go: the
    options the [Cache] was constructed with and the [HttpClient]. *)
Record Context := mkContext {
  json : bool;
  cacheDir : Js.value;
  cacheTtlMs : Z;
  cacheStaleIfErrorMs : Z;
  client : HttpRequest.HttpClient
}.

(** The double quote character, as a string. *)
Definition dquote : string := String (Ascii.ascii_of_nat 34) EmptyString.

(** Reading a property of a value that is [null] or [undefined] throws. *)
Definition type_error (m : string) : Js.value := VError "TypeError" m None.

Section WithRuntime.
(** [String(v)] as a template literal does it; [JSON.parse]; the test
    [isValidUrl]: the [URL] constructor accepts the value and the protocol is
    http or https. *)
Context (to_String : Js.value -> string)
        (JSON_parse : string -> option Js.value)
        (isValidUrl : Js.value -> bool).

(** [validateNumericOption(value, name, min, max, defaultValue)];
    [Number.isFinite] is false for what is not a number. *)
Definition validateNumericOption (v : Js.value) (name : string) (min max defaultValue : Z)
    : res Z :=
  let invalid :=
    TokenStore.plain_error
      ("Invalid " +:+ name +:+ ": must be a number between " +:+ pretty min
       +:+ " and " +:+ pretty max +:+ ", got " +:+ to_String v) in
  match v with
  | VUndefined => inr defaultValue
  | VNum n => if (n <? min) || (n >? max) then inl invalid else inr n
  | _ => inl invalid
  end.

Definition validateTimeoutMs (v : Js.value) : res Z :=
  validateNumericOption v "timeoutMs" 1000 300000 15000.

Definition validateRetries (v : Js.value) : res Z :=
  validateNumericOption v "retries" 0 10 3.

Definition validateCacheTtlSeconds (v : Js.value) : res Z :=
  validateNumericOption v "cacheTtlSeconds" 1 604800 3600.

Definition validateCacheStaleIfErrorSeconds (v : Js.value) : res Z :=
  validateNumericOption v "cacheStaleIfErrorSeconds" 1 604800 86400.

(** [merged.token]: [opts.token ?? config.token]. *)
Definition merged_token (opts : GlobalOptions) (config : Js.value) : Js.value :=
  coalesce (of_option (opt_token opts)) (get_field "token" config).

(** The token file is read only when [!merged.token]; a failure is wrapped
    in a new [Error]. *)
Definition load_tokenData (tok : Js.value) (tokenPath : string)
    (d : gmap string Cache.node) : res (option Js.value) :=
  if negb (truthy tok) then
    match TokenStore.loadToken JSON_parse tokenPath d with
    | inl e =>
        inl (TokenStore.plain_error
               ("Failed to load token from " +:+ tokenPath +:+ ": "
                +:+ match e with VError _ m _ => m | _ => to_String e end))
    | inr t => inr t
    end
  else inr None.

(** [merged.token ?? tokenData?.access_token]. *)
Definition resolve_accessToken (tok : Js.value) (tokenData : option Js.value) : Js.value :=
  coalesce tok
    match tokenData with
    | Some t => get_field "access_token" t
    | None => VUndefined
    end.

(** [!accessToken || typeof accessToken !== "string" || accessToken.length === 0]. *)
Definition no_access_token (accessToken : Js.value) : bool :=
  negb (truthy accessToken) || negb (is_typeof_string accessToken)
  || match accessToken with VStr t => (String.length t =? 0)%nat | _ => false end.

(** The base URL after the trailing slash is added. *)
Definition with_slash (s : string) : string :=
  if negb (endsWith_slash s) then s +:+ "/" else s.

(** [buildContext(opts)] from the configuration [loadConfig] returned, the
    token path [resolveTokenPath] returned and the default cache directory
    under the home directory. *)
Definition buildContext (opts : GlobalOptions) (config : Js.value)
    (defaultCacheDir tokenPath : string) (d : gmap string Cache.node) : res Context :=
  if nullish config then inl (type_error "Cannot read properties of null") else
  let cacheCfg := coalesce (get_field "cache" config) (VObj []) in
  let httpCfg := coalesce (get_field "http" config) (VObj []) in
  let tok := merged_token opts config in
  let m_cacheDir :=
    coalesce (coalesce (of_option (opt_cacheDir opts)) (get_field "cacheDir" config))
             (get_field "dir" cacheCfg) in
  let m_cacheTtlSeconds :=
    coalesce (get_field "ttlSeconds" cacheCfg) (get_field "cacheTtlSeconds" config) in
  let m_cacheStaleIfErrorSeconds :=
    coalesce (get_field "staleIfErrorSeconds" cacheCfg)
             (get_field "cacheStaleIfErrorSeconds" config) in
  let m_baseUrl := coalesce (get_field "baseUrl" httpCfg) (get_field "baseUrl" config) in
  let m_timeoutMs := coalesce (get_field "timeoutMs" httpCfg) (get_field "timeoutMs" config) in
  let m_retries := coalesce (get_field "retries" httpCfg) (get_field "retries" config) in
  if negb (match tok with VUndefined => true | _ => false end) && negb (is_typeof_string tok)
  then inl (TokenStore.plain_error "Invalid token: must be a string") else
  if truthy tok && match tok with VStr t => (String.length t =? 0)%nat | _ => false end
  then inl (TokenStore.plain_error "Invalid token: cannot be empty string") else
  let dir := coalesce m_cacheDir (VStr defaultCacheDir) in
  match validateCacheTtlSeconds m_cacheTtlSeconds with
  | inl e => inl e
  | inr ttl =>
  match validateCacheStaleIfErrorSeconds m_cacheStaleIfErrorSeconds with
  | inl e => inl e
  | inr stale =>
  match load_tokenData tok tokenPath d with
  | inl e => inl e
  | inr tokenData =>
  let accessToken := resolve_accessToken tok tokenData in
  if no_access_token accessToken then
    inl (TokenStore.plain_error
           "No valid access token found. Provide --token or configure OAuth authentication.")
  else
  let baseUrl := coalesce m_baseUrl (VStr "https://api.dida365.com/open/v1") in
  if negb (isValidUrl baseUrl) then
    inl (TokenStore.plain_error
           ("Invalid baseUrl: " +:+ dquote +:+ to_String baseUrl +:+ dquote
            +:+ ". Must be a valid HTTP/HTTPS URL."))
  else
  match baseUrl with
  | VStr url =>
      match validateTimeoutMs m_timeoutMs with
      | inl e => inl e
      | inr timeout =>
      match validateRetries m_retries with
      | inl e => inl e
      | inr tries =>
          inr {| json := default false (opt_json opts);
                 cacheDir := dir;
                 cacheTtlMs := ttl * 1000;
                 cacheStaleIfErrorMs := stale * 1000;
                 client :=
                   HttpRequest.newHttpClient (with_slash url)
                     (match accessToken with VStr t => Some t | _ => None end)
                     (Some timeout) (Some (Http.of_Z tries)) |}
      end end
  | _ => inl (type_error "baseUrl.endsWith is not a function")
  end
  end end end.

End WithRuntime.

End BuildContext.

Module BuildContextExamples.
Import Js BuildContext.

Definition token_option (t : string) : GlobalOptions :=
  {| opt_json := None; opt_config := None; opt_token := Some t;
     opt_cacheDir := None; opt_timezone := None |}.

(** A configuration with nested and flat settings: the nested ones win. *)
Definition demo_config : Js.value :=
  VObj [("retries", VNum 9);
        ("http", VObj [("retries", VNum 4); ("baseUrl", VStr "https://example.org/api")]);
        ("cacheTtlSeconds", VNum 60)].

Definition demo_to_String (v : Js.value) : string :=
  match v with VStr s => s | _ => "?" end.

Definition demo_isValidUrl (v : Js.value) : bool :=
  match v with VStr s => String.prefix "https://" s | _ => false end.

End BuildContextExamples.

(** ** Error classes and exit codes: [core/errors.ts], [core/exitCodes.ts] *)

Module Errors.

(** The classes of [core/errors.ts]. *)
Inductive class :=
| CDida365Error
| CValidationError
| CNotFoundError
| CNetworkError
| CApiError
| CNotImplementedError.

(** An instance of [Dida365Error] or of one of its subclasses. *)
Record instance := mkInstance {
  cls : class;
  message : string;
  code : string;
  statusCode : option Z
}.

(** The [type] property the constructors set: the name of the class. *)
Definition type_of (e : instance) : string :=
  match cls e with
  | CDida365Error => "Dida365Error"
  | CValidationError => "ValidationError"
  | CNotFoundError => "NotFoundError"
  | CNetworkError => "NetworkError"
  | CApiError => "ApiError"
  | CNotImplementedError => "NotImplementedError"
  end.

Definition newDida365Error (m c : string) : instance :=
  {| cls := CDida365Error; message := m; code := c; statusCode := None |}.

Definition newValidationError (m : string) : instance :=
  {| cls := CValidationError; message := m; code := "VALIDATION_ERROR";
     statusCode := Some 400 |}.

Definition newNotFoundError (resource id : string) : instance :=
  {| cls := CNotFoundError; message := resource +:+ " not found: " +:+ id;
     code := "NOT_FOUND"; statusCode := Some 404 |}.

Definition newNetworkError (m : string) : instance :=
  {| cls := CNetworkError; message := m; code := "NETWORK_ERROR"; statusCode := None |}.

Definition newApiError (m : string) (sc : Z) : instance :=
  {| cls := CApiError; message := "API returned HTTP " +:+ pretty sc +:+ ": " +:+ m;
     code := "API_ERROR"; statusCode := Some sc |}.

Definition newNotImplementedError (m : option string) : instance :=
  {| cls := CNotImplementedError; message := default "Not implemented" m;
     code := "NOT_IMPLEMENTED"; statusCode := Some 501 |}.

(** The errors of the transport client as instances. *)
Definition of_http (e : Http.AppError) : instance :=
  match e with
  | Http.ApiError m sc =>
      {| cls := CApiError; message := m; code := "API_ERROR"; statusCode := Some sc |}
  | Http.NetworkError m _ => newNetworkError m
  end.

(** What a [catch] can receive: an instance of the classes above, another
    [Error] (with its message), or a value that is no [Error] (with its
    [String(err)]). *)
Inductive thrown :=
| Instance (e : instance)
| PlainError (m : string)
| NotAnError (as_string : string).

(** [normalizeError(err)]. *)
Definition normalizeError (err : thrown) : instance :=
  match err with
  | Instance e => e
  | PlainError m => newNetworkError m
  | NotAnError str => newDida365Error str "UNKNOWN_ERROR"
  end.

(** [ExitCode]. *)
Definition OK : Z := 0.
Definition UNKNOWN : Z := 1.
Definition VALIDATION : Z := 2.
Definition AUTH : Z := 3.
Definition NOT_FOUND : Z := 4.
Definition NETWORK : Z := 5.
Definition NOT_IMPLEMENTED : Z := 6.

(** [exitCodeForError(err)]: the [switch] on [err.type]. *)
Definition exitCodeForError (err : instance) : Z :=
  let t := type_of err in
  if String.eqb t "ValidationError" then VALIDATION
  else if String.eqb t "AuthError" then AUTH
  else if String.eqb t "NotFoundError" then NOT_FOUND
  else if String.eqb t "NetworkError" then NETWORK
  else if String.eqb t "NotImplementedError" then NOT_IMPLEMENTED
  else UNKNOWN.

(** The exit code [outputError(ctx, err)] leaves in [process.exitCode]. *)
Definition outputError_exitCode (err : thrown) : Z :=
  exitCodeForError (normalizeError err).

End Errors.

(** ** The API client: [validateId], [tasksGet], [tasksUpdate] of
    [core/api.ts] *)

Module Client.
Import Js.

(** The character class [a-zA-Z0-9_-]. *)
Definition id_char (c : Ascii.ascii) : bool :=
  let n := Ascii.nat_of_ascii c in
  ((97 <=? n) && (n <=? 122) || (65 <=? n) && (n <=? 90) || (48 <=? n) && (n <=? 57)
   || (n =? 95) || (n =? 45))%nat.

Fixpoint all_id_chars (s : string) : bool :=
  match s with
  | EmptyString => true
  | String c rest => id_char c && all_id_chars rest
  end.

(** [/^[a-zA-Z0-9_-]+$/.test(s)]. *)
Definition id_pattern (s : string) : bool :=
  negb (String.eqb s "") && all_id_chars s.

(** [validateId(id, name)]: [None] when it returns, the error it throws
    otherwise. *)
Definition validateId (id : Js.value) (name : string) : option Errors.instance :=
  if negb (truthy id) || negb (is_typeof_string id) then
    Some (Errors.newValidationError (name +:+ " must be a non-empty string"))
  else
    match id with
    | VStr s =>
        if negb (id_pattern s) then
          Some (Errors.newValidationError
                  (name +:+ " contains invalid characters (only alphanumeric, dash, underscore allowed)"))
        else None
    | _ => None
    end.

(** The template literal [`${v}`] for an identifier that passed
    [validateId]. *)
Definition text (v : Js.value) : string :=
  match v with
  | VStr s => s
  | _ => ""
  end.

(** The arguments a method passes to [this.http.request]. *)
Record Request := mkRequest {
  method : string;
  path : string;
  body : option Js.value
}.

(** [tasksGet(projectId, taskId)] up to its call of [request]. *)
Definition tasksGet (projectId taskId : Js.value) : Errors.instance + Request :=
  match validateId projectId "projectId" with
  | Some e => inl e
  | None =>
      match validateId taskId "taskId" with
      | Some e => inl e
      | None =>
          inr {| method := "GET";
                 path := "project/" +:+ text projectId +:+ "/task/" +:+ text taskId;
                 body := None |}
      end
  end.

(** [const { id: _draftId, ...tempDraft } = draft || {}]. *)
Definition without_id (fields : list (string * Js.value)) : list (string * Js.value) :=
  filter (fun kv => negb (String.eqb kv.1 "id")) fields.

(** [Object.fromEntries(Object.entries(tempDraft).filter(([_, v]) => v !== undefined))]. *)
Definition defined_only (fields : list (string * Js.value)) : list (string * Js.value) :=
  TokenStore.spread
    (filter (fun kv => negb match kv.2 with VUndefined => true | _ => false end) fields) [].

(** [{ ...safeDraft, projectId, id: taskId }]. *)
Definition own_fields_of_body (projectId taskId : Js.value)
    (draft : list (string * Js.value)) : list (string * Js.value) :=
  TokenStore.obj_set "id" taskId
    (TokenStore.obj_set "projectId" projectId (defined_only (without_id draft))).

Definition update_body (projectId taskId : Js.value) (draft : list (string * Js.value))
    : Js.value :=
  VObj (own_fields_of_body projectId taskId draft).

(** [tasksUpdate(projectId, taskId, draft)] up to its call of [request], for
    a draft that is an object with the given properties ([[]] for a draft
    that is absent). *)
Definition tasksUpdate (projectId taskId : Js.value) (draft : list (string * Js.value))
    : Errors.instance + Request :=
  match validateId projectId "projectId" with
  | Some e => inl e
  | None =>
      match validateId taskId "taskId" with
      | Some e => inl e
      | None =>
          inr {| method := "POST";
                 path := "task/" +:+ text taskId;
                 body := Some (update_body projectId taskId draft) |}
      end
  end.

(** The segments of a path between its slashes. *)
Fixpoint segments (s : string) : list string :=
  match s with
  | EmptyString => [EmptyString]
  | String c rest =>
      if Ascii.eqb c (Ascii.ascii_of_nat 47) then EmptyString :: segments rest
      else
        match segments rest with
        | h :: t => String c h :: t
        | [] => [String c EmptyString]
        end
  end.

End Client.

(** ** Tags: [dedupeTags], [ensureTagsOnTaskDraft] of [core/tags.ts] *)

Module Tags.
Import Js.

(** The third argument of [ensureTagsOnTaskDraft]. *)
Record TagOptions := mkTagOptions {
  requiredTags : option (list string);
  tagHints : option (list string);
  enableRequiredTags : option bool
}.

(** [list.includes(t)]. *)
Definition includes (t : string) (l : list string) : bool := existsb (String.eqb t) l.

(** [delete draft.tags]. *)
Definition delete_field (name : string) (fields : list (string * Js.value))
    : list (string * Js.value) :=
  filter (fun kv => negb (String.eqb kv.1 name)) fields.

Section WithRuntime.
(** [normalizeTagValue]: [tag.trim().replace(/\s+/g, "").toLowerCase()], a
    function of the string library of the platform. *)
Context (normalizeTagValue : string -> string).

(** The loop of [dedupeTags] with its set [seen] and its array [out]. *)
Fixpoint dedupe_loop (tags : list string) (seen : gset string) (out : list string)
    : list string :=
  match tags with
  | [] => out
  | tag :: rest =>
      let normalized := normalizeTagValue tag in
      if String.eqb normalized "" then dedupe_loop rest seen out
      else if bool_decide (normalized ∈ seen) then dedupe_loop rest seen out
      else dedupe_loop rest ({[normalized]} ∪ seen) (out ++ [normalized])
  end.

Definition dedupeTags (tags : list string) : list string := dedupe_loop tags ∅ [].

(** The array [merged] of [ensureTagsOnTaskDraft]. *)
Definition merged_tags (o : TagOptions) : list string :=
  let required :=
    if default true (enableRequiredTags o)
    then dedupeTags (default ["cli"] (requiredTags o)) else [] in
  let agentTags :=
    filter (fun t => negb (includes t required)) (dedupeTags (default [] (tagHints o))) in
  required ++ agentTags.

(** [ensureTagsOnTaskDraft(draft, opts)], on the properties of the draft. *)
Definition ensureTagsOnTaskDraft (draft : list (string * Js.value)) (o : TagOptions)
    : list (string * Js.value) :=
  let merged := merged_tags o in
  if negb (length merged =? 0)%nat
  then TokenStore.obj_set "tags" (VArr (VStr <$> merged)) draft
  else delete_field "tags" draft.

End WithRuntime.

End Tags.

(** ** The projects commands: [commands/projects.ts] *)

Module Projects.
Import Js Cache.

Definition cacheKey : string := "projects:list".

(** [(ctx.config.projectsCacheTtlSeconds ?? 604800) * 1000], for a setting
    that is a number or absent. *)
Definition list_ttlMs (projectsCacheTtlSeconds : option Z) : Z :=
  default 604800 projectsCacheTtlSeconds * 1000.

(** [{ data }]. *)
Definition data_result (data : Js.value) : Js.value := VObj [("data", data)].

Section WithRuntime.
Context (rt : Runtime) (opts : Options).

(** The actions of [projects create], [update] and [delete] once their
    options are checked: the call of the client, which settles with [api],
    then [ctx.cache.invalidate("projects:list")], then [return { data }]. *)
Definition mutate (api : res Js.value) (st : store) : res Js.value * store :=
  match api with
  | inl e => (inl e, st)
  | inr data =>
      match CacheOps.invalidate rt opts cacheKey st with
      | (inl e, st') => (inl e, st')
      | (inr _, st') => (inr (data_result data), st')
      end
  end.

(** The action of [projects list --force-refresh]: the list is fetched and
    stored with the lifetime of the projects list. *)
Definition list_forced (projectsCacheTtlSeconds : option Z) (now_set : Z)
    (api : res Js.value) (st : store) : res Js.value * store :=
  match api with
  | inl e => (inl e, st)
  | inr data =>
      match Cache.set rt opts now_set cacheKey data
              (Some (list_ttlMs projectsCacheTtlSeconds)) st with
      | (inl e, st') => (inl e, st')
      | (inr _, st') =>
          (inr (VObj [("data", data);
                      ("meta", VObj [("cache", VObj [("source", VStr "origin");
                                                     ("forced", VBool true)])])]),
           st')
      end
  end.

End WithRuntime.

End Projects.

Module ProjectsExamples.
Import Js Cache.

(** The list of projects stored at time 1000 for seven days. *)
Definition list_entry : CacheEntry :=
  {| key := Projects.cacheKey; value := VStr "v1"; cachedAt := 1000;
     expiresAt := 604801000 |}.

(** A runtime that serialises every entry to the text [L] and parses this
    text back to [list_entry]. *)
Definition list_runtime : Runtime :=
  {| sha1_hex := fun k => k;
     JSON_parse := fun raw =>
       if String.eqb raw "L" then Some (entry_object list_entry) else None;
     JSON_stringify := fun v => "L" |}.

(** The store that holds the list of projects, in memory and on disk, under
    [list_runtime] and the directory [/cache]. *)
Definition list_store : store :=
  {| mem := {[ Projects.cacheKey := list_entry ]};
     disk := {[ "/cache/projects:list.json" := File "L" ]} |}.

End ProjectsExamples.

(** ** The refresh mutex: [withRefreshMutex] of [core/token.ts] *)

Module RefreshMutex.
Import Js.

(** Where a call of [withRefreshMutex] is.  [Leading p]: it called [fn],
    stored the promise [p] in [refreshPromise] and is at [await p].
    [Following p]: it found [refreshPromise] set and returned that promise, so
    its own promise settles as [p] does.  [Done p r]: it has settled with [r];
    [p] records the promise it led or followed, if any. *)
Inductive mpc :=
| Leading (p : nat)
| Following (p : nat)
| Done (p : option nat) (r : res Js.value).

(** The module state [refreshPromise], the promises the calls of [fn]
    returned (those in [m_settled] have settled), the calls, and the number
    of times [fn] was called. *)
Record msys := mkMsys {
  refreshPromise : option nat;
  m_settled : gmap nat (res Js.value);
  m_next : nat;
  m_tasks : gmap nat mpc;
  fn_calls : nat
}.

(** [MCall]: a new call runs up to its first suspension; [fn], when it is
    called, either throws [thrown] before returning or returns a new promise.
    [MSettle]: the promise [p] settles.  [MResume]: a suspended call
    continues. *)
Inductive mevent :=
| MCall (tid : nat) (thrown : option Js.value)
| MSettle (p : nat) (r : res Js.value)
| MResume (tid : nat).

Definition with_task (tid : nat) (c : mpc) (s : msys) : msys :=
  {| refreshPromise := refreshPromise s; m_settled := m_settled s; m_next := m_next s;
     m_tasks := <[tid := c]> (m_tasks s); fn_calls := fn_calls s |}.

Definition mstep (ev : mevent) (s : msys) : option msys :=
  match ev with
  | MCall tid thrown =>
      match m_tasks s !! tid with
      | Some _ => None
      | None =>
          match refreshPromise s with
          | Some p => Some (with_task tid (Following p) s)
          | None =>
              match thrown with
              | Some err =>
                  Some {| refreshPromise := None; m_settled := m_settled s;
                          m_next := m_next s;
                          m_tasks := <[tid := Done None (inl err)]> (m_tasks s);
                          fn_calls := S (fn_calls s) |}
              | None =>
                  Some {| refreshPromise := Some (m_next s); m_settled := m_settled s;
                          m_next := S (m_next s);
                          m_tasks := <[tid := Leading (m_next s)]> (m_tasks s);
                          fn_calls := S (fn_calls s) |}
              end
          end
      end
  | MSettle p r =>
      if bool_decide (p < m_next s)%nat then
        match m_settled s !! p with
        | Some _ => None
        | None =>
            Some {| refreshPromise := refreshPromise s;
                    m_settled := <[p := r]> (m_settled s); m_next := m_next s;
                    m_tasks := m_tasks s; fn_calls := fn_calls s |}
        end
      else None
  | MResume tid =>
      match m_tasks s !! tid with
      | Some (Leading p) =>
          match m_settled s !! p with
          | Some r =>
              (* finally { refreshPromise = null } *)
              Some {| refreshPromise := None; m_settled := m_settled s;
                      m_next := m_next s;
                      m_tasks := <[tid := Done (Some p) r]> (m_tasks s);
                      fn_calls := fn_calls s |}
          | None => None
          end
      | Some (Following p) =>
          match m_settled s !! p with
          | Some r => Some (with_task tid (Done (Some p) r) s)
          | None => None
          end
      | _ => None
      end
  end.

Fixpoint mrun (evs : list mevent) (s : msys) : option msys :=
  match evs with
  | [] => Some s
  | ev :: rest =>
      match mstep ev s with
      | Some s' => mrun rest s'
      | None => None
      end
  end.

(** The module as it is loaded: [refreshPromise = null]. *)
Definition loaded : msys :=
  {| refreshPromise := None; m_settled := ∅; m_next := 0%nat; m_tasks := ∅;
     fn_calls := 0%nat |}.

(** The invariant of the mutex. *)
Definition mutex_invariant (s : msys) : Prop :=
  (forall tid p, m_tasks s !! tid = Some (Leading p) -> refreshPromise s = Some p)
  /\ (forall tid1 tid2 p1 p2,
        m_tasks s !! tid1 = Some (Leading p1) -> m_tasks s !! tid2 = Some (Leading p2) ->
        tid1 = tid2)
  /\ (forall p, refreshPromise s = Some p -> (p < m_next s)%nat)
  /\ (forall q, (q < m_next s)%nat -> m_settled s !! q = None -> refreshPromise s = Some q)
  /\ (forall tid p r, m_tasks s !! tid = Some (Done (Some p) r) -> m_settled s !! p = Some r)
  /\ (forall tid p, m_tasks s !! tid = Some (Following p) -> (p < m_next s)%nat).

End RefreshMutex.

Module RefreshMutexExamples.
Import Js RefreshMutex.

(** Two calls while the first refresh is pending, then the refresh fails and
    both calls continue. *)
Definition two_refreshers : list mevent :=
  [MCall 0 None; MCall 1 None; MSettle 0 (inl (VStr "expired")); MResume 0; MResume 1].

End RefreshMutexExamples.

(** ** The configuration file: [loadConfig] of [core/config.ts] *)

Module Config.
Import Js.

(** The file system as [loadConfig] meets it.  A path that is not in the
    map does not exist.  A path in the map is a file that can be read, with
    its text; or something [fs.stat] finds and [fs.readFile] cannot read, a
    directory ([EISDIR]) or a file without read permission ([EACCES]), with
    the code of the error of the read; or something [fs.stat] itself fails
    on, as below a directory that cannot be searched, with the code of that
    error. *)
Inductive fs_node :=
| Readable (raw : string)
| Unreadable (code : string)
| Inaccessible (code : string).

(** [fs.stat(file)]; the result is not used by the caller. *)
Definition stat (d : gmap string fs_node) (file : string) : res unit :=
  match d !! file with
  | None => inl (Cache.fs_error "ENOENT")
  | Some (Inaccessible c) => inl (Cache.fs_error c)
  | Some (Readable _) | Some (Unreadable _) => inr tt
  end.

(** [fs.readFile(file, "utf8")]. *)
Definition readFile (d : gmap string fs_node) (file : string) : res string :=
  match d !! file with
  | None => inl (Cache.fs_error "ENOENT")
  | Some (Inaccessible c) | Some (Unreadable c) => inl (Cache.fs_error c)
  | Some (Readable raw) => inr raw
  end.

(** [fileExists(file)]: [try { await fs.stat(file); return true } catch
    { return false }]. *)
Definition fileExists (d : gmap string fs_node) (file : string) : bool :=
  match stat d file with
  | inr _ => true
  | inl _ => false
  end.

(** What [loadConfig] returns. *)
Record Loaded := mkLoaded {
  config : Js.value;
  path : option string;
  warnings : list string
}.

(** [err?.message ?? String(err)] for the errors the file system and
    [JSON.parse] raise. *)
Definition message_of (err : Js.value) : string :=
  match err with
  | VError _ m _ => m
  | _ => ""
  end.

(** The text of the warning of the [catch] of [loadConfig]. *)
Definition read_warning (p : string) (err : Js.value) : string :=
  "Failed to read config at " +:+ p +:+ ": " +:+ message_of err.

(** The candidates in their order: [--config], the environment variable
    [DIDA365_CONFIG], the file of the working directory, the file of the home
    directory; the first two only when they are not empty. *)
Definition candidates (explicitPath env : option string) (cwdPath homePath : string)
    : list string :=
  match explicitPath with Some p => if String.eqb p "" then [] else [p] | None => [] end
  ++ match env with Some p => if String.eqb p "" then [] else [p] | None => [] end
  ++ [cwdPath; homePath].

Section WithRuntime.
Context (JSON_parse : string -> option Js.value).

(** [readJson(file)]. *)
Definition readJson (d : gmap string fs_node) (file : string) : res Js.value :=
  match readFile d file with
  | inl err => inl err
  | inr raw =>
      match JSON_parse raw with
      | Some data => inr data
      | None => inl Cache.syntax_error
      end
  end.

(** The [for] loop of [loadConfig]. *)
Fixpoint load_from (d : gmap string fs_node) (cs : list string) : Loaded :=
  match cs with
  | [] => {| config := VObj []; path := None; warnings := [] |}
  | p :: rest =>
      if fileExists d p then
        match readJson d p with
        | inr data => {| config := data; path := Some p; warnings := [] |}
        | inl err =>
            {| config := VObj []; path := Some p; warnings := [read_warning p err] |}
        end
      else load_from d rest
  end.

(** [loadConfig(explicitPath)]. *)
Definition loadConfig (explicitPath env : option string) (cwdPath homePath : string)
    (d : gmap string fs_node) : Loaded :=
  load_from d (candidates explicitPath env cwdPath homePath).

End WithRuntime.

End Config.

Module ConfigExamples.
Import Js Config.

(** A parser that knows one text. *)
Definition parse_one (raw : string) : option Js.value :=
  if String.eqb raw "C" then Some (VObj [("timeoutMs", VNum 5000)]) else None.

(** The configuration of the working directory is a directory; the one of
    the home directory is a valid file. *)
Definition directory_in_cwd : gmap string fs_node :=
  {[ "/work/dida365.config.json" := Unreadable "EISDIR";
     "/home/.config/dida365.json" := Readable "C" ]}.

End ConfigExamples.

(** ** Properties of the credential functions *)

Module TokenSpec.
Import Token Examples.

(** C8, counterexample: a credential that already has [expires_at] (the
    number 0) and a nonzero [expires_in] does not keep its [expires_at]:
    [normalizeToken] overwrites it with [now + expires_in * 1000], because
    [!t.expires_at] holds for 0 as it does for [undefined]. *)
Lemma normalizeToken_overwrites_zero :
  expires_at epoch_token = Some 0
  /\ spec_normalized_expires_at 1000 epoch_token = Some 0
  /\ expires_at (normalizeToken 1000 epoch_token) = Some 3601000.
Proof. repeat split. Qed.

(** C8, amended: [normalizeToken] derives [expires_at = now + expires_in*1000]
    exactly when [expires_at] is absent or 0 and [expires_in] is present and
    nonzero; with [expires_in = 0] (or absent) nothing is synthesised; a
    nonzero [expires_at] is kept; no other field changes. *)
Theorem normalizeToken_expires_at (now : Z) (t : OAuthToken) :
  expires_at (normalizeToken now t) =
    match expires_at t, expires_in t with
    | None, Some i | Some 0, Some i =>
        if i =? 0 then expires_at t else Some (now + i * 1000)
    | at_, _ => at_
    end
  /\ access_token (normalizeToken now t) = access_token t
  /\ refresh_token (normalizeToken now t) = refresh_token t
  /\ token_type (normalizeToken now t) = token_type t
  /\ scope (normalizeToken now t) = scope t
  /\ expires_in (normalizeToken now t) = expires_in t.
Proof.
  unfold normalizeToken.
  destruct t as [a r ty sc [i|] [[|p|p]|]]; cbn;
    try destruct (i =? 0) eqn:Hi; cbn; repeat split; reflexivity.
Qed.

(** C9, counterexample: a credential whose [expires_at] is 0 has an
    [expires_at], and [now >= expires_at - skew*1000] holds at [now = 1000],
    yet [isTokenExpired] answers [false]. *)
Lemma isTokenExpired_zero_never_expires :
  expires_at epoch_token = Some 0
  /\ spec_isExpired 1000 epoch_token 0 = true
  /\ isTokenExpired 1000 epoch_token (Some 0) = false.
Proof. repeat split. Qed.

(** C9, amended: [isTokenExpired] is [false] when [expires_at] is absent or 0;
    otherwise it is [true] exactly when [now >= expires_at - skew*1000], the
    skew defaulting to 60 seconds.  A credential with 30 seconds remaining
    (at a clock reading [now >= 0]) is expired at skew 60 and valid at
    skew 0. *)
Theorem isTokenExpired_rule (now : Z) (t : OAuthToken) (skewSec : option Z) :
  isTokenExpired now t skewSec =
    match expires_at t with
    | None | Some 0 => false
    | Some at_ => now >=? at_ - default 60 skewSec * 1000
    end
  /\ (0 <= now -> expires_at t = Some (now + 30000) ->
      isTokenExpired now t (Some 60) = true /\ isTokenExpired now t (Some 0) = false).
Proof.
  split.
  - unfold isTokenExpired. destruct (expires_at t) as [[|p|p]|]; reflexivity.
  - intros Hnow Hat. unfold isTokenExpired. rewrite Hat. cbn.
    destruct (now + 30000 =? 0) eqn:E; [lia|]. cbn. split; lia.
Qed.

(** The 30-second case of [isTokenExpired_rule] at a concrete credential. *)
Lemma isTokenExpired_rule_witness :
  0 <= 1000000
  /\ expires_at short_lived_token = Some (1000000 + 30000)
  /\ isTokenExpired 1000000 short_lived_token (Some 60) = true
  /\ isTokenExpired 1000000 short_lived_token (Some 0) = false.
Proof.
  split; [lia|]. split; [reflexivity|].
  apply (proj2 (isTokenExpired_rule 1000000 short_lived_token None)); [lia | reflexivity].
Defined.

End TokenSpec.

(** ** Properties of the retry loop *)

Module HttpSpec.
Import Http.

Lemma delays_from_shift (a : Z) (k : nat) :
  delays_from a k = map (fun i => backoff_delay (a + Z.of_nat i)) (seq 0 k).
Proof.
  revert a. induction k as [|k IH]; intros a; [reflexivity|].
  cbn [delays_from seq map]. rewrite Z.add_0_r. f_equal.
  rewrite IH, <- seq_shift, map_map. apply map_ext. intros i. f_equal. lia.
Qed.

Lemma delays_from_zero (k : nat) : delays_from 0 k = delays k.
Proof. rewrite delays_from_shift. reflexivity. Qed.

Lemma delays_lookup (k i : nat) :
  (i < k)%nat -> delays k !! i = Some (Z.min (200 * 2 ^ Z.of_nat i) 5000).
Proof.
  intros Hi. unfold delays. rewrite list_lookup_fmap, lookup_seq_lt by lia.
  reflexivity.
Qed.

End HttpSpec.

(** ** Properties of the cache *)

Module CacheSpec.
Import Js Cache CacheExamples CacheTactics.

Section WithRuntime.
Context (rt : Runtime) (opts : Options).

Abbreviation get := (Cache.get rt opts).
Abbreviation set := (Cache.set rt opts).
Abbreviation fileForKey := (Cache.fileForKey rt opts).

Lemma get_memory_hit (now : Z) (k : string) (st : store) (e : CacheEntry) :
  mem st !! k = Some e ->
  get now k st
  = inr ({| entry := Some e; stale := now >? expiresAt e; source := Some Memory |}, st).
Proof. intros H. unfold Cache.get, get_mem. rewrite H. reflexivity. Qed.

Lemma get_memory_miss (now : Z) (k : string) (st : store) :
  mem st !! k = None -> get now k st = get_disk rt opts now k st.
Proof. intros H. unfold Cache.get, get_mem. rewrite H. reflexivity. Qed.

(** [isCacheEntry] accepts exactly the objects that have a string [key], a
    [value] property and numeric [cachedAt] and [expiresAt]. *)
Lemma isCacheEntry_iff (v : Js.value) :
  isCacheEntry v = true <->
  exists fields s x c a,
    v = VObj fields
    /\ assoc "key" fields = Some (VStr s)
    /\ assoc "value" fields = Some x
    /\ assoc "cachedAt" fields = Some (VNum c)
    /\ assoc "expiresAt" fields = Some (VNum a).
Proof.
  split.
  - destruct v as [| |b|n|s|items|fields|n m c]; try discriminate.
    unfold isCacheEntry. cbn.
    destruct (assoc "key" fields) as [[]|] eqn:Hk; try discriminate.
    destruct (assoc "value" fields) as [x|] eqn:Hv; [|discriminate].
    destruct (assoc "cachedAt" fields) as [[]|] eqn:Hc;
      try (rewrite andb_false_r; discriminate).
    destruct (assoc "expiresAt" fields) as [[]|] eqn:He;
      try (rewrite andb_false_r; discriminate).
    intros _. eauto 10.
  - intros (fields & s & x & c & a & -> & Hk & Hv & Hc & He).
    unfold isCacheEntry. cbn. rewrite Hk, Hv, Hc, He. reflexivity.
Qed.

(** C6: with no entry for the key in memory, a cache file that does not
    parse, that parses to something [isCacheEntry] rejects, or whose stored
    [key] differs from the requested key makes [get] report a miss: no
    entry, [source] null, [stale = false], no error, the store unchanged. *)
Theorem get_corrupt_disk_is_miss (now : Z) (k : string) (st : store) (raw : string) :
  mem st !! k = None ->
  disk st !! fileForKey k = Some (File raw) ->
  JSON_parse rt raw = None
  \/ (exists parsed, JSON_parse rt raw = Some parsed
        /\ (isCacheEntry parsed = false \/ key (as_entry parsed) <> k)) ->
  get now k st = inr ({| entry := None; stale := false; source := None |}, st).
Proof.
  intros Hmem Hdisk Hbad. rewrite get_memory_miss by exact Hmem.
  unfold get_disk, readDisk, readDisk_try, readFile. rewrite Hdisk.
  destruct Hbad as [-> | (parsed & -> & [Hno | Hkey])].
  - reflexivity.
  - rewrite Hno. reflexivity.
  - destruct (isCacheEntry parsed); [|reflexivity]. cbn [negb].
    destruct (String.eqb_spec (key (as_entry parsed)) k); [contradiction | reflexivity].
Qed.

(** C10: [get] never raises.  It always completes with a result; a missing
    entry comes with [source] null and [stale = false] and leaves the store
    as it was; an unreadable cache file (error code [code], whatever it is)
    is such a miss; an entry is produced only by a memory hit or by a cache
    file that parses, passes [isCacheEntry] and stores the requested key. *)
Theorem get_never_raises (now : Z) (k : string) (st : store) :
  exists g st',
    get now k st = inr (g, st')
    /\ (entry g = None -> g = miss /\ st' = st)
    /\ (forall code, mem st !! k = None ->
          disk st !! fileForKey k = Some (Faulty code) -> g = miss)
    /\ (forall e, entry g = Some e ->
          (mem st !! k = Some e /\ source g = Some Memory /\ st' = st)
          \/ (mem st !! k = None /\ source g = Some Disk
               /\ exists raw parsed,
                    disk st !! fileForKey k = Some (File raw)
                    /\ JSON_parse rt raw = Some parsed
                    /\ isCacheEntry parsed = true
                    /\ key (as_entry parsed) = k
                    /\ e = as_entry parsed)).
Proof.
  destruct (mem st !! k) as [e|] eqn:Hmem.
  - rewrite (get_memory_hit now k st e Hmem). eexists _, _. split; [reflexivity|].
    cbn. repeat split; try discriminate.
    intros e' [= <-]. left. auto.
  - rewrite get_memory_miss by exact Hmem.
    unfold get_disk, readDisk, readDisk_try, readFile.
    destruct (disk st !! fileForKey k) as [[raw|code]|] eqn:Hdisk.
    + destruct (JSON_parse rt raw) as [parsed|] eqn:Hparse.
      * destruct (isCacheEntry parsed) eqn:Hentry; cbn [negb].
        -- destruct (String.eqb_spec (key (as_entry parsed)) k) as [Hk|Hk]; cbn [negb].
           ++ eexists _, _. split; [reflexivity|]. cbn. repeat split; try discriminate.
              intros e [= <-]. right. repeat split. eauto 10.
           ++ eexists _, _. split; [reflexivity|]. cbn. repeat split; discriminate.
        -- eexists _, _. split; [reflexivity|]. cbn. repeat split; discriminate.
      * eexists _, _. split; [reflexivity|]. cbn. repeat split; discriminate.
    + destruct (is_ENOENT (fs_error code));
        (eexists _, _; split; [reflexivity|]; cbn; repeat split; discriminate).
    + eexists _, _. split; [reflexivity|]. cbn. repeat split; discriminate.
Qed.

(** Whatever [get] returns, an entry comes with [stale = (now > expiresAt)]. *)
Lemma get_stale_rule (now : Z) (k : string) (st st' : store) (g : get_result) :
  get now k st = inr (g, st') ->
  match entry g with
  | Some e => stale g = (now >? expiresAt e)
  | None => stale g = false
  end.
Proof.
  unfold Cache.get, get_mem, get_disk.
  destruct (mem st !! k) as [e|].
  - intros [= <- _]. reflexivity.
  - destruct (readDisk rt opts k (disk st)) as [err|[e|]]; intros [= <- _]; reflexivity.
Qed.

(** What a successful [set] leaves behind. *)
Lemma set_success (now : Z) (k : string) (v : Js.value) (ttl : option Z) (st st1 : store) :
  set now k v ttl st = (inr tt, st1) ->
  let e := new_entry opts now k v ttl in
  mem st1 = <[k := e]> (mem st)
  /\ disk st1 = <[fileForKey k := File (JSON_stringify rt (entry_object e))]> (disk st).
Proof.
  unfold Cache.set, set_entry, set_disk, mkdir, writeFile. cbn.
  destruct (disk st !! dir opts) as [[raw|c]|]; try (intros [= ]; fail).
  destruct (disk st !! fileForKey k) as [[raw|c]|]; try (intros [= ]; fail);
    intros [= <-]; split; reflexivity.
Qed.

(** A [set] that fails has failed at the disk and changed nothing. *)
Lemma set_failure (now : Z) (k : string) (v : Js.value) (ttl : option Z) (st st1 : store)
    (err : Js.value) :
  set now k v ttl st = (inl err, st1) -> st1 = st.
Proof.
  unfold Cache.set, set_entry.
  destruct (set_disk rt opts _ (disk st)); intros [= ]; congruence.
Qed.

Lemma as_entry_entry_object (e : CacheEntry) :
  isCacheEntry (entry_object e) = true /\ as_entry (entry_object e) = e.
Proof. destruct e. split; reflexivity. Qed.

(** A key with no memory entry whose file holds a serialised entry of that
    key is read from disk and promoted to memory. *)
Lemma get_from_disk_file (now : Z) (k : string) (e : CacheEntry) (st : store) :
  mem st !! k = None ->
  disk st !! fileForKey k = Some (File (JSON_stringify rt (entry_object e))) ->
  JSON_parse rt (JSON_stringify rt (entry_object e)) = Some (entry_object e) ->
  key e = k ->
  get now k st
  = inr ({| entry := Some e; stale := now >? expiresAt e; source := Some Disk |},
         {| mem := <[k := e]> (mem st); disk := disk st |}).
Proof.
  intros Hmem Hfile Hjson Hkey.
  destruct (as_entry_entry_object e) as [Hvalid Hentry].
  unfold Cache.get, get_mem. rewrite Hmem.
  unfold get_disk, readDisk, readDisk_try, readFile.
  rewrite Hfile, Hjson, Hvalid, Hentry. cbn [negb].
  replace (String.eqb (key e) k) with true by (symmetry; apply String.eqb_eq, Hkey).
  cbn [negb]. reflexivity.
Qed.

(** C7: [get] reports [stale] exactly when [now > expiresAt], for an entry
    from memory and for one from disk, so an entry with [expiresAt = now] is
    still fresh; and an entry written by [set] is still returned, with its
    value unchanged and [stale = true], at every clock reading after its
    ttl has elapsed, the store being left as it is by such a [get].  Every
    cached entry is found: an entry in memory is returned from memory, and an
    entry that is only on disk, which is every entry a new process meets, is
    returned from disk, with [stale = (now > expiresAt)], and promoted to
    memory, when [JSON.parse] reads back what [JSON.stringify] wrote; so the
    entry written by [set] is returned, stale and unchanged, after its ttl
    also by a process that starts with an empty memory map. *)
Theorem get_stale_strict_and_survives (now : Z) (k : string) (st : store) :
  (forall g st' e, get now k st = inr (g, st') -> entry g = Some e ->
     stale g = (now >? expiresAt e)
     /\ (stale g = true <-> now > expiresAt e)
     /\ (expiresAt e = now -> stale g = false))
  /\ (forall now0 v ttl st0,
        set now0 k v ttl st0 = (inr tt, st) ->
        now0 + default (ttlMs opts) ttl < now ->
        exists e,
          get now k st = inr ({| entry := Some e; stale := true; source := Some Memory |}, st)
          /\ value e = v /\ cachedAt e = now0
          /\ expiresAt e = now0 + default (ttlMs opts) ttl)
  /\ (forall e, mem st !! k = Some e ->
        get now k st
        = inr ({| entry := Some e; stale := now >? expiresAt e; source := Some Memory |}, st))
  /\ (forall e, mem st !! k = None ->
        disk st !! fileForKey k = Some (File (JSON_stringify rt (entry_object e))) ->
        JSON_parse rt (JSON_stringify rt (entry_object e)) = Some (entry_object e) ->
        key e = k ->
        get now k st
        = inr ({| entry := Some e; stale := now >? expiresAt e; source := Some Disk |},
               {| mem := <[k := e]> (mem st); disk := disk st |}))
  /\ (forall now0 v ttl st0,
        set now0 k v ttl st0 = (inr tt, st) ->
        JSON_parse rt (JSON_stringify rt (entry_object (new_entry opts now0 k v ttl)))
        = Some (entry_object (new_entry opts now0 k v ttl)) ->
        now0 + default (ttlMs opts) ttl < now ->
        exists e,
          get now k (CacheOps.restarted st)
          = inr ({| entry := Some e; stale := true; source := Some Disk |},
                 {| mem := <[k := e]> ∅; disk := disk st |})
          /\ value e = v /\ cachedAt e = now0
          /\ expiresAt e = now0 + default (ttlMs opts) ttl).
Proof.
  split; [|split; [|split; [|split]]].
  - intros g st' e Hget He. pose proof (get_stale_rule now k st st' g Hget) as Hs.
    rewrite He in Hs. rewrite Hs. split; [reflexivity|]. split.
    + rewrite Z.gtb_ltb, Z.ltb_lt. lia.
    + intros ->. rewrite Z.gtb_ltb. apply Z.ltb_irrefl.
  - intros now0 v ttl st0 Hset Hlate.
    destruct (set_success now0 k v ttl st0 st Hset) as [Hmem _].
    exists (new_entry opts now0 k v ttl).
    rewrite (get_memory_hit now k st (new_entry opts now0 k v ttl))
      by (rewrite Hmem; apply lookup_insert_eq).
    cbn. replace (now >? now0 + default (ttlMs opts) ttl) with true
      by (symmetry; rewrite Z.gtb_ltb; apply Z.ltb_lt; lia).
    repeat split.
  - intros e He. apply get_memory_hit, He.
  - intros e Hmem Hfile Hjson Hkey. apply get_from_disk_file; assumption.
  - intros now0 v ttl st0 Hset Hjson Hlate.
    destruct (set_success now0 k v ttl st0 st Hset) as [_ Hdisk].
    exists (new_entry opts now0 k v ttl).
    rewrite (get_from_disk_file now k (new_entry opts now0 k v ttl) (CacheOps.restarted st)).
    + cbn. replace (now >? now0 + default (ttlMs opts) ttl) with true
        by (symmetry; rewrite Z.gtb_ltb; apply Z.ltb_lt; lia).
      repeat split.
    + apply lookup_empty.
    + cbn [CacheOps.restarted disk]. rewrite Hdisk. apply lookup_insert_eq.
    + exact Hjson.
    + reflexivity.
Qed.

(** C5, amended: a [set(k, v, t)] that succeeds has written the serialised
    entry to the key's file and the entry to memory, with
    [expiresAt = cachedAt + t] ([t] defaulting to the cache-wide ttl); a
    [set] that fails has changed neither; a following [get(k)] at clock
    reading [now'] returns that entry from memory with value [v] and
    [stale = (now' > cachedAt + t)]: it is fresh exactly when
    [now' <= cachedAt + t], so for [t >= 0] when no time has passed. *)
Theorem set_then_get (now : Z) (k : string) (v : Js.value) (ttl : option Z) (st : store) :
  let t := default (ttlMs opts) ttl in
  let e := new_entry opts now k v ttl in
  (key e = k /\ value e = v /\ cachedAt e = now /\ expiresAt e = cachedAt e + t)
  /\ (forall err st1, set now k v ttl st = (inl err, st1) -> st1 = st)
  /\ (forall st1, set now k v ttl st = (inr tt, st1) ->
        disk st1 !! fileForKey k = Some (File (JSON_stringify rt (entry_object e)))
        /\ mem st1 !! k = Some e
        /\ (forall now',
              get now' k st1
              = inr ({| entry := Some e; stale := now' >? now + t; source := Some Memory |},
                     st1))
        /\ (0 <= t ->
              get now k st1
              = inr ({| entry := Some e; stale := false; source := Some Memory |}, st1))).
Proof.
  intros t e. split; [repeat split|]. split.
  - intros err st1. apply set_failure.
  - intros st1 Hset. destruct (set_success now k v ttl st st1 Hset) as [Hmem Hdisk].
    assert (Hk : mem st1 !! k = Some e) by (rewrite Hmem; apply lookup_insert_eq).
    split; [rewrite Hdisk; apply lookup_insert_eq|]. split; [exact Hk|]. split.
    + intros now'. rewrite (get_memory_hit now' k st1 e Hk). reflexivity.
    + intros Ht. rewrite (get_memory_hit now k st1 e Hk). cbn.
      replace (now >? now + default (ttlMs opts) ttl) with false; [reflexivity|].
      symmetry. rewrite Z.gtb_ltb. apply Z.ltb_ge. subst t. lia.
Qed.

Abbreviation fetch := (Cache.fetch rt opts).

(** C2: stale-if-error.  A caller of [fetch] at clock reading [now] finds no
    fetch of the key in flight and its fetcher fails with [err].  If [get]
    finds an entry that expired before [now], then with
    [now - expiresAt <= staleIfErrorWindow] the result is the old value
    tagged [stale = true], [source = cache], with [err] attached, and with
    [now - expiresAt > staleIfErrorWindow] the call rejects with [err]
    itself; if [get] finds no entry the call rejects with [err] itself. *)
Theorem fetch_stale_if_error (now now_get now_set : Z) (k : string) (err : Js.value)
    (o : FetchOptions) (registry : gmap string nat) (st st1 : store) (g : get_result) :
  registry !! k = None ->
  now <= now_get ->
  get now_get k st = inr (g, st1) ->
  (forall e, entry g = Some e -> expiresAt e < now ->
     (now - expiresAt e <= fetch_window opts o ->
        fetch now now_get now_set k (inl err) o registry st
        = (Returned (inr (stale_result e err)) true, st1)
        /\ get_field "value" (stale_result e err) = value e
        /\ get_field "stale" (stale_result e err) = VBool true
        /\ get_field "error" (stale_result e err) = err)
     /\ (fetch_window opts o < now - expiresAt e ->
          fetch now now_get now_set k (inl err) o registry st
          = (Returned (inl err) true, st1)))
  /\ (entry g = None ->
      fetch now now_get now_set k (inl err) o registry st = (Returned (inl err) true, st1)).
Proof.
  intros Hreg Hnow Hget. pose proof (get_stale_rule now_get k st st1 g Hget) as Hs.
  unfold Cache.fetch. rewrite Hget, Hreg. split.
  - intros e He Hexp. rewrite He in *.
    assert (Hst : stale g = true).
    { rewrite Hs, Z.gtb_ltb. apply Z.ltb_lt. lia. }
    rewrite Hst. unfold origin_catch. split.
    + intros Hd. replace (now - expiresAt e <=? fetch_window opts o) with true
        by (symmetry; apply Z.leb_le; exact Hd).
      repeat split.
    + intros Hd. replace (now - expiresAt e <=? fetch_window opts o) with false
        by (symmetry; apply Z.leb_gt; exact Hd).
      reflexivity.
  - intros He. rewrite He. reflexivity.
Qed.

(** A value that is not an object carrying [source = "cache"] is returned
    wrapped as an origin result when [set] succeeds:
    [{ value, source: "origin", stale: false }], the value persisted. *)
Lemma fetch_success_shape (now now_get now_set : Z) (k : string) (v : Js.value)
    (o : FetchOptions) (registry : gmap string nat) (st st1 st2 : store) (g : get_result) :
  registry !! k = None ->
  get now_get k st = inr (g, st1) ->
  entry g = None \/ stale g = true ->
  set now_set k v (Some (fetch_ttl opts o)) st1 = (inr tt, st2) ->
  is_cache_tagged v = false ->
  fetch now now_get now_set k (inr v) o registry st
  = (Returned (inr (origin_result v)) true, st2)
  /\ mem st2 !! k = Some (new_entry opts now_set k v (Some (fetch_ttl opts o))).
Proof.
  intros Hreg Hget Hrun Hset Htag. unfold Cache.fetch. rewrite Hget, Hreg.
  assert (Hsettled : origin_store rt opts now (fetch_window opts o) (entry g)
            (new_entry opts now_set k v (Some (fetch_ttl opts o))) v st1 = (inr v, st2)).
  { unfold origin_store. unfold Cache.set in Hset. rewrite Hset. reflexivity. }
  destruct (set_success now_set k v _ st1 st2 Hset) as [Hmem _].
  split; [|rewrite Hmem; apply lookup_insert_eq].
  destruct Hrun as [Hnone | Hstale].
  - rewrite Hnone in *. rewrite Hsettled. unfold leader_return. rewrite Htag. reflexivity.
  - rewrite Hstale. destruct (entry g);
      rewrite Hsettled; unfold leader_return; rewrite Htag; reflexivity.
Qed.

(** *** Interleaved callers *)

(** The stale result is recognised by the caller that started the fetch. *)
Lemma stale_result_tagged (e : CacheEntry) (err : Js.value) :
  is_cache_tagged (stale_result e err) = true.
Proof. reflexivity. Qed.

(** The caller that started the origin fetch and a caller that waited for it
    return the same thing exactly when the promise rejected or resolved with
    a value that is not an object carrying [source = "cache"]. *)
Lemma leader_waiter_agree (r : res Js.value) :
  leader_return r = waiter_return r
  <-> match r with inl _ => True | inr v => is_cache_tagged v = false end.
Proof.
  destruct r as [err|v]; cbn; [tauto|].
  destruct (is_cache_tagged v) eqn:Htag; split; try reflexivity; try discriminate.
  intros [= H]. exfalso.
  apply (f_equal (get_field "source")) in H. cbn in H.
  unfold is_cache_tagged in Htag. rewrite H in Htag. cbn in Htag.
  rewrite andb_false_r in Htag. discriminate.
Qed.

(** When the promise resolved with the stale result, they differ. *)
Lemma leader_waiter_differ_on_stale (e : CacheEntry) (err : Js.value) :
  leader_return (inr (stale_result e err)) = inr (stale_result e err)
  /\ waiter_return (inr (stale_result e err)) = inr (origin_result (stale_result e err))
  /\ leader_return (inr (stale_result e err)) <> waiter_return (inr (stale_result e err)).
Proof.
  split; [reflexivity|]. split; [reflexivity|].
  intros H. apply leader_waiter_agree in H. discriminate.
Qed.

Abbreviation step := (Cache.step rt opts).
Abbreviation run := (Cache.run rt opts).

Lemma after_get_none (k : string) (g : get_result) (s : sys) :
  after_get k g s = None -> inFlight s !! k = None.
Proof.
  unfold after_get. destruct (entry g), (stale g), (inFlight s !! k);
    try discriminate; reflexivity.
Qed.

Lemma after_get_idle (k : string) (g : get_result) (s : sys) (t : task) (c : pc) :
  after_get k g s = Some c -> fetching (at_pc t c) = None.
Proof.
  unfold after_get. destruct (entry g), (stale g), (inFlight s !! k);
    intros [= <-]; reflexivity.
Qed.

(** A task that runs no origin fetch can be put anywhere. *)
Lemma invariant_set_task_idle (s : sys) (tid : nat) (t : task) (c : pc) :
  registry_invariant s ->
  fetching (at_pc t c) = None ->
  registry_invariant (set_task tid t c s).
Proof.
  intros (Hreg & Hown & Hset) Hidle. split; [|split].
  - intros tid' t' p Ht' Hf. cbn in Ht'.
    destruct (decide (tid = tid')) as [->|Hne].
    + rewrite lookup_insert_eq in Ht'. injection Ht' as <-. congruence.
    + rewrite lookup_insert_ne in Ht' by exact Hne. exact (Hreg tid' t' p Ht' Hf).
  - intros tid1 tid2 t1 t2 p H1 H2 Hf1 Hf2. cbn in H1, H2.
    destruct (decide (tid = tid1)) as [->|Hne1].
    { rewrite lookup_insert_eq in H1. injection H1 as <-. congruence. }
    destruct (decide (tid = tid2)) as [->|Hne2].
    { rewrite lookup_insert_eq in H2. injection H2 as <-. congruence. }
    rewrite lookup_insert_ne in H1 by exact Hne1.
    rewrite lookup_insert_ne in H2 by exact Hne2.
    exact (Hown tid1 tid2 t1 t2 p H1 H2 Hf1 Hf2).
  - exact Hset.
Qed.

(** A task may run the origin fetch of promise [p] when [p] is registered
    under its key, pending, and run by no other task. *)
Lemma invariant_set_task_fetching (s : sys) (tid : nat) (t : task) (c : pc) (p : nat) :
  registry_invariant s ->
  fetching (at_pc t c) = Some p ->
  inFlight s !! t_key t = Some p ->
  settled s !! p = None ->
  (p < next_promise s)%nat ->
  (forall tid' t', tid' <> tid -> tasks s !! tid' = Some t' -> fetching t' <> Some p) ->
  registry_invariant (set_task tid t c s).
Proof.
  intros (Hreg & Hown & Hset) Hf Hin Hpend Hlt Hother. split; [|split].
  - intros tid' t' p' Ht' Hf'. cbn in Ht'.
    destruct (decide (tid = tid')) as [->|Hne].
    + rewrite lookup_insert_eq in Ht'. injection Ht' as <-.
      rewrite Hf in Hf'. injection Hf' as <-. cbn. auto.
    + rewrite lookup_insert_ne in Ht' by exact Hne. exact (Hreg tid' t' p' Ht' Hf').
  - intros tid1 tid2 t1 t2 p' H1 H2 Hf1 Hf2. cbn in H1, H2.
    destruct (decide (tid = tid1)) as [->|Hne1];
      destruct (decide (tid1 = tid2)) as [->|Hne2]; try reflexivity.
    + rewrite lookup_insert_eq in H1. injection H1 as <-.
      rewrite lookup_insert_ne in H2 by exact Hne2.
      rewrite Hf in Hf1. injection Hf1 as <-.
      exfalso. exact (Hother tid2 t2 (not_eq_sym Hne2) H2 Hf2).
    + rewrite lookup_insert_ne in H1 by exact Hne1.
      destruct (decide (tid = tid2)) as [->|Hne3].
      * rewrite lookup_insert_eq in H2. injection H2 as <-.
        rewrite Hf in Hf2. injection Hf2 as <-.
        exfalso. exact (Hother tid1 t1 (not_eq_sym Hne1) H1 Hf1).
      * rewrite lookup_insert_ne in H2 by exact Hne3.
        exfalso. apply Hne2. exact (Hown tid1 tid2 t1 t2 p' H1 H2 Hf1 Hf2).
  - exact Hset.
Qed.

(** Starting an origin fetch for a key that is not registered. *)
Lemma invariant_start_origin (s : sys) (k : string) :
  registry_invariant s ->
  inFlight s !! k = None ->
  registry_invariant (start_origin k s).2.
Proof.
  intros (Hreg & Hown & Hset) Hfree. split; [|split].
  - intros tid t p Ht Hf. cbn in *.
    destruct (Hreg tid t p Ht Hf) as (Hin & Hpend & Hlt).
    split; [|split; [exact Hpend | lia]].
    rewrite lookup_insert_ne; [exact Hin|]. intros ->. congruence.
  - exact Hown.
  - intros p Hp. cbn in *. specialize (Hset p Hp). lia.
Qed.

(** The same for a fetcher that throws synchronously. *)
Lemma invariant_start_origin_throwing (s : sys) (k : string) (r : res Js.value) :
  registry_invariant s ->
  inFlight s !! k = None ->
  registry_invariant (start_origin_throwing k r s).2.
Proof.
  intros (Hreg & Hown & Hset) Hfree. split; [|split].
  - intros tid t p Ht Hf. cbn in *.
    destruct (Hreg tid t p Ht Hf) as (Hin & Hpend & Hlt).
    assert (Hk : k <> t_key t) by (intros ->; congruence).
    split; [|split].
    + rewrite lookup_insert_ne, lookup_delete_ne by exact Hk. exact Hin.
    + rewrite lookup_insert_ne by lia. exact Hpend.
    + lia.
  - exact Hown.
  - intros p Hp. cbn in *. destruct (decide (next_promise s = p)) as [<-|Hne]; [lia|].
    rewrite lookup_insert_ne in Hp by exact Hne. specialize (Hset p Hp). lia.
Qed.

(** The origin fetch of a task settles: [finally] and the task's move to
    [await promise]. *)
Lemma invariant_finish_origin (s : sys) (tid : nat) (t : task) (p : nat) (r : res Js.value) :
  registry_invariant s ->
  tasks s !! tid = Some t ->
  fetching t = Some p ->
  registry_invariant (set_task tid t (AtPromise p) (finish_origin (t_key t) p r s)).
Proof.
  intros (Hreg & Hown & Hset) Ht Hf.
  destruct (Hreg tid t p Ht Hf) as (Hin & Hpend & Hlt).
  split; [|split].
  - intros tid' t' p' Ht' Hf'. cbn in Ht'.
    destruct (decide (tid = tid')) as [->|Hne].
    { rewrite lookup_insert_eq in Ht'. injection Ht' as <-. discriminate Hf'. }
    rewrite lookup_insert_ne in Ht' by exact Hne.
    destruct (Hreg tid' t' p' Ht' Hf') as (Hin' & Hpend' & Hlt').
    assert (Hp : p <> p').
    { intros ->. apply Hne. exact (Hown tid tid' t t' p' Ht Ht' Hf Hf'). }
    assert (Hk : t_key t <> t_key t').
    { intros Heq. rewrite Heq in Hin. congruence. }
    cbn. split; [|split].
    + rewrite lookup_delete_ne by exact Hk. exact Hin'.
    + rewrite lookup_insert_ne by exact Hp. exact Hpend'.
    + exact Hlt'.
  - intros tid1 tid2 t1 t2 p' H1 H2 Hf1 Hf2. cbn in H1, H2.
    destruct (decide (tid = tid1)) as [->|Hne1].
    { rewrite lookup_insert_eq in H1. injection H1 as <-. discriminate Hf1. }
    destruct (decide (tid = tid2)) as [->|Hne2].
    { rewrite lookup_insert_eq in H2. injection H2 as <-. discriminate Hf2. }
    rewrite lookup_insert_ne in H1 by exact Hne1.
    rewrite lookup_insert_ne in H2 by exact Hne2.
    exact (Hown tid1 tid2 t1 t2 p' H1 H2 Hf1 Hf2).
  - intros p' Hp'. cbn in *. destruct (decide (p = p')) as [<-|Hne]; [exact Hlt|].
    rewrite lookup_insert_ne in Hp' by exact Hne. exact (Hset p' Hp').
Qed.

Lemma invariant_set_store (s : sys) (st : store) :
  registry_invariant s -> registry_invariant (set_store st s).
Proof. intros H. exact H. Qed.

(** Every step of the event loop keeps the registry invariant. *)
Lemma step_preserves_invariant (ev : event) (s s' : sys) :
  registry_invariant s -> step ev s = Some s' -> registry_invariant s'.
Proof.
  intros Hinv. pose proof Hinv as (Hreg & Hown & Hset).
  destruct ev as [tid k o now now_get | tid | tid fetched now_set | tid err]; cbn [Cache.step].
  - destruct (tasks s !! tid) as [t|] eqn:Ht; [discriminate|].
    destruct (get_mem now_get k (s_store s)); intros [= <-];
      apply invariant_set_task_idle; auto.
  - destruct (tasks s !! tid) as [t|] eqn:Ht; [|discriminate].
    destruct (t_pc t) as [now now_get | now g | p | now found p | now found p e v | p | r]
      eqn:Hpc; try discriminate.
    + destruct (get_disk rt opts now_get (t_key t) (s_store s)) as [err|[g st']];
        intros [= <-]; apply invariant_set_task_idle; auto.
    + destruct (after_get (t_key t) g s) as [c|] eqn:Hafter.
      * intros [= <-]. apply invariant_set_task_idle; [exact Hinv|].
        exact (after_get_idle _ _ _ t c Hafter).
      * apply after_get_none in Hafter. cbn. intros [= <-].
        apply (invariant_set_task_fetching _ tid t _ (next_promise s)).
        -- exact (invariant_start_origin s (t_key t) Hinv Hafter).
        -- reflexivity.
        -- cbn. apply lookup_insert_eq.
        -- cbn. apply eq_None_not_Some. intros Hs. specialize (Hset _ Hs). lia.
        -- cbn. lia.
        -- cbn. intros tid' t' _ Ht' Hf'.
           destruct (Hreg tid' t' _ Ht' Hf') as (_ & _ & Hlt). lia.
    + destruct (settled s !! p); [|discriminate]. intros [= <-].
      apply invariant_set_task_idle; auto.
    + destruct (origin_store rt opts now (fetch_window opts (t_options t)) found e v (s_store s))
        as [r st']. intros [= <-].
      apply (invariant_finish_origin (set_store st' s) tid t p r); [exact Hinv | exact Ht|].
      unfold fetching. rewrite Hpc. reflexivity.
    + destruct (settled s !! p); [|discriminate]. intros [= <-].
      apply invariant_set_task_idle; auto.
  - destruct (tasks s !! tid) as [t|] eqn:Ht; [|discriminate].
    destruct (t_pc t) as [now now_get | now g | p | now found p | now found p e v | p | r]
      eqn:Hpc; try discriminate.
    assert (Hf : fetching t = Some p) by (unfold fetching; rewrite Hpc; reflexivity).
    destruct (Hreg tid t p Ht Hf) as (Hin & Hpend & Hlt).
    destruct fetched as [err|v]; intros [= <-].
    + apply (invariant_finish_origin s tid t p _ Hinv Ht Hf).
    + apply (invariant_set_task_fetching s tid t _ p); auto.
      intros tid' t' Hne Ht' Hf'. apply Hne. exact (Hown tid' tid t' t p Ht' Ht Hf' Hf).
  - destruct (tasks s !! tid) as [t|] eqn:Ht; [|discriminate].
    destruct (t_pc t) as [now now_get | now g | p | now found p | now found p e v | p | r]
      eqn:Hpc; try discriminate.
    destruct (after_get (t_key t) g s) as [c|] eqn:Hafter.
    + intros [= <-]. apply invariant_set_task_idle; [exact Hinv|].
      exact (after_get_idle _ _ _ t c Hafter).
    + apply after_get_none in Hafter. cbn. intros [= <-].
      apply invariant_set_task_idle; [|reflexivity].
      exact (invariant_start_origin_throwing s (t_key t) _ Hinv Hafter).
Qed.

Lemma idle_invariant (st : store) : registry_invariant (idle st).
Proof.
  split; [|split].
  - intros tid t p Ht. cbn in Ht. rewrite lookup_empty in Ht. discriminate.
  - intros tid1 tid2 t1 t2 p Ht. cbn in Ht. rewrite lookup_empty in Ht. discriminate.
  - intros p [r Hp]. cbn in Hp. rewrite lookup_empty in Hp. discriminate.
Qed.

Lemma run_preserves_invariant (evs : list event) :
  forall s s', registry_invariant s -> run evs s = Some s' -> registry_invariant s'.
Proof.
  induction evs as [|ev evs IH]; intros s s' Hinv; cbn [Cache.run].
  - intros [= <-]. exact Hinv.
  - destruct (step ev s) as [s1|] eqn:Hstep; [|discriminate].
    apply IH. exact (step_preserves_invariant ev s s1 Hinv Hstep).
Qed.

(** At most one origin fetch per key is in flight, in every state the event
    loop can reach from a process that has made no call yet. *)
Lemma reachable_single_flight (evs : list event) (st : store) (s : sys) :
  run evs (idle st) = Some s -> single_flight s.
Proof.
  intros Hrun.
  destruct (run_preserves_invariant evs (idle st) s (idle_invariant st) Hrun)
    as (Hreg & Hown & _).
  intros tid1 tid2 t1 t2 H1 H2 [p1 Hf1] [p2 Hf2] Hkey.
  destruct (Hreg tid1 t1 p1 H1 Hf1) as (Hin1 & _).
  destruct (Hreg tid2 t2 p2 H2 Hf2) as (Hin2 & _).
  rewrite Hkey, Hin2 in Hin1. injection Hin1 as ->.
  exact (Hown tid1 tid2 t1 t2 p1 H1 H2 Hf1 Hf2).
Qed.

(** While a fetch of [k] is registered no step calls the fetcher for [k]. *)
Lemma registered_key_not_fetched_again (ev : event) (s s' : sys) (k : string) (p : nat) :
  step ev s = Some s' ->
  inFlight s !! k = Some p ->
  calls_for k s' = calls_for k s.
Proof.
  intros Hstep Hin. revert Hstep.
  destruct ev as [tid k' o now now_get | tid | tid fetched now_set | tid err]; cbn [Cache.step].
  - destruct (tasks s !! tid); [discriminate|].
    destruct (get_mem now_get k' (s_store s)); intros [= <-]; reflexivity.
  - destruct (tasks s !! tid) as [t|]; [|discriminate].
    destruct (t_pc t) as [now now_get | now g | p' | now found p' | now found p' e v | p' | r];
      try discriminate.
    + destruct (get_disk rt opts now_get (t_key t) (s_store s)) as [err|[g st']];
        intros [= <-]; reflexivity.
    + destruct (after_get (t_key t) g s) as [c|] eqn:Hafter; intros [= <-]; [reflexivity|].
      apply after_get_none in Hafter. unfold calls_for. cbn.
      destruct (decide (t_key t = k)) as [Heq|]; [|reflexivity].
      rewrite Heq in Hafter. congruence.
    + destruct (settled s !! p'); intros [= <-]; reflexivity.
    + destruct (origin_store rt opts now (fetch_window opts (t_options t)) found e v (s_store s)).
      intros [= <-]. reflexivity.
    + destruct (settled s !! p'); intros [= <-]; reflexivity.
  - destruct (tasks s !! tid) as [t|]; [|discriminate].
    destruct (t_pc t); try discriminate.
    destruct fetched; intros [= <-]; reflexivity.
  - destruct (tasks s !! tid) as [t|]; [|discriminate].
    destruct (t_pc t) as [now now_get | now g | p' | now found p' | now found p' e v | p' | r];
      try discriminate.
    destruct (after_get (t_key t) g s) as [c|] eqn:Hafter; intros [= <-]; [reflexivity|].
    apply after_get_none in Hafter. unfold calls_for. cbn.
    destruct (decide (t_key t = k)) as [Heq|]; [|reflexivity].
    rewrite Heq in Hafter. congruence.
Qed.

(** When the origin fetch of a task settles, by a rejection of the fetcher
    or at the end of [set], the registry entry of its key is removed and its
    promise is settled. *)
Lemma settle_removes_registration (ev : event) (s s' : sys) (tid : nat) (t : task) (p : nat) :
  tasks s !! tid = Some t ->
  fetching t = Some p ->
  step ev s = Some s' ->
  (exists err now_set, ev = Settle tid (inl err) now_set)
  \/ (ev = Resume tid /\ exists now found e v, t_pc t = AtSet now found p e v) ->
  inFlight s' !! t_key t = None /\ is_Some (settled s' !! p).
Proof.
  intros Ht Hf Hstep [(err & now_set & ->) | (-> & now & found & e & v & Hpc)];
    revert Hstep; cbn [Cache.step]; rewrite Ht.
  - unfold fetching in Hf.
    destruct (t_pc t) as [| | | now found p' | | |] eqn:Hpc; try discriminate.
    injection Hf as ->. intros [= <-]. cbn.
    split; [apply lookup_delete_eq | rewrite lookup_insert_eq; eauto].
  - rewrite Hpc.
    destruct (origin_store rt opts now (fetch_window opts (t_options t)) found e v (s_store s)).
    intros [= <-]. cbn.
    split; [apply lookup_delete_eq | rewrite lookup_insert_eq; eauto].
Qed.

(** The two descriptions of [fetch] agree: a call run alone by the event loop
    ends with the result and the store that [fetch] computes, the fetcher
    having been called exactly when [fetch] says so, and with an empty
    registry. *)
Lemma fetch_alone_agrees (now now_get now_set : Z) (k : string) (fetched : res Js.value)
    (o : FetchOptions) (st : store) :
  exists r called st' s,
    fetch now now_get now_set k fetched o ∅ st = (Returned r called, st')
    /\ fetch_alone rt opts now now_get now_set k fetched o st = Some s
    /\ returned 0 s = Some r
    /\ s_store s = st'
    /\ calls_for k s = (if called then 1 else 0)%nat
    /\ inFlight s = ∅.
Proof.
  unfold Cache.fetch, fetch_alone, Cache.get. cbn [Cache.step idle tasks s_store].
  rewrite !lookup_empty. unfold get_mem.
  destruct (mem st !! k) as [e|] eqn:Hmem.
  - sim. destruct (now_get >? expiresAt e) eqn:Hstale.
    + destruct fetched as [err|v].
      * do 4 drive1. finish_alone.
      * do 3 drive1.
        destruct (origin_store rt opts now (fetch_window opts o) (Some e)
                    (new_entry opts now_set k v (Some (fetch_ttl opts o))) v st) as [r st'].
        do 2 drive1. finish_alone.
    + do 2 drive1. finish_alone.
  - sim. drive1. destruct (get_disk rt opts now_get k st) as [err|[g st1]].
    + do 1 drive1. finish_alone.
    + destruct g as [[e|] stale_g src].
      * destruct stale_g.
        -- destruct fetched as [err|v].
           ++ do 4 drive1. finish_alone.
           ++ do 3 drive1. 
              destruct (origin_store rt opts now (fetch_window opts o) (Some e)
                    (new_entry opts now_set k v (Some (fetch_ttl opts o))) v st1) as [r st'].
              do 1 drive1. finish_alone.
        -- do 2 drive1. finish_alone.
      * destruct fetched as [err|v].
        ++ do 4 drive1. finish_alone.
        ++ do 3 drive1. 
           destruct (origin_store rt opts now (fetch_window opts o) None
                    (new_entry opts now_set k v (Some (fetch_ttl opts o))) v st1) as [r st'].
           do 1 drive1. finish_alone.
Qed.

(** A settled promise stays settled with the same value. *)
Lemma settled_stable (ev : event) (s s' : sys) (p : nat) (r : res Js.value) :
  registry_invariant s ->
  step ev s = Some s' ->
  settled s !! p = Some r ->
  settled s' !! p = Some r.
Proof.
  intros (Hreg & Hown & Hset) Hstep Hp. revert Hstep.
  assert (Hfin : forall tid t p' r', tasks s !! tid = Some t -> fetching t = Some p' ->
            <[p' := r']> (settled s) !! p = Some r).
  { intros tid t p' r' Ht Hf. destruct (Hreg tid t p' Ht Hf) as (_ & Hpend & _).
    rewrite lookup_insert_ne; [exact Hp|]. intros ->. unfold res in *. congruence. }
  destruct ev as [tid k o now now_get | tid | tid fetched now_set | tid err]; cbn [Cache.step].
  - destruct (tasks s !! tid); [discriminate|].
    destruct (get_mem now_get k (s_store s)); intros [= <-]; exact Hp.
  - destruct (tasks s !! tid) as [t|] eqn:Ht; [|discriminate].
    destruct (t_pc t) as [now now_get | now g | p' | now found p' | now found p' e v | p' | r']
      eqn:Hpc; try discriminate.
    + destruct (get_disk rt opts now_get (t_key t) (s_store s)) as [err|[g st']];
        intros [= <-]; exact Hp.
    + destruct (after_get (t_key t) g s) as [c|]; intros [= <-]; exact Hp.
    + destruct (settled s !! p'); intros [= <-]; exact Hp.
    + destruct (origin_store rt opts now (fetch_window opts (t_options t)) found e v (s_store s))
        as [r' st']. intros [= <-]. cbn.
      apply (Hfin tid t p' r' Ht). unfold fetching. rewrite Hpc. reflexivity.
    + destruct (settled s !! p'); intros [= <-]; exact Hp.
  - destruct (tasks s !! tid) as [t|] eqn:Ht; [|discriminate].
    destruct (t_pc t) as [now now_get | now g | p' | now found p' | now found p' e v | p' | r']
      eqn:Hpc; try discriminate.
    destruct fetched as [err|v]; intros [= <-]; [|exact Hp]. cbn.
    apply (Hfin tid t p' _ Ht). unfold fetching. rewrite Hpc. reflexivity.
  - destruct (tasks s !! tid) as [t|] eqn:Ht; [|discriminate].
    destruct (t_pc t) as [now now_get | now g | p' | now found p' | now found p' e v | p' | r']
      eqn:Hpc; try discriminate.
    destruct (after_get (t_key t) g s) as [c|]; intros [= <-]; [exact Hp|]. cbn.
    rewrite lookup_insert_ne; [exact Hp|]. intros Heq.
    assert (Hlt : (p < next_promise s)%nat) by (apply Hset; eauto). lia.
Qed.

(** A caller that waited for promise [p] returns [waiter_return] of what [p]
    settled with; the caller that started it returns [leader_return] of it. *)
Lemma waiter_returns (s : sys) (w : nat) (t : task) (p : nat) (r : res Js.value) :
  tasks s !! w = Some t ->
  t_pc t = AtExisting p ->
  settled s !! p = Some r ->
  exists s', step (Resume w) s = Some s' /\ returned w s' = Some (waiter_return r).
Proof.
  intros Ht Hpc Hp. cbn [Cache.step]. rewrite Ht, Hpc. cbv beta iota.
  unfold res in *. rewrite Hp.
  eexists. split; [reflexivity|].
  unfold returned. cbn. rewrite lookup_insert_eq. reflexivity.
Qed.

Lemma leader_returns (s : sys) (l : nat) (t : task) (p : nat) (r : res Js.value) :
  tasks s !! l = Some t ->
  t_pc t = AtPromise p ->
  settled s !! p = Some r ->
  exists s', step (Resume l) s = Some s' /\ returned l s' = Some (leader_return r).
Proof.
  intros Ht Hpc Hp. cbn [Cache.step]. rewrite Ht, Hpc. cbv beta iota.
  unfold res in *. rewrite Hp.
  eexists. split; [reflexivity|].
  unfold returned. cbn. rewrite lookup_insert_eq. reflexivity.
Qed.

(** A waiter resumed after the promise resolved with the stale result returns
    it wrapped as an origin result. *)
Lemma waiter_resumes_with_wrapped_stale (s : sys) (w : nat) (t : task) (p : nat)
    (e : CacheEntry) (err : Js.value) :
  tasks s !! w = Some t ->
  t_pc t = AtExisting p ->
  settled s !! p = Some (inr (stale_result e err)) ->
  exists s', step (Resume w) s = Some s'
    /\ returned w s' = Some (inr (origin_result (stale_result e err))).
Proof. apply waiter_returns. Qed.

End WithRuntime.

(** [get_corrupt_disk_is_miss] on a cache file that does not parse. *)
Lemma get_corrupt_disk_is_miss_witness :
  mem corrupt_store !! "badJson" = None
  /\ disk corrupt_store !! fileForKey demo_runtime demo_options "badJson"
     = Some (File "{invalid json")
  /\ JSON_parse demo_runtime "{invalid json" = None
  /\ get demo_runtime demo_options 0 "badJson" corrupt_store = inr (miss, corrupt_store).
Proof.
  assert (H1 : mem corrupt_store !! "badJson" = None) by reflexivity.
  assert (H2 : disk corrupt_store !! fileForKey demo_runtime demo_options "badJson"
               = Some (File "{invalid json")) by reflexivity.
  assert (H3 : JSON_parse demo_runtime "{invalid json" = None) by reflexivity.
  split; [exact H1|]. split; [exact H2|]. split; [exact H3|].
  exact (get_corrupt_disk_is_miss demo_runtime demo_options 0 "badJson" corrupt_store
           "{invalid json" H1 H2 (or_introl H3)).
Defined.

(** [get_never_raises] on a cache file that cannot be read. *)
Lemma get_never_raises_witness :
  exists g st',
    get demo_runtime demo_options 0 "k" unreadable_store = inr (g, st') /\ g = miss.
Proof.
  destruct (get_never_raises demo_runtime demo_options 0 "k" unreadable_store)
    as (g & st' & Hget & _ & Hfaulty & _).
  exists g, st'. split; [exact Hget|]. apply (Hfaulty "EACCES"); reflexivity.
Defined.

(** [get_stale_strict_and_survives] on the entry written at 1000 with the
    ttl of 50 ms and read at 1060: from memory by the process that wrote it,
    and from disk by a new process, under a runtime whose [JSON.parse] reads
    back what its [JSON.stringify] wrote. *)
Lemma get_stale_strict_and_survives_witness :
  set demo_runtime demo_options 1000 "k" (VStr "v1") None empty_store = (inr tt, v1_store)
  /\ 1000 + default (ttlMs demo_options) None < 1060
  /\ (exists e,
       get demo_runtime demo_options 1060 "k" v1_store
       = inr ({| entry := Some e; stale := true; source := Some Memory |}, v1_store)
       /\ value e = VStr "v1" /\ cachedAt e = 1000
       /\ expiresAt e = 1000 + default (ttlMs demo_options) None)
  /\ set CacheOpsExamples.echo_runtime demo_options 1000 "k" (VStr "v1") None empty_store
     = (inr tt, CacheOpsExamples.echo_store)
  /\ (exists e,
       get CacheOpsExamples.echo_runtime demo_options 1060 "k"
         (CacheOps.restarted CacheOpsExamples.echo_store)
       = inr ({| entry := Some e; stale := true; source := Some Disk |},
              {| mem := <["k" := e]> ∅; disk := disk CacheOpsExamples.echo_store |})
       /\ value e = VStr "v1" /\ cachedAt e = 1000
       /\ expiresAt e = 1000 + default (ttlMs demo_options) None).
Proof.
  assert (H1 : set demo_runtime demo_options 1000 "k" (VStr "v1") None empty_store
               = (inr tt, v1_store)) by (vm_compute; reflexivity).
  assert (H2 : 1000 + default (ttlMs demo_options) None < 1060) by (vm_compute; reflexivity).
  assert (H3 : set CacheOpsExamples.echo_runtime demo_options 1000 "k" (VStr "v1") None
                 empty_store = (inr tt, CacheOpsExamples.echo_store))
    by (vm_compute; reflexivity).
  split; [exact H1|]. split; [exact H2|]. split.
  - exact (proj1 (proj2 (get_stale_strict_and_survives demo_runtime demo_options 1060 "k"
                           v1_store)) 1000 (VStr "v1") None empty_store H1 H2).
  - split; [exact H3|].
    exact (proj2 (proj2 (proj2 (proj2
             (get_stale_strict_and_survives CacheOpsExamples.echo_runtime demo_options
                1060 "k" CacheOpsExamples.echo_store))))
             1000 (VStr "v1") None empty_store H3 eq_refl H2).
Defined.

(** C5, counterexample: [set("k", "v1", -1)] succeeds and the [get("k")]
    that follows at the same clock reading returns the entry with
    [stale = true]. *)
Lemma set_negative_ttl_then_get_is_stale :
  exists st1 e,
    set demo_runtime demo_options 1000 "k" (VStr "v1") (Some (-1)) empty_store = (inr tt, st1)
    /\ get demo_runtime demo_options 1000 "k" st1
       = inr ({| entry := Some e; stale := true; source := Some Memory |}, st1)
    /\ value e = VStr "v1".
Proof.
  eexists _, _. split; [vm_compute; reflexivity|]. split; vm_compute; reflexivity.
Qed.

(** [set_then_get] on [set("k", "v1")] followed by [get("k")] at the same
    clock reading. *)
Lemma set_then_get_witness :
  set demo_runtime demo_options 1000 "k" (VStr "v1") None empty_store = (inr tt, v1_store)
  /\ 0 <= default (ttlMs demo_options) None
  /\ get demo_runtime demo_options 1000 "k" v1_store
     = inr ({| entry := Some v1_entry; stale := false; source := Some Memory |}, v1_store).
Proof.
  assert (H1 : set demo_runtime demo_options 1000 "k" (VStr "v1") None empty_store
               = (inr tt, v1_store)) by (vm_compute; reflexivity).
  assert (H2 : 0 <= default (ttlMs demo_options) None) by (vm_compute; discriminate).
  split; [exact H1|]. split; [exact H2|].
  exact (proj2 (proj2 (proj2 (proj2 (proj2
           (set_then_get demo_runtime demo_options 1000 "k" (VStr "v1") None empty_store))
           v1_store H1))) H2).
Defined.

(** [fetch_stale_if_error] on the scenario of the specification: ttl 50 ms,
    stale window 500 ms, the entry written at 1000; a failing fetch at 1060
    returns the old value, a failing fetch at 1660 rejects. *)
Lemma fetch_stale_if_error_witness :
  (∅ : gmap string nat) !! "k" = None
  /\ get demo_runtime demo_options 1060 "k" v1_store
     = inr ({| entry := Some v1_entry; stale := true; source := Some Memory |}, v1_store)
  /\ expiresAt v1_entry < 1060
  /\ 1060 - expiresAt v1_entry <= fetch_window demo_options no_options
  /\ fetch demo_runtime demo_options 1060 1060 1060 "k" (inl network_error) no_options ∅ v1_store
     = (Returned (inr (stale_result v1_entry network_error)) true, v1_store)
  /\ fetch_window demo_options no_options < 1660 - expiresAt v1_entry
  /\ fetch demo_runtime demo_options 1660 1660 1660 "k" (inl network_error) no_options ∅ v1_store
     = (Returned (inl network_error) true, v1_store).
Proof.
  assert (Hreg : (∅ : gmap string nat) !! "k" = None) by reflexivity.
  assert (Hget : forall now, 1050 < now ->
            get demo_runtime demo_options now "k" v1_store
            = inr ({| entry := Some v1_entry; stale := true; source := Some Memory |}, v1_store)).
  { intros now Hnow. rewrite (get_memory_hit demo_runtime demo_options now "k" v1_store v1_entry)
      by reflexivity.
    cbn. replace (now >? 1050) with true; [reflexivity|].
    symmetry. rewrite Z.gtb_ltb. apply Z.ltb_lt. exact Hnow. }
  assert (Hexp1 : expiresAt v1_entry < 1060) by (vm_compute; reflexivity).
  assert (Hexp2 : expiresAt v1_entry < 1660) by (vm_compute; reflexivity).
  assert (Hin : 1060 - expiresAt v1_entry <= fetch_window demo_options no_options)
    by (vm_compute; discriminate).
  assert (Hout : fetch_window demo_options no_options < 1660 - expiresAt v1_entry)
    by (vm_compute; reflexivity).
  split; [exact Hreg|]. split; [apply Hget; lia|]. split; [exact Hexp1|].
  split; [exact Hin|]. split.
  - exact (proj1 (proj1 (proj1 (fetch_stale_if_error demo_runtime demo_options 1060 1060 1060
             "k" network_error no_options ∅ v1_store v1_store _ Hreg (Z.le_refl _)
             (Hget 1060 ltac:(lia))) v1_entry eq_refl Hexp1) Hin)).
  - split; [exact Hout|].
    exact (proj2 (proj1 (fetch_stale_if_error demo_runtime demo_options 1660 1660 1660
             "k" network_error no_options ∅ v1_store v1_store _ Hreg (Z.le_refl _)
             (Hget 1660 ltac:(lia))) v1_entry eq_refl Hexp2) Hout).
Defined.

(** C4, at the failing input: the fetcher resolves with an object that
    carries [source = "cache"].  [fetch] persists it and then returns the
    object itself: the result has no [value] property holding the payload
    and is not tagged [source = origin], [stale = false]. *)
Theorem fetch_returns_tagged_payload_bare :
  exists st',
    fetch demo_runtime demo_options 1000 1000 1001 "k" (inr tagged_payload) no_options ∅
      empty_store
    = (Returned (inr tagged_payload) true, st')
    /\ value <$> mem st' !! "k" = Some tagged_payload
    /\ get_field "value" tagged_payload = VUndefined
    /\ get_field "source" tagged_payload = VStr "cache"
    /\ get_field "stale" tagged_payload = VUndefined
    /\ tagged_payload <> origin_result tagged_payload.
Proof.
  eexists. split; [vm_compute; reflexivity|].
  split; [vm_compute; reflexivity|]. repeat split. discriminate.
Qed.

(** C1, at the failing input: two concurrent callers, a stale entry inside
    the stale-if-error window, a fetcher that fails.  The fetcher is called
    once and the registry entry is removed, but the two callers do not
    return the same result: the caller that started the fetch returns the
    stale result, the caller that waited returns that whole result object
    wrapped as the value of a fresh origin result. *)
Theorem waiter_wraps_stale_result :
  exists s,
    run demo_runtime demo_options two_callers_fetch_fails (idle v1_store) = Some s
    /\ calls_for "k" s = 1%nat
    /\ inFlight s !! "k" = None
    /\ returned 1 s = Some (inr (stale_result v1_entry network_error))
    /\ returned 2 s = Some (inr (origin_result (stale_result v1_entry network_error)))
    /\ returned 1 s <> returned 2 s.
Proof.
  eexists. split; [vm_compute; reflexivity|].
  split; [vm_compute; reflexivity|].
  split; [vm_compute; reflexivity|].
  split; [vm_compute; reflexivity|].
  split; [vm_compute; reflexivity|].
  vm_compute. discriminate.
Qed.

(** The same two callers when the fetcher succeeds: one call of the fetcher,
    the registry entry removed, the same origin result for both. *)
Lemma two_callers_share_one_fetch :
  exists s,
    run demo_runtime demo_options two_callers_fetch_succeeds (idle v1_store) = Some s
    /\ calls_for "k" s = 1%nat
    /\ inFlight s !! "k" = None
    /\ returned 1 s = Some (inr (origin_result (VStr "v2")))
    /\ returned 2 s = Some (inr (origin_result (VStr "v2"))).
Proof.
  eexists. split; [vm_compute; reflexivity|].
  repeat split; vm_compute; reflexivity.
Qed.

(** A fetcher that throws synchronously: the origin fetch settles before it
    is registered, so the registration is never removed, and a later call for
    the key gets the old rejection without its fetcher being called. *)
Lemma throwing_fetcher_stays_registered :
  exists s,
    run demo_runtime demo_options throwing_fetcher_then_second_call (idle empty_store) = Some s
    /\ inFlight s !! "k" = Some 0%nat
    /\ calls_for "k" s = 1%nat
    /\ returned 1 s = Some (inl network_error)
    /\ returned 2 s = Some (inl network_error).
Proof.
  eexists. split; [vm_compute; reflexivity|].
  repeat split; vm_compute; reflexivity.
Qed.

End CacheSpec.

(** ** Properties of [invalidate], [purge] and of keys side by side *)

Module CacheOpsSpec.
Import Js Cache CacheOps CacheExamples.

Lemma prefix_append (a b : string) : String.prefix a (a +:+ b) = true.
Proof.
  induction a as [|c a IH].
  - destruct b; reflexivity.
  - change (String.prefix (String c a) (String c (a +:+ b)) = true). simpl.
    destruct (Ascii.ascii_dec c c); [apply IH | contradiction].
Qed.

Lemma append_assoc3 (a b c : string) : a +:+ b +:+ c = (a +:+ b) +:+ c.
Proof.
  induction a as [|x a IH]; [reflexivity|].
  change (String x (a +:+ b +:+ c) = String x ((a +:+ b) +:+ c)).
  rewrite IH. reflexivity.
Qed.

Section WithRuntime.
Context (rt : Runtime) (opts : Options).

Abbreviation get := (Cache.get rt opts).
Abbreviation set := (Cache.set rt opts).
Abbreviation fileForKey := (Cache.fileForKey rt opts).
Abbreviation invalidate := (CacheOps.invalidate rt opts).
Abbreviation purge := (CacheOps.purge opts).

(** Every cache file lies below the cache directory. *)
Lemma fileForKey_under (k : string) : under (dir opts) (fileForKey k) = true.
Proof.
  unfold under, Cache.fileForKey. rewrite append_assoc3, prefix_append.
  apply orb_true_r.
Qed.

(** A key with no memory entry whose file does not exist or cannot be read
    is a miss. *)
Lemma get_without_file (now : Z) (k : string) (st : store) :
  mem st !! k = None ->
  (disk st !! fileForKey k = None \/ exists c, disk st !! fileForKey k = Some (Faulty c)) ->
  get now k st = inr (miss, st).
Proof.
  intros Hmem Hfile. unfold Cache.get, get_mem, get_disk, readDisk, readDisk_try, readFile.
  rewrite Hmem. destruct Hfile as [-> | [c ->]]; [reflexivity|].
  destruct (is_ENOENT (fs_error c)); reflexivity.
Qed.

(** X1: an [invalidate(k)] that completes is followed by a miss: the next
    [get(k)] finds no entry, whatever the cache held before. *)
Theorem invalidate_then_get_is_miss (now : Z) (k : string) (st st' : store) :
  invalidate k st = (inr tt, st') ->
  get now k st' = inr (miss, st').
Proof.
  unfold CacheOps.invalidate, unlink. cbn [disk mem].
  destruct (disk st !! fileForKey k) as [[raw|c]|] eqn:Hfile.
  - intros [= <-]. apply get_without_file; cbn.
    + apply lookup_delete_eq.
    + left. apply lookup_delete_eq.
  - destruct (is_coded_other_than_ENOENT (fs_error c)); [discriminate|].
    intros [= <-]. apply get_without_file; cbn; [apply lookup_delete_eq | eauto].
  - cbn. intros [= <-]. apply get_without_file; cbn; [apply lookup_delete_eq | auto].
Qed.

(** [get(k)] looks at the memory entry of [k] and at the file of [k] only. *)
Lemma get_answer_local (now : Z) (k : string) (st1 st2 : store) :
  mem st1 !! k = mem st2 !! k ->
  disk st1 !! fileForKey k = disk st2 !! fileForKey k ->
  answer (get now k st1) = answer (get now k st2).
Proof.
  intros Hmem Hdisk.
  assert (Hread : readDisk rt opts k (disk st1) = readDisk rt opts k (disk st2)).
  { unfold readDisk, readDisk_try, readFile. rewrite Hdisk. reflexivity. }
  unfold Cache.get, get_mem, get_disk. rewrite Hmem, Hread.
  destruct (mem st2 !! k); [reflexivity|].
  destruct (readDisk rt opts k (disk st2)) as [err|[e|]]; reflexivity.
Qed.

Lemma invalidate_clears_memory_first_aux (k : string) (st : store) :
  mem (invalidate k st).2 = delete k (mem st)
  /\ (forall p, p <> fileForKey k ->
        disk (invalidate k st).2 !! p = disk st !! p).
Proof.
  unfold CacheOps.invalidate, unlink. cbn [disk mem].
  destruct (disk st !! fileForKey k) as [[raw|c]|] eqn:Hfile.
  - cbn. split; [reflexivity|]. intros p Hp. apply lookup_delete_ne. congruence.
  - destruct (is_coded_other_than_ENOENT (fs_error c)); cbn; split; reflexivity.
  - cbn. split; reflexivity.
Qed.

(** X2: [invalidate(k)] drops the memory entry of [k] whether or not the
    deletion of the file succeeds; it raises only when the file of [k]
    cannot be accessed for a reason other than [ENOENT], and then the disk
    is as before; a missing file is not an error; no other path is
    touched. *)
Theorem invalidate_clears_memory_first (k : string) (st : store) :
  mem (invalidate k st).2 = delete k (mem st)
  /\ (forall err, (invalidate k st).1 = inl err ->
        exists c, disk st !! fileForKey k = Some (Faulty c)
                  /\ c <> "ENOENT" /\ err = fs_error c
                  /\ disk (invalidate k st).2 = disk st)
  /\ (disk st !! fileForKey k = None ->
        (invalidate k st).1 = inr tt /\ disk (invalidate k st).2 = disk st)
  /\ (forall p, p <> fileForKey k ->
        disk (invalidate k st).2 !! p = disk st !! p).
Proof.
  unfold CacheOps.invalidate, unlink. cbn [disk mem].
  destruct (disk st !! fileForKey k) as [[raw|c]|] eqn:Hfile.
  - cbn. repeat split; try discriminate.
    intros p Hp. apply lookup_delete_ne. congruence.
  - destruct (is_coded_other_than_ENOENT (fs_error c)) eqn:Hcode; cbn.
    + repeat split; try discriminate.
      intros err [= <-]. exists c. repeat split.
      intros ->. discriminate Hcode.
    + repeat split; discriminate.
  - cbn. repeat split; discriminate.
Qed.

Lemma purge_disk (st st' : store) :
  purge st = (inr tt, st') ->
  mem st' = ∅
  /\ disk st' = filter (fun pn : string * node => under (dir opts) pn.1 = false) (disk st).
Proof.
  unfold CacheOps.purge, rm_recursive_force. cbn [disk].
  destruct (faulty_under (disk st) (dir opts)); [|discriminate].
  intros [= <-]. split; reflexivity.
Qed.

(** X3: [purge()] empties the memory map even when the removal fails; it
    succeeds when no path at or below the cache directory is faulty, a
    directory that does not exist included; after a purge that succeeded
    every [get] is a miss, and every path outside the cache directory is as
    it was. *)
Theorem purge_forgets_everything (st : store) :
  mem (purge st).2 = ∅
  /\ (faulty_under (disk st) (dir opts) = [] -> (purge st).1 = inr tt)
  /\ ((purge st).1 = inr tt ->
      (forall now k, get now k (purge st).2 = inr (miss, (purge st).2))
      /\ (forall p, under (dir opts) p = false ->
            disk (purge st).2 !! p = disk st !! p)).
Proof.
  split; [|split].
  - unfold CacheOps.purge. cbn [disk].
    destruct (rm_recursive_force (disk st) (dir opts)); reflexivity.
  - intros Hnone. unfold CacheOps.purge, rm_recursive_force. cbn [disk].
    rewrite Hnone. reflexivity.
  - intros Hok. destruct (purge st) as [r st'] eqn:Hp. cbn in Hok. subst r.
    destruct (purge_disk st st' Hp) as [Hmem Hdisk]. cbn [snd]. split.
    + intros now k. apply get_without_file.
      * rewrite Hmem. apply lookup_empty.
      * left. rewrite Hdisk. apply map_lookup_filter_None. right.
        intros x _ Hfalse. cbn in Hfalse. rewrite fileForKey_under in Hfalse.
        discriminate.
    + intros p Hp'. rewrite Hdisk.
      destruct (disk st !! p) as [x|] eqn:Hx.
      * apply map_lookup_filter_Some. split; [exact Hx | exact Hp'].
      * apply map_lookup_filter_None. left. exact Hx.
Qed.

(** X4: keys do not disturb each other.  For two different keys whose cache
    files differ (their hashes do not collide), a [set] or an [invalidate]
    of one, successful or not, leaves what [get] answers for the other
    unchanged. *)
Theorem other_key_is_left_alone (k1 k2 : string) (st : store) :
  k1 <> k2 ->
  fileForKey k1 <> fileForKey k2 ->
  (forall now v ttl now',
     answer (get now' k1 (set now k2 v ttl st).2) = answer (get now' k1 st))
  /\ (forall now', answer (get now' k1 (invalidate k2 st).2) = answer (get now' k1 st)).
Proof.
  intros Hk Hfile. split.
  - intros now v ttl now'. apply get_answer_local.
    + unfold Cache.set, set_entry.
      destruct (set_disk rt opts _ (disk st)); cbn; [reflexivity|].
      apply lookup_insert_ne. congruence.
    + unfold Cache.set, set_entry, set_disk, mkdir, writeFile. cbn.
      destruct (disk st !! dir opts) as [[raw|c]|]; cbn; try reflexivity.
      destruct (disk st !! fileForKey k2) as [[raw|c]|]; cbn; try reflexivity;
        apply lookup_insert_ne; congruence.
  - intros now'. apply get_answer_local.
    + destruct (invalidate_clears_memory_first_aux k2 st) as [Hm _]. rewrite Hm.
      apply lookup_delete_ne. congruence.
    + destruct (invalidate_clears_memory_first_aux k2 st) as [_ Hd]. apply Hd. congruence.
Qed.

(** X5: an entry survives the loss of the memory map.  When [JSON.parse]
    reads back what [JSON.stringify] wrote for the entry, a [get(k)] in a new
    process after a successful [set(k, v, t)] returns the entry from disk with
    the same value, [cachedAt] and [expiresAt], stale exactly when
    [now > expiresAt], and promotes it to memory, so that the next [get(k)] is
    a memory hit with the same entry. *)
Theorem entry_survives_restart (now now' : Z) (k : string) (v : Js.value) (ttl : option Z)
    (st st1 : store) :
  let e := new_entry opts now k v ttl in
  JSON_parse rt (JSON_stringify rt (entry_object e)) = Some (entry_object e) ->
  set now k v ttl st = (inr tt, st1) ->
  let promoted := {| mem := <[k := e]> ∅; disk := disk st1 |} in
  get now' k (restarted st1)
  = inr ({| entry := Some e; stale := now' >? expiresAt e; source := Some Disk |}, promoted)
  /\ get now' k promoted
     = inr ({| entry := Some e; stale := now' >? expiresAt e; source := Some Memory |},
            promoted).
Proof.
  intros e Hjson Hset promoted.
  destruct (CacheSpec.set_success rt opts now k v ttl st st1 Hset) as [_ Hdisk].
  destruct (CacheSpec.as_entry_entry_object e) as [Hvalid Hentry].
  assert (Hfile : disk st1 !! fileForKey k
                  = Some (File (JSON_stringify rt (entry_object e)))).
  { rewrite Hdisk. apply lookup_insert_eq. }
  split.
  - unfold Cache.get, get_mem, restarted. cbn [mem]. rewrite lookup_empty.
    unfold get_disk, readDisk, readDisk_try, readFile. cbn [disk mem].
    rewrite Hfile, Hjson, Hvalid, Hentry. cbn [negb].
    replace (String.eqb (key e) k) with true by (symmetry; apply String.eqb_refl).
    cbn [negb]. reflexivity.
  - apply CacheSpec.get_memory_hit. cbn. apply lookup_insert_eq.
Qed.

End WithRuntime.

(** [invalidate_then_get_is_miss] on the store that holds ["k"]. *)
Lemma invalidate_then_get_is_miss_witness :
  exists st',
    invalidate demo_runtime demo_options "k" v1_store = (inr tt, st')
    /\ get demo_runtime demo_options 1001 "k" st' = inr (miss, st').
Proof.
  destruct (invalidate demo_runtime demo_options "k" v1_store) as [[err|[]] st'] eqn:Hinv.
  - vm_compute in Hinv. discriminate.
  - exists st'. split; [reflexivity|].
    exact (invalidate_then_get_is_miss demo_runtime demo_options 1001 "k" v1_store st' Hinv).
Defined.

(** [other_key_is_left_alone] on the keys ["other"] and ["k"]. *)
Lemma other_key_is_left_alone_witness :
  "other" <> "k"
  /\ fileForKey demo_runtime demo_options "other" <> fileForKey demo_runtime demo_options "k"
  /\ answer (get demo_runtime demo_options 1001 "other"
               (set demo_runtime demo_options 1000 "k" (VStr "v1") None
                  CacheOpsExamples.two_key_store).2)
     = answer (get demo_runtime demo_options 1001 "other" CacheOpsExamples.two_key_store).
Proof.
  assert (H1 : "other" <> "k") by discriminate.
  assert (H2 : fileForKey demo_runtime demo_options "other"
               <> fileForKey demo_runtime demo_options "k") by discriminate.
  split; [exact H1|]. split; [exact H2|].
  exact (proj1 (other_key_is_left_alone demo_runtime demo_options "other" "k"
                  CacheOpsExamples.two_key_store H1 H2) 1000 (VStr "v1") None 1001).
Defined.

(** [entry_survives_restart] on [set("k", "v1")] under a runtime that reads
    back what it wrote. *)
Lemma entry_survives_restart_witness :
  JSON_parse CacheOpsExamples.echo_runtime
    (JSON_stringify CacheOpsExamples.echo_runtime
       (entry_object (new_entry demo_options 1000 "k" (VStr "v1") None)))
  = Some (entry_object (new_entry demo_options 1000 "k" (VStr "v1") None))
  /\ set CacheOpsExamples.echo_runtime demo_options 1000 "k" (VStr "v1") None empty_store
     = (inr tt, CacheOpsExamples.echo_store)
  /\ answer (get CacheOpsExamples.echo_runtime demo_options 1060 "k"
               (restarted CacheOpsExamples.echo_store))
     = Some {| entry := Some v1_entry; stale := true; source := Some Disk |}.
Proof.
  assert (H1 : JSON_parse CacheOpsExamples.echo_runtime
                 (JSON_stringify CacheOpsExamples.echo_runtime
                    (entry_object (new_entry demo_options 1000 "k" (VStr "v1") None)))
               = Some (entry_object (new_entry demo_options 1000 "k" (VStr "v1") None)))
    by reflexivity.
  assert (H2 : set CacheOpsExamples.echo_runtime demo_options 1000 "k" (VStr "v1") None
                 empty_store = (inr tt, CacheOpsExamples.echo_store))
    by (vm_compute; reflexivity).
  split; [exact H1|]. split; [exact H2|].
  rewrite (proj1 (entry_survives_restart CacheOpsExamples.echo_runtime demo_options
                    1000 1060 "k" (VStr "v1") None empty_store
                    CacheOpsExamples.echo_store H1 H2)).
  reflexivity.
Defined.

End CacheOpsSpec.

(** ** Properties of interleaved calls of [fetch] *)

Module SingleFlightSpec.
Import Js Cache CacheExamples.

Section WithRuntime.
Context (rt : Runtime) (opts : Options).

Abbreviation step := (Cache.step rt opts).
Abbreviation run := (Cache.run rt opts).
Abbreviation fetch := (Cache.fetch rt opts).

(** X6: single flight.  In every state the event loop reaches from a process
    that has made no call, two tasks that run an origin fetch of the same key
    are the same task, and no step calls the fetcher for a key while a fetch
    of that key is registered. *)
Theorem origin_fetch_is_single_flight (evs : list event) (st : store) (s : sys) :
  run evs (idle st) = Some s ->
  single_flight s
  /\ (forall k p ev s', inFlight s !! k = Some p -> step ev s = Some s' ->
        calls_for k s' = calls_for k s).
Proof.
  intros Hrun. split.
  - exact (CacheSpec.reachable_single_flight rt opts evs st s Hrun).
  - intros k p ev s' Hin Hstep.
    exact (CacheSpec.registered_key_not_fetched_again rt opts ev s s' k p Hstep Hin).
Qed.

(** X7: what the callers of one origin fetch return.  A caller that waited
    for the promise returns [waiter_return] of what the promise settled with
    and the caller that started the fetch returns [leader_return] of it;
    the two are the same exactly when the promise rejected or resolved with a
    value that is not an object carrying [source = "cache"]. *)
Theorem callers_of_one_fetch (s : sys) (p : nat) (r : res Js.value) :
  (forall w t, tasks s !! w = Some t -> t_pc t = AtExisting p ->
     settled s !! p = Some r ->
     exists s', step (Resume w) s = Some s' /\ returned w s' = Some (waiter_return r))
  /\ (forall l t, tasks s !! l = Some t -> t_pc t = AtPromise p ->
       settled s !! p = Some r ->
       exists s', step (Resume l) s = Some s' /\ returned l s' = Some (leader_return r))
  /\ (leader_return r = waiter_return r
      <-> match r with inl _ => True | inr v => is_cache_tagged v = false end).
Proof.
  split; [|split].
  - intros w t. apply CacheSpec.waiter_returns.
  - intros l t. apply CacheSpec.leader_returns.
  - apply CacheSpec.leader_waiter_agree.
Qed.

(** X8: the origin shape.  For a caller that runs the fetcher, a fetched
    value [v] whose [v.source] is not the string ["cache"] (so every string,
    number, boolean, array, [null] and [undefined]) is persisted by [set] and
    returned as [{ value, source: "origin", stale: false }], when [set]
    succeeds. *)
Theorem fetch_wraps_untagged_value (now now_get now_set : Z) (k : string) (v : Js.value)
    (o : FetchOptions) (registry : gmap string nat) (st st1 st2 : store) (g : get_result) :
  registry !! k = None ->
  Cache.get rt opts now_get k st = inr (g, st1) ->
  entry g = None \/ stale g = true ->
  Cache.set rt opts now_set k v (Some (fetch_ttl opts o)) st1 = (inr tt, st2) ->
  is_string "cache" (get_field "source" v) = false ->
  fetch now now_get now_set k (inr v) o registry st
  = (Returned (inr (origin_result v)) true, st2)
  /\ value <$> mem st2 !! k = Some v.
Proof.
  intros Hreg Hget Hrun Hset Hv.
  assert (Htag : is_cache_tagged v = false).
  { unfold is_cache_tagged. rewrite Hv. apply andb_false_r. }
  destruct (CacheSpec.fetch_success_shape rt opts now now_get now_set k v o registry
              st st1 st2 g Hreg Hget Hrun Hset Htag) as [Hfetch Hmem].
  split; [exact Hfetch|]. rewrite Hmem. reflexivity.
Qed.

End WithRuntime.

(** [origin_fetch_is_single_flight] on the run of two callers. *)
Lemma origin_fetch_is_single_flight_witness :
  exists s,
    run demo_runtime demo_options two_callers_fetch_succeeds (idle v1_store) = Some s
    /\ single_flight s.
Proof.
  destruct (run demo_runtime demo_options two_callers_fetch_succeeds (idle v1_store))
    as [s|] eqn:Hrun.
  - exists s. split; [reflexivity|].
    exact (proj1 (origin_fetch_is_single_flight demo_runtime demo_options
                    two_callers_fetch_succeeds v1_store s Hrun)).
  - vm_compute in Hrun. discriminate.
Defined.

(** [fetch_wraps_untagged_value] on a first fetch of ["k"] that resolves
    with ["v1"]. *)
Lemma fetch_wraps_untagged_value_witness :
  (∅ : gmap string nat) !! "k" = None
  /\ get demo_runtime demo_options 1000 "k" empty_store = inr (miss, empty_store)
  /\ set demo_runtime demo_options 1000 "k" (VStr "v1")
       (Some (fetch_ttl demo_options no_options)) empty_store
     = (inr tt, v1_store)
  /\ fetch demo_runtime demo_options 1000 1000 1000 "k" (inr (VStr "v1")) no_options ∅
       empty_store
     = (Returned (inr (origin_result (VStr "v1"))) true, v1_store).
Proof.
  assert (H1 : (∅ : gmap string nat) !! "k" = None) by reflexivity.
  assert (H2 : get demo_runtime demo_options 1000 "k" empty_store = inr (miss, empty_store))
    by reflexivity.
  assert (H3 : set demo_runtime demo_options 1000 "k" (VStr "v1")
                 (Some (fetch_ttl demo_options no_options)) empty_store
               = (inr tt, v1_store)) by (vm_compute; reflexivity).
  split; [exact H1|]. split; [exact H2|]. split; [exact H3|].
  exact (proj1 (fetch_wraps_untagged_value demo_runtime demo_options 1000 1000 1000 "k"
                  (VStr "v1") no_options ∅ empty_store empty_store v1_store miss
                  H1 H2 (or_introl eq_refl) H3 eq_refl)).
Defined.

End SingleFlightSpec.

(** ** Properties of the transport client *)

Module HttpRequestSpec.
Import Http HttpRequest.

(** *** The comparisons of the loop, in integers

    [attempt <= maxRetries] is [attempt <= floor maxRetries] and
    [attempt < maxRetries] is [attempt < ceiling maxRetries]. *)

Lemma Qle_inject_floor (a : Z) (q : QArith_base.Q) :
  QArith_base.Qle_bool (QArith_base.inject_Z a) q = (a <=? Qround.Qfloor q).
Proof.
  apply eq_true_iff_eq. rewrite QArith_base.Qle_bool_iff, Z.leb_le. split.
  - intros H. rewrite <- (Qround.Qfloor_Z a). apply Qround.Qfloor_resp_le, H.
  - intros H. apply (QArith_base.Qle_trans _ (QArith_base.inject_Z (Qround.Qfloor q))).
    + rewrite <- QArith_base.Zle_Qle. exact H.
    + apply Qround.Qfloor_le.
Qed.

Lemma Qle_ceiling_inject (a : Z) (q : QArith_base.Q) :
  QArith_base.Qle_bool q (QArith_base.inject_Z a) = (Qround.Qceiling q <=? a).
Proof.
  apply eq_true_iff_eq. rewrite QArith_base.Qle_bool_iff, Z.leb_le. split.
  - intros H. rewrite <- (Qround.Qceiling_Z a). apply Qround.Qceiling_resp_le, H.
  - intros H. apply (QArith_base.Qle_trans _ (QArith_base.inject_Z (Qround.Qceiling q))).
    + apply Qround.Qle_ceiling.
    + rewrite <- QArith_base.Zle_Qle. exact H.
Qed.

Lemma floor_ceiling (q : QArith_base.Q) :
  Qround.Qfloor q <= Qround.Qceiling q <= Qround.Qfloor q + 1.
Proof.
  split.
  - rewrite <- (Qround.Qceiling_Z (Qround.Qfloor q)).
    apply Qround.Qceiling_resp_le, Qround.Qfloor_le.
  - rewrite <- (Qround.Qceiling_Z (Qround.Qfloor q + 1)).
    apply Qround.Qceiling_resp_le, QArith_base.Qlt_le_weak, Qround.Qlt_floor.
Qed.

Lemma attempt_le_floor (a : Z) (q : QArith_base.Q) :
  attempt_le a (Finite q) = (a <=? Qround.Qfloor q).
Proof. apply Qle_inject_floor. Qed.

Lemma attempt_lt_ceiling (a : Z) (q : QArith_base.Q) :
  attempt_lt a (Finite q) = (a <? Qround.Qceiling q).
Proof.
  unfold attempt_lt. rewrite Qle_ceiling_inject. symmetry. apply Z.ltb_antisym.
Qed.

(** [Math.min(retries, 5)] is at most 5. *)
Lemma Math_min5_bound (retries : number) (m : QArith_base.Q) :
  Math_min5 retries = Finite m -> Qround.Qceiling m <= 5.
Proof.
  assert (H5 : forall q, QArith_base.Qle_bool q (QArith_base.inject_Z 5) = true ->
                         Qround.Qceiling q <= 5).
  { intros q Hq. rewrite Qle_ceiling_inject in Hq. apply Z.leb_le, Hq. }
  destruct retries as [q| | |]; cbn [Math_min5]; try discriminate.
  - destruct (QArith_base.Qle_bool q (QArith_base.inject_Z 5)) eqn:Hq; intros [= <-].
    + apply H5, Hq.
    + rewrite Qround.Qceiling_Z. lia.
  - intros [= <-]. rewrite Qround.Qceiling_Z. lia.
Qed.

(** What [allowed_retries] and [fractional] say about the two bounds. *)
Lemma allowed_retries_Some (retries : number) (n : nat) :
  allowed_retries retries = Some n ->
  exists m,
    Math_min5 retries = Finite m
    /\ Z.of_nat n = Qround.Qfloor m
    /\ Qround.Qceiling m <= 5
    /\ fractional retries = (Qround.Qfloor m <? Qround.Qceiling m).
Proof.
  unfold allowed_retries, fractional.
  destruct (Math_min5 retries) as [m| | |] eqn:Hm; try discriminate.
  rewrite Qle_inject_floor. destruct (Z.leb_spec 0 (Qround.Qfloor m)); [|discriminate].
  intros [= <-]. exists m. split; [reflexivity|]. split; [lia|].
  split; [apply (Math_min5_bound retries), Hm|].
  rewrite Qle_ceiling_inject. symmetry. apply Z.ltb_antisym.
Qed.

Lemma allowed_retries_None (retries : number) :
  allowed_retries retries = None -> attempt_le 0 (Math_min5 retries) = false.
Proof.
  unfold allowed_retries.
  destruct (Math_min5 retries) as [m| | |] eqn:Hm; cbn [attempt_le]; try reflexivity.
  - destruct (QArith_base.Qle_bool (QArith_base.inject_Z 0) m); [discriminate | reflexivity].
  - destruct retries as [q| | |]; cbn [Math_min5] in Hm; try discriminate.
    destruct (QArith_base.Qle_bool q (QArith_base.inject_Z 5)); discriminate.
Qed.

(** A retry count that is not negative allows an attempt. *)
Lemma allowed_retries_between (hi : Z) (retries : number) :
  number_between 0 hi retries -> allowed_retries retries <> None.
Proof.
  destruct retries as [q| | |]; cbn [number_between]; try contradiction.
  intros [H0 _]. apply QArith_base.Qle_bool_iff in H0.
  unfold allowed_retries. cbn [Math_min5].
  destruct (QArith_base.Qle_bool q (QArith_base.inject_Z 5)).
  - rewrite H0. discriminate.
  - discriminate.
Qed.

(** *** One iteration *)

Lemma retry_loop_unfold (fuel : nat) (M : number) (a : Z) (e : option thrown) (w : world) :
  retry_loop (S fuel) M a e w
  = if attempt_le a M then
      match iteration M a e w with
      | (Return res, w3) => (Some (inr res), w3)
      | (Throw err, w3) => (Some (inl err), w3)
      | (Continue e', w3) => retry_loop fuel M (a + 1) e' w3
      end
    else (Some (inl (after_loop e)), w).
Proof.
  cbn [retry_loop]. destruct (attempt_le a M); [|reflexivity].
  unfold iteration, fetchWithTimeout.
  destruct (try_block M a e (script w (calls w)) _) as [[err|c] w2].
  - destruct (catch_block M a err w2) as [[res|err'|e'] w3]; reflexivity.
  - destruct c; reflexivity.
Qed.

(** A successful response ends the loop. *)
Lemma iteration_return (M : number) (a : Z) (e : option thrown) (w : world)
    (res : Response) :
  script w (calls w) = Resolved res -> ok res = true ->
  iteration M a e w = (Return res, tick w).
Proof.
  intros Hs Hok. unfold iteration, tick, fetchWithTimeout. cbn [snd].
  rewrite Hs. unfold try_block. rewrite Hok. reflexivity.
Qed.

(** A retried outcome with [attempt < maxRetries]: back off and go on, with
    what the [catch] block received in [lastErr]. *)
Lemma iteration_continue (M : number) (a : Z) (e : option thrown) (w : world) :
  retried (script w (calls w)) = true -> attempt_lt a M = true ->
  iteration M a e w
  = (Continue (match caught (script w (calls w)) with Some x => Some x | None => e end),
     backoff a (tick w)).
Proof.
  intros Hr Ha. unfold iteration, tick, fetchWithTimeout. cbn [snd].
  destruct (script w (calls w)) as [res|m].
  - cbn [retried] in Hr. unfold try_block, ok. cbn [caught final_error].
    assert (Hnok : (200 <=? status res) && (status res <=? 299) = false).
    { apply andb_false_iff. apply orb_true_iff in Hr as [H|H].
      - right. apply Z.leb_le in H. apply Z.leb_gt. lia.
      - left. apply Z.eqb_eq in H. apply Z.leb_gt. lia. }
    rewrite Hnok. cbn [negb].
    assert (H4 : (400 <=? status res) && (status res <? 500) = false).
    { apply andb_false_iff. apply orb_true_iff in Hr as [H|H].
      - right. apply Z.leb_le in H. apply Z.ltb_ge. lia.
      - left. apply Z.eqb_eq in H. apply Z.leb_gt. lia. }
    rewrite H4, Ha, andb_true_r.
    destruct (500 <=? status res) eqn:H5; [reflexivity|].
    cbn [orb] in Hr. unfold catch_block, newApiError. cbn [is_client_api_error].
    rewrite Hr. cbn [negb andb]. rewrite Ha. reflexivity.
  - unfold try_block, catch_block. cbn [is_client_api_error caught]. rewrite Ha.
    reflexivity.
Qed.

(** An outcome that is not a success and is not retried, or comes when
    [attempt < maxRetries] fails, raises its error. *)
Lemma iteration_throw (M : number) (a : Z) (e : option thrown) (w : world) :
  settle (script w (calls w)) = inl (final_error (script w (calls w))) ->
  retried (script w (calls w)) = false \/ attempt_lt a M = false ->
  iteration M a e w = (Throw (final_error (script w (calls w))), tick w).
Proof.
  intros Hs Hr. unfold iteration, tick, fetchWithTimeout. cbn [snd].
  destruct (script w (calls w)) as [res|m].
  - cbn [settle] in Hs. destruct (ok res) eqn:Hok; [discriminate|].
    unfold try_block. rewrite Hok. cbn [negb final_error].
    assert (Hcatch : catch_block M a (TApp (newApiError (http_message res) (status res)))
                       {| script := script w; calls := S (calls w); sleeps := sleeps w |}
                     = (Throw (newApiError (http_message res) (status res)),
                        {| script := script w; calls := S (calls w); sleeps := sleeps w |})).
    { unfold catch_block, newApiError. cbn [is_client_api_error].
      destruct (negb (status res =? 0) && (status res <? 500)) eqn:Hc; [reflexivity|].
      destruct Hr as [Hr|Hr]; [|rewrite Hr; reflexivity].
      cbn [retried] in Hr. apply orb_false_iff in Hr as [H5 H0].
      apply Z.leb_gt in H5. rewrite H0 in Hc. cbn [negb andb] in Hc.
      apply Z.ltb_ge in Hc. lia. }
    destruct ((400 <=? status res) && (status res <? 500)); [exact Hcatch|].
    destruct ((500 <=? status res) && attempt_lt a M) eqn:H5; [|exact Hcatch].
    apply andb_true_iff in H5 as [H5 HaM].
    destruct Hr as [Hr|Hr]; [|congruence].
    cbn [retried] in Hr. rewrite H5 in Hr. discriminate.
  - destruct Hr as [Hr|Hr]; [discriminate|].
    unfold try_block, catch_block. cbn [is_client_api_error final_error]. rewrite Hr.
    reflexivity.
Qed.

Lemma settle_not_retried (o : attempt_outcome) :
  retried o = true -> settle o = inl (final_error o).
Proof.
  destruct o as [res|m]; [|reflexivity]. cbn [retried settle]. intros Hr.
  unfold ok. replace ((200 <=? status res) && (status res <=? 299)) with false; [reflexivity|].
  symmetry. apply andb_false_iff. apply orb_true_iff in Hr as [H|H].
  - right. apply Z.leb_le in H. apply Z.leb_gt. lia.
  - left. apply Z.eqb_eq in H. apply Z.leb_gt. lia.
Qed.

Lemma settle_cases (o : attempt_outcome) :
  (exists res, o = Resolved res /\ ok res = true /\ settle o = inr res
               /\ retried o = false)
  \/ settle o = inl (final_error o).
Proof.
  destruct o as [res|m]; [|right; reflexivity].
  cbn [settle]. destruct (ok res) eqn:Hok; [left | right; reflexivity].
  exists res. repeat split; try reflexivity; try assumption.
  unfold ok in Hok. apply andb_true_iff in Hok as [H1 H2].
  apply Z.leb_le in H1, H2. cbn [retried]. apply orb_false_iff.
  split; [apply Z.leb_gt | apply Z.eqb_neq]; lia.
Qed.

Lemma stop_index_range (s : nat -> attempt_outcome) (n : nat) :
  forall c,
  let k := stop_index s c n in
  (c <= k <= c + n)%nat
  /\ (forall i, (c <= i < k)%nat -> retried (s i) = true)
  /\ ((k < c + n)%nat -> retried (s k) = false).
Proof.
  induction n as [|n IH]; intros c; cbn [stop_index].
  - cbn zeta. split; [lia|]. split; intros; lia.
  - destruct (retried (s c)) eqn:Hc.
    + destruct (IH (S c)) as (H1 & H2 & H3). cbn zeta in *.
      split; [lia|]. split.
      * intros i Hi. destruct (decide (i = c)) as [->|Hne]; [exact Hc|]. apply H2. lia.
      * intros Hk. apply H3. lia.
    + cbn zeta. split; [lia|]. split; [intros; lia|]. intros _. exact Hc.
Qed.

(** *** The loop in closed form

    From attempt [a], with [n] attempts to go before the last one, the loop
    ends at the call [stop_index] names.  When that call is retried too, it
    is the last one allowed; then, for a [maxRetries] that is an integer, it
    raises its error, and for one that is not, the loop backs off once more
    and the code after the loop raises what [lastErr] holds. *)
Lemma retry_loop_closed (n : nat) :
  forall (fuel : nat) (q : QArith_base.Q) (a : Z) (e : option thrown) (w : world),
  a + Z.of_nat n = Qround.Qfloor q -> (S n < fuel)%nat ->
  retry_loop fuel (Finite q) a e w
  = if retried (script w (stop_index (script w) (calls w) n))
       && (Qround.Qfloor q <? Qround.Qceiling q)
    then
      (Some (inl (after_loop (last_caught (script w) (calls w) (S n) e))),
       {| script := script w;
          calls := S (stop_index (script w) (calls w) n);
          sleeps := sleeps w ++ delays_from a (S n) |})
    else
      (Some (settle (script w (stop_index (script w) (calls w) n))),
       {| script := script w;
          calls := S (stop_index (script w) (calls w) n);
          sleeps := sleeps w
                    ++ delays_from a (stop_index (script w) (calls w) n - calls w) |}).
Proof.
  induction n as [|n IH]; intros fuel q a e w HM Hf;
    (destruct fuel as [|fuel]; [lia|]); rewrite retry_loop_unfold, attempt_le_floor;
    (destruct (Z.leb_spec a (Qround.Qfloor q)); [|lia]); cbn [stop_index].
  - pose proof (floor_ceiling q) as Hfc.
    destruct (retried (script w (calls w))) eqn:Hr; cbn [andb].
    + destruct (Z.ltb_spec (Qround.Qfloor q) (Qround.Qceiling q)) as [Hfrac|Hint].
      * rewrite (iteration_continue (Finite q) a e w Hr)
          by (rewrite attempt_lt_ceiling; apply Z.ltb_lt; lia).
        destruct fuel as [|fuel]; [lia|]. rewrite retry_loop_unfold, attempt_le_floor.
        destruct (Z.leb_spec (a + 1) (Qround.Qfloor q)); [lia|]. reflexivity.
      * rewrite (iteration_throw (Finite q) a e w (settle_not_retried _ Hr))
          by (right; rewrite attempt_lt_ceiling; apply Z.ltb_ge; lia).
        rewrite (settle_not_retried _ Hr), Nat.sub_diag. cbn [delays_from].
        rewrite app_nil_r. reflexivity.
    + rewrite Nat.sub_diag. cbn [delays_from]. rewrite app_nil_r.
      destruct (settle_cases (script w (calls w))) as [(res & Ho & Hok & Hs & _)|Hs].
      * rewrite (iteration_return (Finite q) a e w res Ho Hok), Hs. reflexivity.
      * rewrite (iteration_throw (Finite q) a e w Hs) by (left; exact Hr).
        rewrite Hs. reflexivity.
  - pose proof (floor_ceiling q) as Hfc.
    destruct (retried (script w (calls w))) eqn:Hr.
    + rewrite (iteration_continue (Finite q) a e w Hr)
        by (rewrite attempt_lt_ceiling; apply Z.ltb_lt; lia).
      rewrite (IH fuel q (a + 1) _ (backoff a (tick w))) by (cbn; lia).
      cbn [backoff tick fetchWithTimeout snd script calls sleeps].
      pose proof (stop_index_range (script w) n (S (calls w))) as (Hk & _).
      cbn zeta in Hk.
      destruct (retried (script w (stop_index (script w) (S (calls w)) n))
                && (Qround.Qfloor q <? Qround.Qceiling q)).
      * cbn [last_caught delays_from]. rewrite <- app_assoc. reflexivity.
      * replace (stop_index (script w) (S (calls w)) n - calls w)%nat
          with (S (stop_index (script w) (S (calls w)) n - S (calls w))) by lia.
        cbn [delays_from]. rewrite <- app_assoc. reflexivity.
    + rewrite Hr. cbn [andb]. rewrite Nat.sub_diag. cbn [delays_from]. rewrite app_nil_r.
      destruct (settle_cases (script w (calls w))) as [(res & Ho & Hok & Hs & _)|Hs].
      * rewrite (iteration_return (Finite q) a e w res Ho Hok), Hs. reflexivity.
      * rewrite (iteration_throw (Finite q) a e w Hs) by (left; exact Hr).
        rewrite Hs. reflexivity.
Qed.

Lemma fetchWithRetry_closed (retries : number) (n : nat) (w : world) :
  allowed_retries retries = Some n ->
  fetchWithRetry retries w
  = if retried (script w (stop_index (script w) (calls w) n)) && fractional retries
    then
      (Some (inl (after_loop (last_caught (script w) (calls w) (S n) None))),
       {| script := script w;
          calls := S (stop_index (script w) (calls w) n);
          sleeps := sleeps w ++ delays (S n) |})
    else
      (Some (settle (script w (stop_index (script w) (calls w) n))),
       {| script := script w;
          calls := S (stop_index (script w) (calls w) n);
          sleeps := sleeps w ++ delays (stop_index (script w) (calls w) n - calls w) |}).
Proof.
  intros Hn. destruct (allowed_retries_Some retries n Hn) as (m & Hm & Hfloor & Hceil & ->).
  pose proof (floor_ceiling m) as Hfc.
  unfold fetchWithRetry. rewrite Hm.
  rewrite (retry_loop_closed n) by lia.
  rewrite !HttpSpec.delays_from_zero. reflexivity.
Qed.

(** A retry count that allows no attempt: no call is made. *)
Lemma fetchWithRetry_no_attempt (retries : number) (w : world) :
  allowed_retries retries = None ->
  fetchWithRetry retries w
  = (Some (inl (NetworkError "Network request failed after retries" (Some "undefined"))), w).
Proof.
  intros Hn. unfold fetchWithRetry. cbn [retry_loop].
  rewrite (allowed_retries_None retries Hn). reflexivity.
Qed.

Lemma delays_bounds (j : nat) :
  (j <= 5)%nat ->
  length (delays j) = j
  /\ Forall (fun d => 200 <= d <= 3200) (delays j)
  /\ total (delays j) <= 6200.
Proof.
  intros Hj.
  assert (Hc : j = 0%nat \/ j = 1%nat \/ j = 2%nat \/ j = 3%nat \/ j = 4%nat \/ j = 5%nat)
    by lia.
  destruct Hc as [->|[->|[->|[->|[->| ->]]]]];
    (split; [reflexivity|]); (split; [|vm_compute; discriminate]);
    repeat constructor; vm_compute; discriminate.
Qed.

(** Every error the [catch] block stored for a retried outcome is a
    rejection or an [ApiError] of status 0. *)
Lemma last_caught_status (s : nat -> attempt_outcome) (n : nat) :
  forall c e,
  (forall i, (c <= i < c + n)%nat -> retried (s i) = true) ->
  (forall m sc, e = Some (TApp (ApiError m sc)) -> sc = 0) ->
  forall m sc, last_caught s c n e = Some (TApp (ApiError m sc)) -> sc = 0.
Proof.
  induction n as [|n IH]; intros c e Hall He; cbn [last_caught]; [exact He|].
  apply IH.
  - intros i Hi. apply Hall. lia.
  - intros m sc. pose proof (Hall c) as Hc.
    destruct (s c) as [res|msg]; cbn [caught]; [|discriminate].
    destruct (500 <=? status res) eqn:H5; [apply He|].
    cbn [final_error]. unfold newApiError. intros [= _ <-].
    assert (Hr : retried (Resolved res) = true) by (apply Hc; lia).
    cbn [retried] in Hr. rewrite H5 in Hr. apply Z.eqb_eq, Hr.
Qed.

(** *** The retry policy *)

Lemma retryable_retried (o : attempt_outcome) : retryable o = true -> retried o = true.
Proof.
  destruct o as [res|m]; [|reflexivity]. cbn [retryable retried].
  intros ->. reflexivity.
Qed.

(** The call that decides is call [c + k] when the [k] calls before it are
    retried and it is not, or is the last one allowed. *)
Lemma stop_index_at (s : nat -> attempt_outcome) (n : nat) :
  forall c k,
  (k <= n)%nat ->
  (forall i, (i < k)%nat -> retried (s (c + i)%nat) = true) ->
  k = n \/ retried (s (c + k)%nat) = false ->
  stop_index s c n = (c + k)%nat.
Proof.
  induction n as [|n IH]; intros c k Hk Hall Hlast; cbn [stop_index].
  - lia.
  - destruct k as [|k].
    + destruct Hlast as [Hlast|Hlast]; [discriminate|].
      rewrite Nat.add_0_r in Hlast |- *. rewrite Hlast. reflexivity.
    + pose proof (Hall 0%nat) as H0. rewrite Nat.add_0_r in H0. rewrite H0 by lia.
      rewrite (IH (S c) k); [lia | lia | |].
      * intros i Hi. replace (S c + i)%nat with (c + S i)%nat by lia. apply Hall. lia.
      * destruct Hlast as [Hlast|Hlast]; [left; lia|right].
        replace (S c + k)%nat with (c + S k)%nat by lia. exact Hlast.
Qed.

(** Responses with a status of 500 or more leave [lastErr] as it was. *)
Lemma last_caught_server_errors (s : nat -> attempt_outcome) (n : nat) :
  forall c e,
  (forall i, (i < n)%nat -> exists res, s (c + i)%nat = Resolved res /\ 500 <= status res) ->
  last_caught s c n e = e.
Proof.
  induction n as [|n IH]; intros c e Hall; cbn [last_caught]; [reflexivity|].
  destruct (Hall 0%nat) as (res & Hres & H5); [lia|]. rewrite Nat.add_0_r in Hres.
  rewrite Hres. cbn [caught].
  replace (500 <=? status res) with true by (symmetry; apply Z.leb_le; exact H5).
  apply IH. intros i Hi. replace (S c + i)%nat with (c + S i)%nat by lia. apply Hall. lia.
Qed.

(** An integer retry count: the loop allows [min(retries, 5)] retries and
    the count is not fractional. *)
Lemma of_Z_allowed (r : Z) :
  0 <= r ->
  allowed_retries (of_Z r) = Some (Z.to_nat (Z.min r 5)) /\ fractional (of_Z r) = false.
Proof.
  intros Hr. unfold allowed_retries, fractional, of_Z. cbn [Math_min5].
  rewrite Qle_inject_floor, Qround.Qfloor_Z.
  destruct (Z.leb_spec r 5) as [H5|H5]; unfold of_Z;
    rewrite Qle_inject_floor, !Qround.Qfloor_Z, Qle_inject_floor, Qround.Qfloor_Z.
  - replace (0 <=? r) with true by (symmetry; apply Z.leb_le; lia).
    rewrite Z.leb_refl, Z.min_l by lia. split; reflexivity.
  - rewrite Z.min_r by lia. split; reflexivity.
Qed.

(** C3: the retry policy, and where the code leaves it.  Let the retry
    count allow [n] retries, [n = floor(min(retries, 5))], and let the first
    [k <= n] attempts be retryable (a rejection or a status of 500 or more).
    Then, whatever the retry count is:
    - the delay slept after attempt [i < k] is [min(200 * 2^i, 5000)] ms;
    - a response 400-499 at attempt [k] raises that [ApiError] at once: [k+1]
      calls in all, so exactly one when it is the first response;
    - a successful response at attempt [k] is returned after [k+1] calls.
    When [k = n] and attempt [n] is retryable too the retries are exhausted,
    and
    - when [min(retries, 5)] is an integer, as it is for every integer retry
      count, the last [ApiError], or a [NetworkError] wrapping the cause, is
      raised after [n+1] calls and [n] delays;
    - when it is not an integer and every response had a status of 500 or
      more, one more delay is slept after the last call and what is raised is
      a [NetworkError] whose cause is the text undefined: the last [ApiError]
      is lost, because a response of status 500 that is retried is not stored
      in [lastErr] and the code after the loop finds nothing to throw again.
    The retry count 2.5 is such a count; it is finite and between 0 and 10,
    which is all that [validateRetries] asks for.  Against a server that
    answers 500 to every call the count 2 raises the [ApiError] of the third
    response, and the count 2.5 raises the [NetworkError]. *)
Theorem fractional_retries_lose_the_last_error :
  (forall (retries : number) (n k : nat) (s : nat -> attempt_outcome),
     allowed_retries retries = Some n ->
     (k <= n)%nat ->
     (forall i, (i < k)%nat -> retryable (s i) = true) ->
     let done := {| script := s; calls := S k; sleeps := delays k |} in
     (forall i, (i < k)%nat -> delays k !! i = Some (Z.min (200 * 2 ^ Z.of_nat i) 5000))
     /\ (forall res, s k = Resolved res -> 400 <= status res < 500 ->
           fetchWithRetry retries (start s)
           = (Some (inl (newApiError (http_message res) (status res))), done))
     /\ (forall res, s k = Resolved res -> ok res = true ->
           fetchWithRetry retries (start s) = (Some (inr res), done))
     /\ (k = n -> retryable (s k) = true -> fractional retries = false ->
           fetchWithRetry retries (start s) = (Some (inl (final_error (s k))), done))
     /\ (k = n -> fractional retries = true ->
         (forall i, (i <= k)%nat -> exists res, s i = Resolved res /\ 500 <= status res) ->
           fetchWithRetry retries (start s)
           = (Some (inl (NetworkError "Network request failed after retries"
                           (Some "undefined"))),
              {| script := s; calls := S k; sleeps := delays (S k) |})))
  /\ (forall r : Z, 0 <= r ->
        allowed_retries (of_Z r) = Some (Z.to_nat (Z.min r 5))
        /\ fractional (of_Z r) = false)
  /\ number_between 0 10 HttpRequestExamples.two_and_a_half
  /\ allowed_retries HttpRequestExamples.two_and_a_half = Some 2%nat
  /\ fractional HttpRequestExamples.two_and_a_half = true
  /\ fetchWithRetry (of_Z 2) (start HttpRequestExamples.script_500)
     = (Some (inl (newApiError "HTTP 500 Internal Server Error" 500)),
        {| script := HttpRequestExamples.script_500; calls := 3; sleeps := [200; 400] |})
  /\ fetchWithRetry HttpRequestExamples.two_and_a_half (start HttpRequestExamples.script_500)
     = (Some (inl (NetworkError "Network request failed after retries" (Some "undefined"))),
        {| script := HttpRequestExamples.script_500; calls := 3;
           sleeps := [200; 400; 800] |}).
Proof.
  split; [|split; [exact of_Z_allowed|]].
  - intros retries n k s Hn Hk Hall done.
    assert (Hretried : forall i, (i < k)%nat -> retried (s (0 + i)%nat) = true)
      by (intros i Hi; apply retryable_retried, Hall, Hi).
    assert (Hstop : k = n \/ retried (s k) = false -> stop_index s 0 n = k).
    { intros H. apply (stop_index_at s n 0 k Hk Hretried H). }
    pose proof (fetchWithRetry_closed retries n (start s) Hn) as Hclosed.
    cbn [start script calls sleeps app] in Hclosed.
    split; [intros i Hi; apply HttpSpec.delays_lookup, Hi|].
    split; [|split; [|split]].
    + intros res Hres Hst.
      assert (Hnot : retried (s k) = false).
      { rewrite Hres. cbn [retried]. apply orb_false_iff.
        split; [apply Z.leb_gt | apply Z.eqb_neq]; lia. }
      rewrite Hclosed, (Hstop (or_intror Hnot)), Hnot, Hres. cbn [andb settle].
      replace (ok res) with false
        by (symmetry; unfold ok; apply andb_false_iff; right; apply Z.leb_gt; lia).
      rewrite Nat.sub_0_r. reflexivity.
    + intros res Hres Hok.
      destruct (settle_cases (s k)) as [(res' & Hres' & _ & Hs & Hnot)|Hs].
      * rewrite Hclosed, (Hstop (or_intror Hnot)), Hnot, Hs. cbn [andb].
        rewrite Hres in Hres'. injection Hres' as <-. rewrite Nat.sub_0_r. reflexivity.
      * rewrite Hres in Hs. cbn [settle] in Hs. rewrite Hok in Hs. discriminate.
    + intros Hkn Hlast Hint.
      rewrite Hclosed, (Hstop (or_introl Hkn)), Hint, andb_false_r.
      rewrite (settle_not_retried _ (retryable_retried _ Hlast)), Nat.sub_0_r. reflexivity.
    + intros Hkn Hfrac Hserver.
      assert (Hlast : retried (s k) = true).
      { destruct (Hserver k) as (res & Hres & H5); [lia|]. rewrite Hres. cbn [retried].
        apply orb_true_iff. left. apply Z.leb_le, H5. }
      rewrite Hclosed, (Hstop (or_introl Hkn)), Hlast, Hfrac. cbn [andb].
      rewrite (last_caught_server_errors s (S n) 0 None)
        by (intros i Hi; apply Hserver; cbn; lia).
      subst n. reflexivity.
  - split; [vm_compute; split; discriminate|].
    split; [vm_compute; reflexivity|]. split; [vm_compute; reflexivity|].
    split; vm_compute; reflexivity.
Qed.

(** The policy against a server that answers 500 twice and then 200, with
    the retry count 2.5: the response is returned after three calls. *)
Lemma fractional_retries_lose_the_last_error_witness :
  allowed_retries HttpRequestExamples.two_and_a_half = Some 2%nat
  /\ (2 <= 2)%nat
  /\ (forall i, (i < 2)%nat -> retryable (Examples.script_500_500_200 i) = true)
  /\ fetchWithRetry HttpRequestExamples.two_and_a_half (start Examples.script_500_500_200)
     = (Some (inr Examples.response_200),
        {| script := Examples.script_500_500_200; calls := 3; sleeps := delays 2 |}).
Proof.
  assert (H1 : allowed_retries HttpRequestExamples.two_and_a_half = Some 2%nat)
    by (vm_compute; reflexivity).
  assert (H2 : (2 <= 2)%nat) by lia.
  assert (H3 : forall i, (i < 2)%nat -> retryable (Examples.script_500_500_200 i) = true).
  { intros i Hi. destruct i as [|[|i]]; [reflexivity | reflexivity | lia]. }
  split; [exact H1|]. split; [exact H2|]. split; [exact H3|].
  exact (proj1 (proj2 (proj2
           (proj1 fractional_retries_lose_the_last_error
              HttpRequestExamples.two_and_a_half 2%nat 2%nat Examples.script_500_500_200
              H1 H2 H3)))
           Examples.response_200 eq_refl eq_refl).
Defined.

(** What a call of [fetchWithRetry] comes to, for any retry count. *)
Lemma fetchWithRetry_result (retries : number) (w : world) :
  exists r w' l,
    fetchWithRetry retries w = (Some r, w')
    /\ script w' = script w
    /\ sleeps w' = sleeps w ++ l
    /\ (calls w <= calls w' <= calls w + 6)%nat
    /\ (allowed_retries retries = None ->
        w' = w
        /\ r = inl (NetworkError "Network request failed after retries" (Some "undefined")))
    /\ (allowed_retries retries <> None -> (calls w < calls w')%nat)
    /\ (forall res, r = inr res ->
        ok res = true /\ script w (pred (calls w')) = Resolved res)
    /\ (forall m sc, r = inl (ApiError m sc) -> ~ 200 <= sc <= 299)
    /\ (pred (calls w' - calls w) <= length l <= calls w' - calls w)%nat
    /\ Forall (fun d => 200 <= d <= 3200) l
    /\ total l <= 6200.
Proof.
  destruct (allowed_retries retries) as [n|] eqn:Hn.
  2:{ exists (inl (NetworkError "Network request failed after retries" (Some "undefined"))),
        w, [].
      split; [apply fetchWithRetry_no_attempt, Hn|].
      split; [reflexivity|]. split; [symmetry; apply app_nil_r|]. split; [lia|].
      split; [intros _; split; reflexivity|]. split; [intros H; contradiction|].
      split; [intros res H; discriminate|]. split; [intros m sc H; discriminate|].
      split; [cbn; lia|]. split; [constructor | vm_compute; discriminate]. }
  destruct (allowed_retries_Some retries n Hn) as (m & Hm & Hfloor & Hceil & Hfrac).
  pose proof (floor_ceiling m) as Hfc.
  pose proof (stop_index_range (script w) n (calls w)) as (Hk & Hbefore & Hstop).
  cbn zeta in Hk, Hbefore, Hstop.
  rewrite (fetchWithRetry_closed retries n w Hn).
  set (k := stop_index (script w) (calls w) n) in *.
  destruct (retried (script w k) && fractional retries) eqn:Hcase.
  - apply andb_true_iff in Hcase as [Hr Hf]. rewrite Hfrac in Hf. apply Z.ltb_lt in Hf.
    assert (Hkn : k = (calls w + n)%nat).
    { destruct (decide (k < calls w + n)%nat) as [Hlt|Hge]; [|lia].
      rewrite (Hstop Hlt) in Hr. discriminate. }
    destruct (delays_bounds (S n)) as (Hlen & Hall & Htot); [lia|].
    eexists _, _, _. split; [reflexivity|]. cbn [script calls sleeps Nat.pred].
    split; [reflexivity|]. split; [reflexivity|]. split; [lia|].
    split; [intros H; discriminate|]. split; [intros _; lia|].
    split; [intros res H; discriminate|]. split.
    { intros msg sc H. assert (Hsc : sc = 0); [|lia].
      destruct (last_caught (script w) (calls w) (S n) None) as [[e'|m']|] eqn:Hlast;
        cbn [after_loop] in H; try discriminate.
      injection H as ->.
      apply (last_caught_status (script w) (S n) (calls w) None) with (m := msg).
      - intros i Hi. destruct (decide (i = k)) as [->|Hne]; [exact Hr|].
        apply Hbefore. lia.
      - intros m0 sc0 H0. discriminate.
      - exact Hlast. }
    split; [rewrite Hlen; lia|]. split; assumption.
  - destruct (delays_bounds (k - calls w)) as (Hlen & Hall & Htot); [lia|].
    eexists _, _, _. split; [reflexivity|]. cbn [script calls sleeps Nat.pred].
    split; [reflexivity|]. split; [reflexivity|]. split; [lia|].
    split; [intros H; discriminate|]. split; [intros _; lia|].
    split.
    { intros res Hres.
      destruct (settle_cases (script w k)) as [(res' & Ho & Hok & Hs & _)|Hs];
        rewrite Hs in Hres; [|discriminate].
      injection Hres as <-. split; assumption. }
    split.
    { intros msg sc H.
      destruct (script w k) as [res|m'] eqn:Ho; cbn [settle] in H.
      - destruct (ok res) eqn:Hok; [discriminate|].
        cbn [final_error] in H. unfold newApiError in H. injection H as _ <-.
        unfold ok in Hok. apply andb_false_iff in Hok as [H|H]; apply Z.leb_gt in H; lia.
      - discriminate. }
    split; [rewrite Hlen; lia|]. split; assumption.
Qed.

(** X9: the closed form of [fetchWithRetry] for every retry count that
    allows an attempt ([Math.min(retries, 5) >= 0]; [n] is its integer part).
    The call that decides is the first one whose outcome is not retried (a
    rejection, a status of 500 or more and the status 0 are retried), or the
    call number [n + 1] when all before it are.  When the deciding call is not
    retried, or when [Math.min(retries, 5)] is an integer, its response is
    returned when its status is 200-299 and every other outcome raises its
    error, so a redirect 3xx or a status 1xx raises an [ApiError] at once like
    a client error, after a sleep of [min(200 * 2^i, 5000)] ms after each
    earlier call [i].  When call [n + 1] is retried and
    [Math.min(retries, 5)] is not an integer, the loop sleeps once more and the
    code after it raises what the last [catch] stored: the last rejection
    wrapped in a [NetworkError], the [ApiError] of a status 0, or, when every
    response had a status of 500 or more, a [NetworkError] whose cause is the
    text undefined. *)
Theorem first_unretried_attempt_decides (retries : number) (n : nat) (w : world) :
  allowed_retries retries = Some n ->
  let k := stop_index (script w) (calls w) n in
  fetchWithRetry retries w
  = (if retried (script w k) && fractional retries
     then
       (Some (inl (after_loop (last_caught (script w) (calls w) (S n) None))),
        {| script := script w; calls := S k; sleeps := sleeps w ++ delays (S n) |})
     else
       (Some (settle (script w k)),
        {| script := script w; calls := S k;
           sleeps := sleeps w ++ delays (k - calls w) |}))
  /\ (n <= 5)%nat
  /\ (calls w <= k <= calls w + n)%nat
  /\ (forall i, (calls w <= i < k)%nat -> retried (script w i) = true)
  /\ ((k < calls w + n)%nat -> retried (script w k) = false).
Proof.
  intros Hn k. split; [apply fetchWithRetry_closed, Hn|].
  split.
  - destruct (allowed_retries_Some retries n Hn) as (m & _ & Hfloor & Hceil & _).
    pose proof (floor_ceiling m). lia.
  - apply (stop_index_range (script w) n (calls w)).
Qed.

(** The retry count 2.5 with the statuses 0, 0, 304: the third call decides
    and raises the [ApiError] of the 304; and against a server that always
    answers 500: three calls, three sleeps, and the error of the code after
    the loop. *)
Lemma first_unretried_attempt_decides_witness :
  allowed_retries HttpRequestExamples.two_and_a_half = Some 2%nat
  /\ fetchWithRetry HttpRequestExamples.two_and_a_half
       (start HttpRequestExamples.script_0_0_304)
     = (Some (inl (newApiError "HTTP 304 Not Modified" 304)),
        {| script := HttpRequestExamples.script_0_0_304; calls := 3; sleeps := [200; 400] |})
  /\ fetchWithRetry HttpRequestExamples.two_and_a_half (start HttpRequestExamples.script_500)
     = (Some (inl (NetworkError "Network request failed after retries" (Some "undefined"))),
        {| script := HttpRequestExamples.script_500; calls := 3;
           sleeps := [200; 400; 800] |}).
Proof.
  assert (H0 : allowed_retries HttpRequestExamples.two_and_a_half = Some 2%nat)
    by reflexivity.
  split; [exact H0|]. split.
  - exact (proj1 (first_unretried_attempt_decides HttpRequestExamples.two_and_a_half 2
                    (start HttpRequestExamples.script_0_0_304) H0)).
  - exact (proj1 (first_unretried_attempt_decides HttpRequestExamples.two_and_a_half 2
                    (start HttpRequestExamples.script_500) H0)).
Defined.

(** X10: [fetchWithRetry] always completes, whatever the retry count,
    fractional, negative, [NaN] and infinite counts included, and whatever the
    outcomes of the calls.  It makes at most six calls; a response it returns
    has a status 200-299 and is the one of its last call; it sleeps after
    every call but the last, and after the last one too when it leaves the
    loop on a fractional count; each sleep is between 200 and 3200 ms (the cap
    of 5000 ms of [backoff] is never reached) and they add up to at most
    6200 ms.  With a count that allows no attempt (negative, [NaN],
    [-Infinity]) it makes no call at all and raises a [NetworkError];
    otherwise it makes at least one call. *)
Theorem fetchWithRetry_is_bounded (retries : number) (w : world) :
  exists r w' l,
    fetchWithRetry retries w = (Some r, w')
    /\ (calls w <= calls w' <= calls w + 6)%nat
    /\ (allowed_retries retries <> None -> (calls w < calls w')%nat)
    /\ (allowed_retries retries = None ->
        w' = w
        /\ r = inl (NetworkError "Network request failed after retries" (Some "undefined")))
    /\ (forall res, r = inr res ->
        ok res = true /\ script w (pred (calls w')) = Resolved res)
    /\ sleeps w' = sleeps w ++ l
    /\ (pred (calls w' - calls w) <= length l <= calls w' - calls w)%nat
    /\ Forall (fun d => 200 <= d <= 3200) l
    /\ total l <= 6200.
Proof.
  destruct (fetchWithRetry_result retries w)
    as (r & w' & l & Hf & _ & Hsl & Hc & Hnone & Hsome & Hok & _ & Hlen & Hall & Htot).
  exists r, w', l. repeat (split; [assumption|]). assumption.
Qed.

Section WithRuntime.
Context (URL_resolve : string -> string -> option string)
        (content_type : Response -> string)
        (JSON_parse : string -> option Js.value).

Local Abbreviation request := (HttpRequest.request URL_resolve content_type JSON_parse).
Local Abbreviation read_response := (HttpRequest.read_response content_type JSON_parse).

(** A successful response is never turned into the error of the last line
    of [request]. *)
Lemma read_response_ok (res : Response) :
  ok res = true ->
  (body res = "" /\ read_response res = inr (Js.VObj []))
  \/ (body res <> "" /\ includes (content_type res) "application/json" = true
      /\ exists v, JSON_parse (body res) = Some v /\ read_response res = inr v)
  \/ (body res <> "" /\ includes (content_type res) "application/json" = true
      /\ JSON_parse (body res) = None
      /\ read_response res
         = inl (TApp (newApiError "Invalid JSON response from API" (status res))))
  \/ (body res <> "" /\ includes (content_type res) "application/json" = false
      /\ read_response res = inr (Js.VStr (body res))).
Proof.
  intros Hok. unfold HttpRequest.read_response.
  destruct (String.eqb_spec (body res) "") as [He|Hne]; [left; split; [exact He|reflexivity]|].
  right. destruct (includes (content_type res) "application/json").
  - destruct (JSON_parse (body res)) as [v|].
    + left. split; [exact Hne|]. split; [reflexivity|]. exists v. split; reflexivity.
    + right. left. repeat split; try reflexivity. exact Hne.
  - right. right. rewrite Hok. repeat split; try reflexivity. exact Hne.
Qed.

(** X11: [HttpClient.request] always completes, after at most six calls.
    Without a base URL, or with one that starts with TODO, it raises a
    [NetworkError] and makes no call.  A value it returns comes from the
    response of its last call, whose status is 200-299: the empty object for
    an empty body, the parsed body when the content type includes
    application/json, the body as a string otherwise.  So the body of an
    error response is never parsed or returned; and an [ApiError] with a
    status 200-299 is the one for a body that does not parse. *)
Theorem request_outcomes (c : HttpClient) (path : string) (w : world) :
  exists r w',
    request c path w = (Some r, w')
    /\ (calls w <= calls w' <= calls w + 6)%nat
    /\ (unconfigured c = true -> r = inl (TApp not_configured) /\ w' = w)
    /\ (forall v, r = inr v ->
        exists res,
          script w (pred (calls w')) = Resolved res /\ ok res = true
          /\ ((body res = "" /\ v = Js.VObj [])
              \/ (body res <> "" /\ includes (content_type res) "application/json" = true
                  /\ JSON_parse (body res) = Some v)
              \/ (body res <> "" /\ includes (content_type res) "application/json" = false
                  /\ v = Js.VStr (body res))))
    /\ (forall m sc, r = inl (TApp (ApiError m sc)) -> 200 <= sc <= 299 ->
        exists res,
          script w (pred (calls w')) = Resolved res /\ status res = sc
          /\ JSON_parse (body res) = None
          /\ m = "API returned HTTP " +:+ pretty sc +:+ ": Invalid JSON response from API").
Proof.
  unfold HttpRequest.request. destruct (unconfigured c) eqn:Hc.
  { exists (inl (TApp not_configured)), w. split; [reflexivity|]. split; [lia|].
    split; [intros _; split; reflexivity|]. split; intros; discriminate. }
  destruct (URL_resolve path (baseUrl c)) as [url|].
  2:{ exists (inl (TOther "Invalid URL")), w. split; [reflexivity|]. split; [lia|].
      split; [discriminate|]. split; intros; discriminate. }
  destruct (fetchWithRetry_result (retries c) w)
    as (r & w' & l & -> & _ & _ & Hcalls & _ & _ & Hres & Hapi & _).
  destruct r as [e|res].
  - eexists _, _. split; [reflexivity|]. split; [exact Hcalls|].
    split; [discriminate|]. split; [intros; discriminate|].
    intros m sc Hm Hsc. injection Hm as ->. exfalso. exact (Hapi m sc eq_refl Hsc).
  - destruct (Hres res eq_refl) as [Hok Ho].
    exists (read_response res), w'. split; [reflexivity|]. split; [exact Hcalls|].
    split; [discriminate|].
    destruct (read_response_ok res Hok)
      as [(Hb & ->)|[(Hb & Hj & v' & Hp & ->)|[(Hb & Hj & Hp & ->)|(Hb & Hj & ->)]]].
    + split; [|intros; discriminate].
      intros v Hv. injection Hv as <-. exists res. repeat split; try assumption.
      left. split; [exact Hb | reflexivity].
    + split; [|intros; discriminate].
      intros v Hv. injection Hv as <-. exists res. repeat split; try assumption.
      right. left. repeat split; assumption.
    + split; [intros; discriminate|].
      intros m sc Hm _. unfold newApiError in Hm. injection Hm as <- <-.
      exists res. repeat split; assumption.
    + split; [|intros; discriminate].
      intros v Hv. injection Hv as <-. exists res. repeat split; try assumption.
      right. right. repeat split; assumption.
Qed.

End WithRuntime.

End HttpRequestSpec.

(** ** Properties of the credential file *)

Module TokenStoreSpec.
Import Js Cache TokenStore.

Lemma assoc_obj_set (n k : string) (v : Js.value) (fields : list (string * Js.value)) :
  assoc n (obj_set k v fields) = if String.eqb k n then Some v else assoc n fields.
Proof.
  induction fields as [|[k' x] rest IH]; cbn [obj_set assoc].
  - destruct (String.eqb k n); reflexivity.
  - destruct (String.eqb_spec k' k) as [->|Hne]; cbn [assoc].
    + destruct (String.eqb k n); reflexivity.
    + rewrite IH. destruct (String.eqb_spec k' n) as [->|Hn]; [|reflexivity].
      destruct (String.eqb_spec k n) as [->|_]; [contradiction | reflexivity].
Qed.

Lemma assoc_not_in (n : string) (fields : list (string * Js.value)) :
  n ∉ fields.*1 -> assoc n fields = None.
Proof.
  induction fields as [|[k x] rest IH]; [reflexivity|].
  cbn [fmap list_fmap assoc fst]. intros Hn.
  apply not_elem_of_cons in Hn as [Hne Hrest].
  destruct (String.eqb_spec k n) as [->|_]; [contradiction|]. apply IH, Hrest.
Qed.

(** Reading a property of [{ ...base, ...src }]: the one of [src] when it
    has it, the one of [base] otherwise. *)
Lemma assoc_spread (n : string) (src : list (string * Js.value)) :
  NoDup src.*1 ->
  forall base,
  assoc n (spread src base)
  = match assoc n src with Some v => Some v | None => assoc n base end.
Proof.
  unfold spread. induction src as [|[k v] rest IH]; intros Hnd base; [reflexivity|].
  cbn [fmap list_fmap fst] in Hnd. apply NoDup_cons in Hnd as [Hk Hnd].
  cbn [fold_left assoc fst snd]. rewrite (IH Hnd), assoc_obj_set.
  destruct (String.eqb_spec k n) as [->|Hne]; [|reflexivity].
  rewrite (assoc_not_in n rest Hk). reflexivity.
Qed.

Lemma validateToken_reads (fields : list (string * Js.value)) :
  NoDup fields.*1 ->
  match validateToken (VObj fields) with
  | inr t =>
      (exists s, s <> "" /\ get_field "access_token" (VObj fields) = VStr s)
      /\ (forall n, get_field n t = get_field n (VObj fields))
  | inl e =>
      e = plain_error "Invalid token: missing or invalid access_token"
      /\ (forall s, get_field "access_token" (VObj fields) = VStr s -> s = "")
  end.
Proof.
  intros Hnd. unfold validateToken. cbn [truthy typeof_object negb orb].
  destruct (get_field "access_token" (VObj fields)) as [| |b|n|s|items|fs|nm m c] eqn:Hat;
    cbn [is_typeof_string negb orb truthy];
    try (split; [reflexivity | intros s' Hs'; discriminate]).
  destruct s as [|c s].
  { cbn. split; [reflexivity|]. intros s' [= <-]. reflexivity. }
  cbn [truthy negb]. split; [exists (String c s); split; [discriminate | reflexivity]|].
  intros n. cbn [get_field own_fields]. rewrite (assoc_spread n fields Hnd).
  destruct (assoc n fields) as [v|] eqn:Hn; [reflexivity|].
  cbn [get_field] in Hat.
  cbn [assoc].
  destruct (String.eqb_spec "access_token" n) as [<-|_].
  { rewrite Hn in Hat. discriminate. }
  destruct (String.eqb_spec "refresh_token" n) as [<-|_]; [cbn; rewrite Hn; reflexivity|].
  destruct (String.eqb_spec "token_type" n) as [<-|_]; [cbn; rewrite Hn; reflexivity|].
  destruct (String.eqb_spec "scope" n) as [<-|_]; [cbn; rewrite Hn; reflexivity|].
  destruct (String.eqb_spec "expires_in" n) as [<-|_]; [cbn; rewrite Hn; reflexivity|].
  destruct (String.eqb_spec "expires_at" n) as [<-|_]; [cbn; rewrite Hn; reflexivity|].
  reflexivity.
Qed.

(** X12: [validateToken] accepts exactly the objects whose [access_token] is
    a non-empty string, and the token it returns reads, for every property
    name, as the object it was given: the spread of the data at the end of the
    literal overrides the fields computed before it, so an [expires_in] or
    [expires_at] that is not a number is kept as it is and not replaced by
    [undefined].  Every property of the data is a property of the token. *)
Theorem validateToken_keeps_every_field (fields : list (string * Js.value)) :
  NoDup fields.*1 ->
  match validateToken (VObj fields) with
  | inr t =>
      (exists s, s <> "" /\ get_field "access_token" (VObj fields) = VStr s)
      /\ (forall n, get_field n t = get_field n (VObj fields))
      /\ (forall n, has_field n (VObj fields) = true -> has_field n t = true)
  | inl e =>
      e = plain_error "Invalid token: missing or invalid access_token"
      /\ (forall s, get_field "access_token" (VObj fields) = VStr s -> s = "")
  end.
Proof.
  intros Hnd. pose proof (validateToken_reads fields Hnd) as Hreads.
  destruct (validateToken (VObj fields)) as [e|t] eqn:Hv; [exact Hreads|].
  destruct Hreads as [Hacc Hget]. split; [exact Hacc|]. split; [exact Hget|].
  intros n Hn. unfold validateToken in Hv. cbn [truthy typeof_object negb orb] in Hv.
  destruct (negb (is_typeof_string (get_field "access_token" (VObj fields)))
            || negb (truthy (get_field "access_token" (VObj fields)))); [discriminate|].
  injection Hv as <-. cbn [has_field own_fields] in *.
  rewrite (assoc_spread n fields Hnd).
  destruct (assoc n fields); [reflexivity | discriminate].
Qed.

(** A stored token whose [expires_at] is the string tomorrow: the string is
    what the validated token holds. *)
Lemma validateToken_keeps_every_field_witness :
  NoDup (own_fields TokenStoreExamples.odd_token).*1
  /\ exists t, validateToken TokenStoreExamples.odd_token = inr t
       /\ get_field "expires_at" t = VStr "tomorrow".
Proof.
  assert (Hnd : NoDup (own_fields TokenStoreExamples.odd_token).*1).
  { refine (bool_decide_unpack _ _). vm_compute. exact I. }
  split; [exact Hnd|].
  pose proof (validateToken_keeps_every_field _ Hnd) as H.
  change (VObj (own_fields TokenStoreExamples.odd_token)) with TokenStoreExamples.odd_token in H.
  destruct (validateToken TokenStoreExamples.odd_token) as [e|t] eqn:Hv.
  - exfalso. destruct H as [_ H]. specialize (H "abc" eq_refl). discriminate.
  - exists t. split; [reflexivity|]. rewrite (proj1 (proj2 H) "expires_at"). reflexivity.
Defined.

Lemma token_object_NoDup (t : Token.OAuthToken) :
  NoDup (own_fields (token_object t)).*1.
Proof.
  destruct t as [a [r|] [ty|] [sc|] [ei|] [ea|]];
    (refine (bool_decide_unpack _ _); vm_compute; exact I).
Qed.

Section WithRuntime.
Context (JSON_parse : string -> option Js.value)
        (JSON_stringify_indented : Js.value -> string)
        (dirname : string -> string).

Local Abbreviation loadToken := (TokenStore.loadToken JSON_parse).
Local Abbreviation saveToken :=
  (TokenStore.saveToken JSON_stringify_indented dirname).
Local Abbreviation atomicWriteJson :=
  (TokenStore.atomicWriteJson JSON_stringify_indented dirname).

(** [loadToken] looks at nothing but the token file. *)
Lemma loadToken_local (p : string) (d1 d2 : gmap string node) :
  d1 !! p = d2 !! p -> loadToken p d1 = loadToken p d2.
Proof.
  intros H. unfold TokenStore.loadToken, loadToken_try, readFile. rewrite H. reflexivity.
Qed.

(** What a call of [atomicWriteJson] leaves on the disk. *)
Lemma atomicWriteJson_disk (tmp p : string) (obj : Js.value) (d d' : gmap string node)
    (r : res unit) :
  tmp <> p ->
  atomicWriteJson tmp p obj d = (r, d') ->
  (forall q, q <> p -> q <> tmp -> d' !! q = d !! q)
  /\ match r with
     | inl _ => d' !! p = d !! p
     | inr _ => d' !! p = Some (File (JSON_stringify_indented obj)) /\ d' !! tmp = None
     end.
Proof.
  intros Hne. unfold TokenStore.atomicWriteJson, mkdir, writeFile.
  destruct (d !! dirname p) as [[raw|c]|];
    try (intros [= <- <-]; split; reflexivity).
  assert (Hrename : forall d2,
            d2 = <[tmp := File (JSON_stringify_indented obj)]> d ->
            (match rename d2 tmp p with
             | inl e => (inl e, d2)
             | inr d3 => (inr tt, d3)
             end) = (r, d') ->
            (forall q, q <> p -> q <> tmp -> d' !! q = d !! q)
            /\ match r with
               | inl _ => d' !! p = d !! p
               | inr _ => d' !! p = Some (File (JSON_stringify_indented obj))
                          /\ d' !! tmp = None
               end).
  { intros d2 Hd2. unfold rename.
    assert (Htmp : d2 !! tmp = Some (File (JSON_stringify_indented obj)))
      by (rewrite Hd2; apply lookup_insert_eq).
    assert (Hp : d2 !! p = d !! p) by (rewrite Hd2; apply lookup_insert_ne; exact Hne).
    assert (Hq : forall q, q <> tmp -> d2 !! q = d !! q).
    { intros q Hq. rewrite Hd2. apply lookup_insert_ne. congruence. }
    rewrite Htmp, Hp.
    assert (Hmoved : forall q,
              <[p := File (JSON_stringify_indented obj)]> (delete tmp d2) !! q
              = if decide (q = p) then Some (File (JSON_stringify_indented obj))
                else if decide (q = tmp) then None else d !! q).
    { intros q. destruct (decide (q = p)) as [->|Hqp]; [apply lookup_insert_eq|].
      rewrite lookup_insert_ne by congruence.
      destruct (decide (q = tmp)) as [->|Hqt]; [apply lookup_delete_eq|].
      rewrite lookup_delete_ne by congruence. apply Hq, Hqt. }
    destruct (d !! p) as [[raw|c]|]; intros [= <- <-].
    - split.
      + intros q Hq1 Hq2. rewrite Hmoved.
        destruct (decide (q = p)); [contradiction|].
        destruct (decide (q = tmp)); [contradiction | reflexivity].
      + split.
        * rewrite Hmoved. destruct (decide (p = p)); [reflexivity | contradiction].
        * rewrite Hmoved. destruct (decide (tmp = p)); [contradiction|].
          destruct (decide (tmp = tmp)); [reflexivity | contradiction].
    - split; [intros q _ Hq2; apply Hq, Hq2 | exact Hp].
    - split.
      + intros q Hq1 Hq2. rewrite Hmoved.
        destruct (decide (q = p)); [contradiction|].
        destruct (decide (q = tmp)); [contradiction | reflexivity].
      + split.
        * rewrite Hmoved. destruct (decide (p = p)); [reflexivity | contradiction].
        * rewrite Hmoved. destruct (decide (tmp = p)); [contradiction|].
          destruct (decide (tmp = tmp)); [reflexivity | contradiction]. }
  destruct (d !! tmp) as [[raw|c]|].
  - apply Hrename. reflexivity.
  - intros [= <- <-]. split; reflexivity.
  - apply Hrename. reflexivity.
Qed.

(** X13: [saveToken] replaces the token file in one step.  When it fails,
    at the directory, at the temporary file or at the rename, the token file
    is as it was, so [loadToken] still gives what it gave before; when it
    succeeds, the token file holds the serialised normalised token and the
    temporary file is gone.  No other file is touched. *)
Theorem saveToken_is_atomic (now : Z) (tmp p : string) (token : Token.OAuthToken)
    (d d' : gmap string node) (r : res Token.OAuthToken) :
  tmp <> p ->
  saveToken now tmp p token d = (r, d') ->
  (forall q, q <> p -> q <> tmp -> d' !! q = d !! q)
  /\ match r with
     | inl _ => d' !! p = d !! p /\ loadToken p d' = loadToken p d
     | inr n =>
         n = Token.normalizeToken now token
         /\ d' !! p = Some (File (JSON_stringify_indented (token_object n)))
         /\ d' !! tmp = None
     end.
Proof.
  intros Hne. unfold TokenStore.saveToken.
  destruct (atomicWriteJson tmp p (token_object (Token.normalizeToken now token)) d)
    as [[e|u] d1] eqn:Hw; intros [= <- <-];
    destruct (atomicWriteJson_disk _ _ _ _ _ _ Hne Hw) as [Hother Hp];
    (split; [exact Hother|]).
  - split; [exact Hp | apply loadToken_local, Hp].
  - split; [reflexivity | exact Hp].
Qed.

(** X14: what [saveToken] wrote, [loadToken] reads back, when [JSON.parse]
    reads the text [JSON.stringify] produced: every property of the loaded
    token is the one of the normalised token that was saved.  But [saveToken]
    does not validate: a token with an empty [access_token] is written all the
    same, and the next [loadToken] rejects the file. *)
Theorem saveToken_then_loadToken (now : Z) (tmp p : string) (token n : Token.OAuthToken)
    (d d' : gmap string node) :
  tmp <> p ->
  JSON_parse (JSON_stringify_indented (token_object (Token.normalizeToken now token)))
  = Some (token_object (Token.normalizeToken now token)) ->
  saveToken now tmp p token d = (inr n, d') ->
  (Token.access_token token <> "" ->
   exists t, loadToken p d' = inr (Some t)
     /\ forall name, get_field name t = get_field name (token_object n))
  /\ (Token.access_token token = "" ->
      loadToken p d' = inl (plain_error "Invalid token: missing or invalid access_token")).
Proof.
  intros Hne Hjson Hsave. unfold TokenStore.saveToken in Hsave.
  destruct (atomicWriteJson tmp p (token_object (Token.normalizeToken now token)) d)
    as [[e|u] d1] eqn:Hw; [discriminate|]. injection Hsave as <- <-.
  destruct (atomicWriteJson_disk _ _ _ _ _ _ Hne Hw) as [_ [Hp _]].
  set (n := Token.normalizeToken now token) in *.
  assert (Hat : Token.access_token n = Token.access_token token).
  { unfold n, Token.normalizeToken. destruct (_ && _); reflexivity. }
  unfold TokenStore.loadToken, loadToken_try, readFile. rewrite Hp, Hjson.
  pose proof (validateToken_reads (own_fields (token_object n)) (token_object_NoDup n)) as Hv.
  change (VObj (own_fields (token_object n))) with (token_object n) in Hv.
  assert (Hget : get_field "access_token" (token_object n) = VStr (Token.access_token token)).
  { rewrite <- Hat. reflexivity. }
  split.
  - intros Hnonempty. destruct (validateToken (token_object n)) as [e|t].
    + exfalso. apply Hnonempty. apply (proj2 Hv _ Hget).
    + exists t. split; [reflexivity | exact (proj2 Hv)].
  - intros Hempty. destruct (validateToken (token_object n)) as [e|t].
    + destruct Hv as [-> _]. reflexivity.
    + exfalso. destruct Hv as [(s & Hs & Hs') _]. rewrite Hget, Hempty in Hs'.
      injection Hs' as <-. apply Hs. reflexivity.
Qed.

(** X15: after a [clearToken] that completes there is no token:
    [loadToken] returns [null].  A token file that does not exist is not an
    error for [clearToken], and a [clearToken] that fails has left the disk as
    it was. *)
Theorem clearToken_then_loadToken (p : string) (d d' : gmap string node) (r : res unit) :
  clearToken p d = (r, d') ->
  match r with
  | inr _ => loadToken p d' = inr None
  | inl e => d' = d /\ exists c, d !! p = Some (Faulty c) /\ c <> "ENOENT"
  end
  /\ (d !! p = None -> r = inr tt /\ d' = d).
Proof.
  unfold TokenStore.clearToken, CacheOps.unlink, TokenStore.loadToken, loadToken_try, readFile.
  destruct (d !! p) as [[raw|c]|] eqn:Hp.
  - intros [= <- <-]. split; [|discriminate].
    rewrite lookup_delete_eq. reflexivity.
  - unfold code_is_ENOENT, fs_error. cbn [get_field String.eqb Ascii.eqb Bool.eqb from_option is_string].
    destruct (String.eqb_spec c "ENOENT") as [->|Hc]; cbn [negb]; intros [= <- <-].
    + split; [|discriminate]. rewrite Hp. reflexivity.
    + split; [|discriminate]. split; [reflexivity|]. exists c. split; [reflexivity|exact Hc].
  - cbn. intros [= <- <-]. split; [|intros _; split; reflexivity].
    rewrite Hp. reflexivity.
Qed.

End WithRuntime.

(** Saving over a token file that cannot be replaced fails at the rename and
    leaves it as it was. *)
Lemma saveToken_is_atomic_witness :
  TokenStoreExamples.tmp_path <> TokenStoreExamples.token_path
  /\ exists e d',
       TokenStore.saveToken TokenStoreExamples.demo_stringify TokenStoreExamples.demo_dirname
         1000 TokenStoreExamples.tmp_path TokenStoreExamples.token_path
         TokenStoreExamples.fresh_token TokenStoreExamples.locked_disk = (inl e, d')
       /\ d' !! TokenStoreExamples.token_path = Some (Faulty "EACCES").
Proof.
  assert (Hne : TokenStoreExamples.tmp_path <> TokenStoreExamples.token_path) by discriminate.
  split; [exact Hne|].
  eexists _, _. split; [reflexivity|].
  refine (eq_trans (proj1 (proj2 (saveToken_is_atomic TokenStoreExamples.demo_parse
            TokenStoreExamples.demo_stringify TokenStoreExamples.demo_dirname
            1000 _ _ TokenStoreExamples.fresh_token TokenStoreExamples.locked_disk _ (inl _)
            Hne eq_refl))) _).
  reflexivity.
Defined.

(** A token with a lifetime of an hour saved at time 1000 over an old file:
    the loaded token expires at 3601000. *)
Lemma saveToken_then_loadToken_witness :
  exists n d' t,
    TokenStore.saveToken TokenStoreExamples.demo_stringify TokenStoreExamples.demo_dirname
      1000 TokenStoreExamples.tmp_path TokenStoreExamples.token_path
      TokenStoreExamples.fresh_token TokenStoreExamples.old_disk = (inr n, d')
    /\ TokenStore.loadToken TokenStoreExamples.demo_parse TokenStoreExamples.token_path d'
       = inr (Some t)
    /\ get_field "expires_at" t = VNum 3601000.
Proof.
  assert (Hne : TokenStoreExamples.tmp_path <> TokenStoreExamples.token_path) by discriminate.
  destruct (proj1 (saveToken_then_loadToken TokenStoreExamples.demo_parse
              TokenStoreExamples.demo_stringify TokenStoreExamples.demo_dirname
              1000 _ _ TokenStoreExamples.fresh_token _ TokenStoreExamples.old_disk _
              Hne eq_refl eq_refl)) as (t & Hload & Hread); [discriminate|].
  eexists _, _, t. split; [reflexivity|]. split; [exact Hload|].
  rewrite Hread. reflexivity.
Defined.

(** Clearing the token file of [old_disk]. *)
Lemma clearToken_then_loadToken_witness :
  exists d',
    TokenStore.clearToken TokenStoreExamples.token_path TokenStoreExamples.old_disk
    = (inr tt, d')
    /\ TokenStore.loadToken TokenStoreExamples.demo_parse TokenStoreExamples.token_path d'
       = inr None.
Proof.
  eexists. split; [reflexivity|].
  exact (proj1 (clearToken_then_loadToken TokenStoreExamples.demo_parse
           TokenStoreExamples.token_path TokenStoreExamples.old_disk _ (inr tt) eq_refl)).
Defined.

End TokenStoreSpec.

(** ** Properties of the command context *)

Module BuildContextSpec.
Import Js BuildContext.

Lemma endsWith_slash_append (s : string) : endsWith_slash (s +:+ "/") = true.
Proof.
  induction s as [|c s IH]; [reflexivity|].
  change (endsWith_slash (String c (s +:+ "/")) = true).
  cbn [endsWith_slash]. destruct (s +:+ "/") eqn:Hs; [|exact IH].
  destruct s; discriminate.
Qed.

Lemma with_slash_ends (s : string) : endsWith_slash (with_slash s) = true.
Proof.
  unfold with_slash. destruct (endsWith_slash s) eqn:H; cbn [negb];
    [exact H | apply endsWith_slash_append].
Qed.

Section WithRuntime.
Context (to_String : Js.value -> string)
        (JSON_parse : string -> option Js.value)
        (isValidUrl : Js.value -> bool).

Local Abbreviation buildContext := (BuildContext.buildContext to_String JSON_parse isValidUrl).
Local Abbreviation validateNumericOption := (BuildContext.validateNumericOption to_String).

(** A validated option is the default or lies between the bounds. *)
Lemma validateNumericOption_range (v : Js.value) (name : string) (min max dflt n : Z) :
  validateNumericOption v name min max dflt = inr n ->
  (v = VUndefined /\ n = dflt) \/ (v = VNum n /\ min <= n <= max).
Proof.
  unfold BuildContext.validateNumericOption. destruct v; try discriminate.
  - intros [= <-]. left. split; reflexivity.
  - destruct (Z.ltb_spec n0 min); [discriminate|].
    destruct (n0 >? max) eqn:Hmax; [discriminate|]. cbn [orb]. intros [= <-].
    right. split; [reflexivity|]. rewrite Z.gtb_ltb in Hmax. apply Z.ltb_ge in Hmax. lia.
Qed.

Lemma no_access_token_false (x : Js.value) :
  no_access_token x = false -> exists t, x = VStr t /\ t <> "".
Proof.
  unfold no_access_token. intros H.
  apply orb_false_iff in H as [H H3]. apply orb_false_iff in H as [_ H2].
  destruct x; try discriminate H2.
  exists s. split; [reflexivity|]. intros ->. discriminate.
Qed.

Lemma of_Z_between (lo hi n : Z) :
  lo <= n <= hi -> Http.number_between lo hi (Http.of_Z n).
Proof.
  intros [H1 H2]. unfold Http.of_Z, Http.number_between.
  rewrite <- !QArith_base.Zle_Qle. split; assumption.
Qed.

(** What a context that was built is made of. *)
Lemma buildContext_parts (opts : GlobalOptions) (config : Js.value)
    (defaultCacheDir tokenPath : string) (d : gmap string Cache.node) (ctx : Context) :
  buildContext opts config defaultCacheDir tokenPath d = inr ctx ->
  exists ttl stale timeout tries tokenData t url,
    validateCacheTtlSeconds to_String
      (coalesce (get_field "ttlSeconds" (coalesce (get_field "cache" config) (VObj [])))
                (get_field "cacheTtlSeconds" config)) = inr ttl
    /\ validateCacheStaleIfErrorSeconds to_String
         (coalesce (get_field "staleIfErrorSeconds"
                      (coalesce (get_field "cache" config) (VObj [])))
                   (get_field "cacheStaleIfErrorSeconds" config)) = inr stale
    /\ validateTimeoutMs to_String
         (coalesce (get_field "timeoutMs" (coalesce (get_field "http" config) (VObj [])))
                   (get_field "timeoutMs" config)) = inr timeout
    /\ validateRetries to_String
         (coalesce (get_field "retries" (coalesce (get_field "http" config) (VObj [])))
                   (get_field "retries" config)) = inr tries
    /\ load_tokenData to_String JSON_parse (merged_token opts config) tokenPath d
       = inr tokenData
    /\ resolve_accessToken (merged_token opts config) tokenData = VStr t
    /\ t <> ""
    /\ cacheTtlMs ctx = ttl * 1000
    /\ cacheStaleIfErrorMs ctx = stale * 1000
    /\ client ctx
       = HttpRequest.newHttpClient (with_slash url) (Some t) (Some timeout)
           (Some (Http.of_Z tries)).
Proof.
  unfold BuildContext.buildContext.
  destruct (nullish config); [discriminate|].
  destruct (negb _ && negb (is_typeof_string (merged_token opts config))); [discriminate|].
  destruct (truthy (merged_token opts config) && _); [discriminate|].
  destruct (validateCacheTtlSeconds _ _) as [e|ttl]; [discriminate|].
  destruct (validateCacheStaleIfErrorSeconds _ _) as [e|stale]; [discriminate|].
  destruct (load_tokenData _ _ _ _ _) as [e|tokenData]; [discriminate|].
  destruct (no_access_token _) eqn:Hno; [discriminate|].
  destruct (negb (isValidUrl _)); [discriminate|].
  destruct (coalesce (coalesce (get_field "baseUrl" _) _) _) as [| |b|n|url|items|fs|nm m c];
    try discriminate.
  destruct (validateTimeoutMs _ _) as [e|timeout]; [discriminate|].
  destruct (validateRetries _ _) as [e|tries]; [discriminate|].
  intros [= <-]. cbn [cacheTtlMs cacheStaleIfErrorMs client].
  destruct (no_access_token_false _ Hno) as (t & Hacc & Ht).
  exists ttl, stale, timeout, tries, tokenData, t, url.
  do 5 (split; [reflexivity|]). split; [exact Hacc|]. split; [exact Ht|].
  do 2 (split; [reflexivity|]). rewrite Hacc. reflexivity.
Qed.

(** X16: a context that [buildContext] returns holds validated settings
    only: the cache lifetimes are between one second and seven days (in
    milliseconds), the retry count between 0 and 10, the timeout between one
    second and five minutes, the access token a non-empty string and the base
    URL ends with a slash.  The retry count is the configured one, that of
    [http] first, and 3 when none is configured. *)
Theorem buildContext_validates (opts : GlobalOptions) (config : Js.value)
    (defaultCacheDir tokenPath : string) (d : gmap string Cache.node) (ctx : Context) :
  buildContext opts config defaultCacheDir tokenPath d = inr ctx ->
  1000 <= cacheTtlMs ctx <= 604800000
  /\ 1000 <= cacheStaleIfErrorMs ctx <= 604800000
  /\ Http.number_between 0 10 (HttpRequest.retries (client ctx))
  /\ 1000 <= HttpRequest.timeoutMs (client ctx) <= 300000
  /\ (exists t, HttpRequest.token (client ctx) = Some t /\ t <> "")
  /\ endsWith_slash (HttpRequest.baseUrl (client ctx)) = true
  /\ match coalesce (get_field "retries" (coalesce (get_field "http" config) (VObj [])))
                    (get_field "retries" config) with
     | VUndefined => HttpRequest.retries (client ctx) = Http.of_Z 3
     | VNum n => HttpRequest.retries (client ctx) = Http.of_Z n /\ 0 <= n <= 10
     | _ => False
     end.
Proof.
  intros H. destruct (buildContext_parts _ _ _ _ _ _ H)
    as (ttl & stale & timeout & tries & tokenData & t & url
        & Httl & Hstale & Htimeout & Htries & _ & _ & Ht & -> & -> & ->).
  apply validateNumericOption_range in Httl, Hstale, Htimeout, Htries.
  unfold HttpRequest.newHttpClient.
  cbn [HttpRequest.retries HttpRequest.timeoutMs HttpRequest.token HttpRequest.baseUrl
       default from_option id].
  split; [lia|]. split; [lia|].
  split; [apply of_Z_between; lia|]. split; [lia|].
  split; [exists t; split; [reflexivity | exact Ht]|].
  split; [apply with_slash_ends|].
  destruct Htries as [[-> ->]|[-> Hrange]]; [reflexivity|]. split; [reflexivity | exact Hrange].
Qed.

Lemma no_access_token_explicit (opts : GlobalOptions) (config : Js.value) (t : string) :
  opt_token opts = Some t -> merged_token opts config = VStr t.
Proof. intros H. unfold merged_token. rewrite H. reflexivity. Qed.

(** X17: a non-empty token given on the command line is the one the client
    sends, and the token file is not read: whatever the disk holds, missing,
    unreadable or corrupt token file included, [buildContext] gives the same
    result. *)
Theorem explicit_token_skips_token_file (opts : GlobalOptions) (config : Js.value)
    (defaultCacheDir tokenPath : string) (t : string) :
  opt_token opts = Some t -> t <> "" ->
  forall d1 d2 : gmap string Cache.node,
    buildContext opts config defaultCacheDir tokenPath d1
    = buildContext opts config defaultCacheDir tokenPath d2
    /\ (forall ctx, buildContext opts config defaultCacheDir tokenPath d1 = inr ctx ->
        HttpRequest.token (client ctx) = Some t).
Proof.
  intros Hopt Ht d1 d2.
  assert (Hload : forall d, load_tokenData to_String JSON_parse (merged_token opts config)
                               tokenPath d = inr None).
  { intros d. unfold load_tokenData. rewrite (no_access_token_explicit _ _ _ Hopt).
    destruct t; [contradiction | reflexivity]. }
  split.
  - unfold BuildContext.buildContext. rewrite !Hload. reflexivity.
  - intros ctx H. destruct (buildContext_parts _ _ _ _ _ _ H)
      as (ttl & stale & timeout & tries & tokenData & t' & url
          & _ & _ & _ & _ & Hl & Hacc & _ & _ & _ & ->).
    rewrite Hload in Hl. injection Hl as <-.
    rewrite (no_access_token_explicit _ _ _ Hopt) in Hacc. cbn in Hacc.
    injection Hacc as <-. reflexivity.
Qed.

(** X18: an empty token, on the command line or in the configuration,
    makes [buildContext] fail whatever the token file holds: the empty string
    is not [undefined], so it hides the access token of the file that was
    loaded for it, and it is not a valid access token. *)
Theorem empty_token_is_rejected (opts : GlobalOptions) (config : Js.value)
    (defaultCacheDir tokenPath : string) (d : gmap string Cache.node) :
  merged_token opts config = VStr "" ->
  exists e, buildContext opts config defaultCacheDir tokenPath d = inl e.
Proof.
  intros Htok.
  destruct (buildContext opts config defaultCacheDir tokenPath d) as [e|ctx] eqn:H;
    [exists e; reflexivity|].
  exfalso. destruct (buildContext_parts _ _ _ _ _ _ H)
    as (ttl & stale & timeout & tries & tokenData & t & url
        & _ & _ & _ & _ & _ & Hacc & Ht & _).
  rewrite Htok in Hacc. cbn in Hacc. injection Hacc as <-. apply Ht. reflexivity.
Qed.

(** With a retry count between 0 and 10, an integer or not,
    [fetchWithRetry] ends after at least one call and at most six, and a
    response it returns is the response of its last call, with a status
    200-299. *)
Lemma bounded_count_calls (retries : Http.number) (w : Http.world) :
  Http.number_between 0 10 retries ->
  exists r w',
    Http.fetchWithRetry retries w = (Some r, w')
    /\ (Http.calls w < Http.calls w' <= Http.calls w + 6)%nat
    /\ (forall res, r = inr res ->
        Http.ok res = true
        /\ Http.script w (pred (Http.calls w')) = Http.Resolved res).
Proof.
  intros Hbetween.
  destruct (HttpRequestSpec.fetchWithRetry_result retries w)
    as (r & w' & l & Hf & _ & _ & Hcalls & _ & Hsome & Hres & _).
  exists r, w'. split; [exact Hf|]. split; [|exact Hres].
  pose proof (Hsome (HttpRequestSpec.allowed_retries_between 10 _ Hbetween)). lia.
Qed.

(** X19: the settings of a built context keep the transport loop and the
    cache away from their corner cases.  With the retry count of the client,
    which is a number between 0 and 10, and with every number between 0 and
    10, an integer or not, [fetchWithRetry] ends after at least one call and
    at most six, and a response it returns is the response of its last call,
    with a status 200-299; and an entry stored with the default lifetime of
    the cache is returned fresh, from memory, for at least one second. *)
Theorem built_context_is_well_behaved (opts : GlobalOptions) (config : Js.value)
    (defaultCacheDir tokenPath : string) (d : gmap string Cache.node) (ctx : Context) :
  buildContext opts config defaultCacheDir tokenPath d = inr ctx ->
  Http.number_between 0 10 (HttpRequest.retries (client ctx))
  /\ (forall w, exists r w',
        Http.fetchWithRetry (HttpRequest.retries (client ctx)) w = (Some r, w')
        /\ (Http.calls w < Http.calls w' <= Http.calls w + 6)%nat
        /\ (forall res, r = inr res ->
            Http.ok res = true
            /\ Http.script w (pred (Http.calls w')) = Http.Resolved res))
  /\ (forall retries w, Http.number_between 0 10 retries ->
      exists r w',
        Http.fetchWithRetry retries w = (Some r, w')
        /\ (Http.calls w < Http.calls w' <= Http.calls w + 6)%nat
        /\ (forall res, r = inr res ->
            Http.ok res = true
            /\ Http.script w (pred (Http.calls w')) = Http.Resolved res))
  /\ (forall (rt : Cache.Runtime) (dir : string) now now' k v st st1,
        let copts := {| Cache.dir := dir; Cache.ttlMs := cacheTtlMs ctx;
                        Cache.staleIfErrorMs := cacheStaleIfErrorMs ctx |} in
        Cache.set rt copts now k v None st = (inr tt, st1) ->
        now' <= now + 1000 ->
        Cache.get rt copts now' k st1
        = inr ({| Cache.entry := Some (Cache.new_entry copts now k v None);
                  Cache.stale := false; Cache.source := Some Cache.Memory |}, st1)).
Proof.
  intros H. destruct (buildContext_parts _ _ _ _ _ _ H)
    as (ttl & stale & timeout & tries & tokenData & t & url
        & Httl & _ & _ & Htries & _ & _ & _ & Hc & _ & ->).
  apply validateNumericOption_range in Httl, Htries.
  unfold HttpRequest.newHttpClient. cbn [HttpRequest.retries default from_option id].
  assert (Hbetween : Http.number_between 0 10 (Http.of_Z tries))
    by (apply of_Z_between; lia).
  split; [exact Hbetween|]. split; [|split].
  - intros w. apply bounded_count_calls, Hbetween.
  - intros retries w. apply bounded_count_calls.
  - intros rt dir now now' k v st st1. cbv zeta. intros Hset Hnow.
    set (copts := {| Cache.dir := dir; Cache.ttlMs := cacheTtlMs ctx;
                     Cache.staleIfErrorMs := cacheStaleIfErrorMs ctx |}) in *.
    destruct (CacheSpec.set_success rt copts now k v None st st1 Hset) as [Hmem _].
    rewrite (CacheSpec.get_memory_hit rt copts now' k st1
               (Cache.new_entry copts now k v None)).
    + do 3 f_equal. unfold Cache.new_entry. cbn [Cache.expiresAt default from_option].
      unfold copts. cbn [Cache.ttlMs]. rewrite Hc.
      rewrite Z.gtb_ltb. apply Z.ltb_ge. lia.
    + rewrite Hmem. apply lookup_insert_eq.
Qed.

End WithRuntime.

(** The demonstration configuration with a token on the command line: the
    nested retry count 4 wins over the flat 9, the lifetime is 60 s. *)
Lemma buildContext_validates_witness :
  exists ctx,
    BuildContext.buildContext BuildContextExamples.demo_to_String
      TokenStoreExamples.demo_parse BuildContextExamples.demo_isValidUrl
      (BuildContextExamples.token_option "secret") BuildContextExamples.demo_config
      "/home/u/.cache/dida365-cli" TokenStoreExamples.token_path ∅ = inr ctx
    /\ HttpRequest.retries (client ctx) = Http.of_Z 4
    /\ cacheTtlMs ctx = 60000
    /\ endsWith_slash (HttpRequest.baseUrl (client ctx)) = true.
Proof.
  eexists. split; [reflexivity|]. split; [reflexivity|]. split; [reflexivity|].
  exact (proj1 (proj2 (proj2 (proj2 (proj2 (proj2
    (buildContext_validates BuildContextExamples.demo_to_String
       TokenStoreExamples.demo_parse BuildContextExamples.demo_isValidUrl
       (BuildContextExamples.token_option "secret") BuildContextExamples.demo_config
       "/home/u/.cache/dida365-cli" TokenStoreExamples.token_path ∅ _ eq_refl))))))).
Defined.

(** With a token on the command line, a token file that cannot be read
    changes nothing. *)
Lemma explicit_token_skips_token_file_witness :
  BuildContext.buildContext BuildContextExamples.demo_to_String
    TokenStoreExamples.demo_parse BuildContextExamples.demo_isValidUrl
    (BuildContextExamples.token_option "secret") BuildContextExamples.demo_config
    "/home/u/.cache/dida365-cli" TokenStoreExamples.token_path ∅
  = BuildContext.buildContext BuildContextExamples.demo_to_String
      TokenStoreExamples.demo_parse BuildContextExamples.demo_isValidUrl
      (BuildContextExamples.token_option "secret") BuildContextExamples.demo_config
      "/home/u/.cache/dida365-cli" TokenStoreExamples.token_path
      TokenStoreExamples.locked_disk.
Proof.
  assert (Hne : "secret" <> "") by discriminate.
  exact (proj1 (explicit_token_skips_token_file BuildContextExamples.demo_to_String
    TokenStoreExamples.demo_parse BuildContextExamples.demo_isValidUrl
    (BuildContextExamples.token_option "secret") BuildContextExamples.demo_config
    "/home/u/.cache/dida365-cli" TokenStoreExamples.token_path "secret" eq_refl Hne
    ∅ TokenStoreExamples.locked_disk)).
Defined.

(** An empty token on the command line, with a valid token file. *)
Lemma empty_token_is_rejected_witness :
  exists e,
    BuildContext.buildContext BuildContextExamples.demo_to_String
      TokenStoreExamples.demo_parse BuildContextExamples.demo_isValidUrl
      (BuildContextExamples.token_option "") BuildContextExamples.demo_config
      "/home/u/.cache/dida365-cli" TokenStoreExamples.token_path
      {[ TokenStoreExamples.token_path := Cache.File "T" ]} = inl e.
Proof.
  exact (empty_token_is_rejected BuildContextExamples.demo_to_String
    TokenStoreExamples.demo_parse BuildContextExamples.demo_isValidUrl
    (BuildContextExamples.token_option "") BuildContextExamples.demo_config
    "/home/u/.cache/dida365-cli" TokenStoreExamples.token_path
    {[ TokenStoreExamples.token_path := Cache.File "T" ]} eq_refl).
Defined.

(** The context of the demonstration configuration. *)
Lemma built_context_is_well_behaved_witness :
  exists ctx,
    BuildContext.buildContext BuildContextExamples.demo_to_String
      TokenStoreExamples.demo_parse BuildContextExamples.demo_isValidUrl
      (BuildContextExamples.token_option "secret") BuildContextExamples.demo_config
      "/home/u/.cache/dida365-cli" TokenStoreExamples.token_path ∅ = inr ctx
    /\ exists r w',
         Http.fetchWithRetry (HttpRequest.retries (client ctx))
           (Http.start Examples.script_500_500_200) = (Some r, w')
         /\ (0 < Http.calls w' <= 6)%nat.
Proof.
  eexists. split; [reflexivity|].
  destruct (proj1 (proj2 (built_context_is_well_behaved BuildContextExamples.demo_to_String
    TokenStoreExamples.demo_parse BuildContextExamples.demo_isValidUrl
    (BuildContextExamples.token_option "secret") BuildContextExamples.demo_config
    "/home/u/.cache/dida365-cli" TokenStoreExamples.token_path ∅ _ eq_refl))
    (Http.start Examples.script_500_500_200)) as (r & w' & Hf & Hc & _).
  exists r, w'. split; [exact Hf | exact Hc].
Defined.

End BuildContextSpec.

(** ** Properties of the error report and of the API client *)

Module ClientSpec.
Import Js Client.

(** X20: the exit code of a failed command.  Whatever was thrown, the code
    is 1, 2, 4, 5 or 6: never 0, and never 3, as no error class has the type
    AuthError.  An error of the API has the code 1 whatever its HTTP status
    is, 401 and 404 included; an [Error] that is not one of the classes of the
    client, such as a failed validation of a token file, is reported as a
    [NetworkError] with the code 5. *)
Theorem exit_code_of_every_error (err : Errors.thrown) :
  (Errors.outputError_exitCode err = 1 \/ Errors.outputError_exitCode err = 2
   \/ Errors.outputError_exitCode err = 4 \/ Errors.outputError_exitCode err = 5
   \/ Errors.outputError_exitCode err = 6)
  /\ (forall m sc,
        Errors.outputError_exitCode (Errors.Instance (Errors.newApiError m sc)) = 1
        /\ Errors.outputError_exitCode
             (Errors.Instance (Errors.of_http (Http.newApiError m sc))) = 1)
  /\ (forall m,
        Errors.type_of (Errors.normalizeError (Errors.PlainError m)) = "NetworkError"
        /\ Errors.outputError_exitCode (Errors.PlainError m) = 5)
  /\ (forall resource id,
        Errors.outputError_exitCode (Errors.Instance (Errors.newNotFoundError resource id)) = 4).
Proof.
  split.
  - destruct err as [[[] m c sc]|m|str]; cbv; tauto.
  - split; [intros m sc; split; reflexivity|].
    split; [intros m; split; reflexivity|]. intros resource id. reflexivity.
Qed.

Lemma all_id_chars_segments (a : string) :
  all_id_chars a = true ->
  forall rest h t, segments rest = h :: t -> segments (a +:+ rest) = (a +:+ h) :: t.
Proof.
  induction a as [|c a IH]; intros Ha rest h t Hrest; [exact Hrest|].
  cbn [all_id_chars] in Ha. apply andb_true_iff in Ha as [Hc Ha].
  change (segments (String c (a +:+ rest)) = String c (a +:+ h) :: t).
  cbn [segments]. rewrite (IH Ha rest h t Hrest).
  destruct (Ascii.eqb_spec c (Ascii.ascii_of_nat 47)) as [->|_]; [discriminate Hc|].
  reflexivity.
Qed.

Lemma all_id_chars_one_segment (a : string) : all_id_chars a = true -> segments a = [a].
Proof.
  intros Ha. pose proof (all_id_chars_segments a Ha "" "" [] eq_refl) as H.
  assert (Hnil : forall x : string, x +:+ "" = x).
  { induction x as [|c x IH]; [reflexivity|].
    change (String c (x +:+ "") = String c x). rewrite IH. reflexivity. }
  rewrite !Hnil in H. exact H.
Qed.

Lemma validateId_accepts (id : Js.value) (name : string) :
  validateId id name = None ->
  exists s, id = VStr s /\ s <> "" /\ all_id_chars s = true.
Proof.
  unfold validateId. destruct id; cbn [truthy is_typeof_string negb orb];
    try discriminate; try (destruct b; discriminate); try (destruct n; discriminate).
  destruct s as [|c s]; [discriminate|]. cbn [negb orb].
  destruct (id_pattern (String c s)) eqn:Hp; [|discriminate]. intros _.
  exists (String c s). split; [reflexivity|]. split; [discriminate|].
  unfold id_pattern in Hp. apply andb_true_iff in Hp as [_ Hp]. exact Hp.
Qed.

(** X21: identifiers cannot change the path of a request.  When
    [tasksGet] gets as far as its request, both identifiers are non-empty
    strings of letters, digits, dashes and underscores, and the path has
    exactly the four segments project, the project identifier, task and the
    task identifier: no identifier adds a segment, a parent directory, a
    query or a fragment. *)
Theorem validated_ids_keep_the_path (projectId taskId : Js.value) (req : Request) :
  tasksGet projectId taskId = inr req ->
  exists p t,
    projectId = VStr p /\ taskId = VStr t
    /\ p <> "" /\ t <> "" /\ all_id_chars p = true /\ all_id_chars t = true
    /\ path req = "project/" +:+ p +:+ "/task/" +:+ t
    /\ segments (path req) = ["project"; p; "task"; t].
Proof.
  unfold tasksGet.
  destruct (validateId projectId "projectId") eqn:Hp; [discriminate|].
  destruct (validateId taskId "taskId") eqn:Ht; [discriminate|].
  intros [= <-].
  destruct (validateId_accepts _ _ Hp) as (p & -> & Hp1 & Hp2).
  destruct (validateId_accepts _ _ Ht) as (t & -> & Ht1 & Ht2).
  exists p, t. cbn [text path]. repeat (split; [reflexivity || assumption|]).
  assert (H1 : segments ("/task/" +:+ t) = [""; "task"; t]).
  { change (segments (String (Ascii.ascii_of_nat 47) ("task" +:+ "/" +:+ t))
            = [""; "task"; t]).
    cbn [segments]. rewrite Ascii.eqb_refl.
    rewrite (all_id_chars_segments "task" eq_refl ("/" +:+ t) "" [t]); [reflexivity|].
    change (segments (String (Ascii.ascii_of_nat 47) t) = [""; t]).
    cbn [segments]. rewrite Ascii.eqb_refl, (all_id_chars_one_segment t Ht2).
    reflexivity. }
  assert (H2 : segments ("/" +:+ p +:+ "/task/" +:+ t) = [""; p; "task"; t]).
  { change (segments (String (Ascii.ascii_of_nat 47) (p +:+ "/task/" +:+ t))
            = [""; p; "task"; t]).
    cbn [segments]. rewrite Ascii.eqb_refl.
    rewrite (all_id_chars_segments p Hp2 _ _ _ H1).
    assert (Hnil : forall x : string, x +:+ "" = x).
    { induction x as [|c x IH]; [reflexivity|].
      change (String c (x +:+ "") = String c x). rewrite IH. reflexivity. }
    rewrite Hnil. reflexivity. }
  change ("project/" +:+ p +:+ "/task/" +:+ t)
    with ("project" +:+ "/" +:+ p +:+ "/task/" +:+ t).
  rewrite (all_id_chars_segments "project" eq_refl _ _ _ H2). reflexivity.
Qed.

(** Two well-formed identifiers. *)
Lemma validated_ids_keep_the_path_witness :
  exists req,
    tasksGet (VStr "inbox-1") (VStr "t_42") = inr req
    /\ segments (path req) = ["project"; "inbox-1"; "task"; "t_42"].
Proof.
  eexists. split; [reflexivity|].
  destruct (validated_ids_keep_the_path (VStr "inbox-1") (VStr "t_42") _ eq_refl)
    as (p & t & [= <-] & [= <-] & _ & _ & _ & _ & _ & H).
  exact H.
Defined.

Lemma assoc_filter (P : string * Js.value -> bool) (n : string)
    (fields : list (string * Js.value)) :
  NoDup fields.*1 ->
  assoc n (filter (fun kv => P kv) fields)
  = match assoc n fields with
    | Some v => if P (n, v) then Some v else None
    | None => None
    end
  /\ NoDup (filter (fun kv => P kv) fields).*1
  /\ (forall k, k ∉ fields.*1 -> k ∉ (filter (fun kv => P kv) fields).*1).
Proof.
  induction fields as [|[k x] rest IH]; intros Hnd.
  - split; [reflexivity|]. split; [constructor|]. intros k Hk. exact Hk.
  - cbn [fmap list_fmap fst] in Hnd. apply NoDup_cons in Hnd as [Hk Hnd].
    destruct (IH Hnd) as (IH1 & IH2 & IH3). rewrite filter_cons.
    destruct (decide (P (k, x))) as [HP|HP].
    + cbn [assoc fmap list_fmap fst]. split; [|split].
      * destruct (String.eqb_spec k n) as [->|Hne]; [|exact IH1].
        destruct (P (n, x)); [reflexivity | contradiction].
      * apply NoDup_cons. split; [apply IH3, Hk | exact IH2].
      * intros k' Hk'. apply not_elem_of_cons in Hk' as [Hne Hk'].
        apply not_elem_of_cons. split; [exact Hne | apply IH3, Hk'].
    + split; [|split].
      * rewrite IH1. cbn [assoc]. destruct (String.eqb_spec k n) as [->|Hne]; [|reflexivity].
        rewrite (TokenStoreSpec.assoc_not_in n rest Hk).
        destruct (P (n, x)); [exfalso; apply HP; exact I | reflexivity].
      * exact IH2.
      * intros k' Hk'. apply not_elem_of_cons in Hk' as [_ Hk']. apply IH3, Hk'.
Qed.

(** The properties of the body [tasksUpdate] sends. *)
Lemma update_body_assoc (projectId taskId : Js.value) (draft : list (string * Js.value))
    (n : string) :
  NoDup draft.*1 ->
  assoc n (own_fields_of_body projectId taskId draft)
  = if String.eqb "id" n then Some taskId
    else if String.eqb "projectId" n then Some projectId
    else match assoc n draft with
         | Some VUndefined | None => None
         | Some v => Some v
         end.
Proof.
  intros Hnd. unfold own_fields_of_body, defined_only, without_id.
  rewrite !TokenStoreSpec.assoc_obj_set.
  destruct (String.eqb_spec "id" n) as [<-|Hid]; [reflexivity|].
  destruct (String.eqb_spec "projectId" n) as [<-|Hpid]; [reflexivity|].
  destruct (assoc_filter (fun kv => negb (String.eqb kv.1 "id")) n draft Hnd)
    as (H1 & Hnd1 & _).
  destruct (assoc_filter
              (fun kv => negb match kv.2 with VUndefined => true | _ => false end) n _ Hnd1)
    as (H2 & Hnd2 & _).
  rewrite (TokenStoreSpec.assoc_spread n _ Hnd2). cbn [assoc].
  rewrite H2, H1. cbn [fst snd].
  destruct (assoc n draft) as [v|]; [|reflexivity].
  destruct (String.eqb_spec n "id") as [->|_]; [contradiction|]. cbn [negb].
  destruct v; reflexivity.
Qed.

(** X22: the body [tasksUpdate] sends.  Its [id] and [projectId] are the two
    arguments that were validated, whatever the draft holds under these names;
    every other property reads as in the draft; and no property of the body
    is [undefined]. *)
Theorem tasksUpdate_body_ids (projectId taskId : Js.value) (draft : list (string * Js.value))
    (req : Request) :
  NoDup draft.*1 ->
  tasksUpdate projectId taskId draft = inr req ->
  exists b,
    body req = Some b
    /\ get_field "id" b = taskId
    /\ get_field "projectId" b = projectId
    /\ (forall n, n <> "id" -> n <> "projectId" -> get_field n b = get_field n (VObj draft))
    /\ (forall n, has_field n b = true -> get_field n b <> VUndefined).
Proof.
  intros Hnd. unfold tasksUpdate.
  destruct (validateId projectId "projectId") eqn:Hp; [discriminate|].
  destruct (validateId taskId "taskId") eqn:Ht; [discriminate|].
  intros [= <-]. exists (update_body projectId taskId draft). cbn [body].
  destruct (validateId_accepts _ _ Hp) as (p & -> & _ & _).
  destruct (validateId_accepts _ _ Ht) as (t & -> & _ & _).
  unfold update_body. cbn [get_field has_field].
  split; [reflexivity|].
  split; [rewrite update_body_assoc by exact Hnd; reflexivity|].
  split; [rewrite update_body_assoc by exact Hnd; reflexivity|].
  split.
  - intros n Hid Hpid. rewrite update_body_assoc by exact Hnd.
    destruct (String.eqb_spec "id" n) as [<-|_]; [contradiction|].
    destruct (String.eqb_spec "projectId" n) as [<-|_]; [contradiction|].
    destruct (assoc n draft) as [[]|]; reflexivity.
  - intros n. rewrite update_body_assoc by exact Hnd.
    destruct (String.eqb "id" n); [intros _; discriminate|].
    destruct (String.eqb "projectId" n); [intros _; discriminate|].
    destruct (assoc n draft) as [[]|]; cbn; intros H; discriminate.
Qed.

(** A draft that carries another [id], another [projectId] and a title that
    is [undefined]. *)
Lemma tasksUpdate_body_ids_witness :
  exists req b,
    tasksUpdate (VStr "p1") (VStr "t1")
      [("id", VStr "other"); ("projectId", VStr "elsewhere"); ("title", VUndefined);
       ("priority", VNum 3)] = inr req
    /\ body req = Some b
    /\ get_field "id" b = VStr "t1"
    /\ get_field "projectId" b = VStr "p1"
    /\ has_field "title" b = false.
Proof.
  assert (Hnd : NoDup [("id", VStr "other"); ("projectId", VStr "elsewhere");
                       ("title", VUndefined); ("priority", VNum 3)].*1).
  { refine (bool_decide_unpack _ _). vm_compute. exact I. }
  destruct (tasksUpdate_body_ids (VStr "p1") (VStr "t1") _ _ Hnd eq_refl)
    as (b & Hb & Hid & Hpid & _ & _).
  eexists _, b. split; [reflexivity|]. split; [exact Hb|].
  split; [exact Hid|]. split; [exact Hpid|].
  cbn in Hb. injection Hb as <-. reflexivity.
Defined.

End ClientSpec.

(** ** Properties of the tag functions *)

Module TagsSpec.
Import Js Tags.

Section WithRuntime.
Context (normalizeTagValue : string -> string).

Local Abbreviation dedupe_loop := (Tags.dedupe_loop normalizeTagValue).
Local Abbreviation dedupeTags := (Tags.dedupeTags normalizeTagValue).
Local Abbreviation merged_tags := (Tags.merged_tags normalizeTagValue).
Local Abbreviation ensureTagsOnTaskDraft := (Tags.ensureTagsOnTaskDraft normalizeTagValue).

(** The loop, for a set [seen] that holds what [out] holds. *)
Lemma dedupe_loop_spec (tags : list string) :
  forall (seen : gset string) (out : list string),
  (forall t, t ∈ seen <-> t ∈ out) -> NoDup out ->
  NoDup (dedupe_loop tags seen out)
  /\ (forall t, t ∈ dedupe_loop tags seen out
        <-> t ∈ out \/ (t <> "" /\ exists tag, tag ∈ tags /\ normalizeTagValue tag = t)).
Proof.
  induction tags as [|tag rest IH]; intros seen out Hseen Hnd.
  - cbn [Tags.dedupe_loop]. split; [exact Hnd|]. intros t. split; [tauto|].
    intros [H|(_ & tag & Hin & _)]; [exact H|]. inversion Hin.
  - cbn [Tags.dedupe_loop].
    assert (Hskip : forall P : Prop,
              (normalizeTagValue tag = "" \/ normalizeTagValue tag ∈ out) ->
              forall t, (t ∈ out \/ t <> "" /\ exists tag', tag' ∈ rest
                                              /\ normalizeTagValue tag' = t)
                   <-> (t ∈ out \/ t <> "" /\ exists tag', tag' ∈ tag :: rest
                                               /\ normalizeTagValue tag' = t)).
    { intros _ Hcase t. split.
      - intros [H|(Hne & tag' & Hin & Heq)]; [left; exact H|].
        right. split; [exact Hne|]. exists tag'. split; [right; exact Hin | exact Heq].
      - intros [H|(Hne & tag' & Hin & Heq)]; [left; exact H|].
        apply elem_of_cons in Hin as [-> |Hin].
        + destruct Hcase as [He|Ho]; [congruence|]. left. rewrite <- Heq. exact Ho.
        + right. split; [exact Hne|]. exists tag'. split; assumption. }
    destruct (String.eqb_spec (normalizeTagValue tag) "") as [He|Hne].
    { destruct (IH seen out Hseen Hnd) as [H1 H2]. split; [exact H1|].
      intros t. rewrite H2. apply (Hskip True). left. exact He. }
    destruct (bool_decide_reflect (normalizeTagValue tag ∈ seen)) as [Hin|Hnin].
    { destruct (IH seen out Hseen Hnd) as [H1 H2]. split; [exact H1|].
      intros t. rewrite H2. apply (Hskip True). right. apply Hseen, Hin. }
    destruct (IH ({[normalizeTagValue tag]} ∪ seen) (out ++ [normalizeTagValue tag]))
      as [H1 H2].
    { intros t. rewrite elem_of_union, elem_of_singleton, elem_of_app, list_elem_of_singleton,
        Hseen. tauto. }
    { apply NoDup_app. split; [exact Hnd|]. split; [|apply NoDup_singleton].
      intros t Ht Ht'. apply list_elem_of_singleton in Ht'. subst t.
      apply Hnin, Hseen, Ht. }
    split; [exact H1|]. intros t. rewrite H2, elem_of_app, list_elem_of_singleton.
    split.
    + intros [[H| ->]|(Hn & tag' & Hin & Heq)].
      * left. exact H.
      * right. split; [exact Hne|]. exists tag. split; [left | reflexivity].
      * right. split; [exact Hn|]. exists tag'. split; [right; exact Hin | exact Heq].
    + intros [H|(Hn & tag' & Hin & Heq)]; [left; left; exact H|].
      apply elem_of_cons in Hin as [-> |Hin].
      * left. right. symmetry. exact Heq.
      * right. split; [exact Hn|]. exists tag'. split; assumption.
Qed.

(** One more tag at the end of the input. *)
Lemma dedupe_loop_snoc (tags : list string) (tag : string) :
  forall (seen : gset string) (out : list string),
  (forall t, t ∈ seen <-> t ∈ out) ->
  dedupe_loop (tags ++ [tag]) seen out
  = dedupe_loop tags seen out
    ++ (if String.eqb (normalizeTagValue tag) "" then []
        else if bool_decide (normalizeTagValue tag ∈ dedupe_loop tags seen out) then []
        else [normalizeTagValue tag]).
Proof.
  induction tags as [|tag' rest IH]; intros seen out Hseen.
  - cbn [app Tags.dedupe_loop].
    destruct (String.eqb (normalizeTagValue tag) ""); [symmetry; apply app_nil_r|].
    rewrite (bool_decide_ext _ (normalizeTagValue tag ∈ out)) by apply Hseen.
    destruct (bool_decide (normalizeTagValue tag ∈ out)); [symmetry; apply app_nil_r|].
    reflexivity.
  - cbn [app Tags.dedupe_loop].
    destruct (String.eqb (normalizeTagValue tag') ""); [apply IH, Hseen|].
    destruct (bool_decide (normalizeTagValue tag' ∈ seen)); [apply IH, Hseen|].
    apply IH. intros t.
    rewrite elem_of_union, elem_of_singleton, elem_of_app, list_elem_of_singleton, Hseen.
    tauto.
Qed.

Lemma dedupeTags_members (tags : list string) :
  NoDup (dedupeTags tags) /\ forall t, t ∈ dedupeTags tags -> t <> "".
Proof.
  assert (Hinv : forall t : string, t ∈ (∅ : gset string) <-> t ∈ ([] : list string)).
  { intros t. split; intros H; [set_solver | inversion H]. }
  destruct (dedupe_loop_spec tags ∅ [] Hinv (NoDup_nil_2)) as [H1 H2].
  split; [exact H1|]. intros t Ht. apply H2 in Ht as [Ht|[Ht _]]; [inversion Ht | exact Ht].
Qed.

(** X23: [dedupeTags] returns the normalised tags that are not empty, each
    once, in the order of their first occurrence: the result has no
    duplicates, holds exactly the non-empty normalised values of the input,
    and a tag added at the end of the input adds its normalised value at the
    end of the result when it is not empty and not there yet, and nothing
    otherwise. *)
Theorem dedupeTags_first_occurrences (tags : list string) :
  NoDup (dedupeTags tags)
  /\ (forall t, t ∈ dedupeTags tags
        <-> t <> "" /\ exists tag, tag ∈ tags /\ normalizeTagValue tag = t)
  /\ (forall tag,
        dedupeTags (tags ++ [tag])
        = dedupeTags tags
          ++ (if String.eqb (normalizeTagValue tag) "" then []
              else if bool_decide (normalizeTagValue tag ∈ dedupeTags tags) then []
              else [normalizeTagValue tag])).
Proof.
  assert (Hinv : forall t : string, t ∈ (∅ : gset string) <-> t ∈ ([] : list string)).
  { intros t. split; intros H; [set_solver | inversion H]. }
  destruct (dedupe_loop_spec tags ∅ [] Hinv (NoDup_nil_2)) as [H1 H2].
  split; [exact H1|]. split.
  - intros t. unfold Tags.dedupeTags. rewrite H2. split; [|tauto].
    intros [H|H]; [inversion H | exact H].
  - intros tag. apply dedupe_loop_snoc, Hinv.
Qed.

Lemma includes_elem_of (t : string) (l : list string) : includes t l = true <-> t ∈ l.
Proof.
  unfold includes. induction l as [|x l IH]; cbn [existsb].
  - split; [discriminate | intros H; inversion H].
  - rewrite orb_true_iff, IH, elem_of_cons.
    destruct (String.eqb_spec t x) as [->|Hne]; split; try tauto.
    intros [H|H]; [discriminate | tauto].
Qed.

Lemma assoc_delete_field (name n : string) (fields : list (string * Js.value)) :
  assoc n (delete_field name fields) = if String.eqb name n then None else assoc n fields.
Proof.
  unfold delete_field. induction fields as [|[k x] rest IH].
  - destruct (String.eqb name n); reflexivity.
  - rewrite filter_cons. cbn [fst].
    destruct (String.eqb_spec k name) as [->|Hne]; cbn [negb].
    + destruct (decide (Is_true false)) as [[]|_]. rewrite IH. cbn [assoc].
      destruct (String.eqb name n); reflexivity.
    + destruct (decide (Is_true true)) as [_|H]; [|exfalso; apply H; exact I].
      cbn [assoc]. rewrite IH.
      destruct (String.eqb_spec k n) as [->|Hn]; [|reflexivity].
      destruct (String.eqb_spec name n) as [->|_]; [contradiction | reflexivity].
Qed.

(** X24: [ensureTagsOnTaskDraft] replaces the tags of the draft.  The new
    tags are the required tags followed by the hints that are not required
    tags, without duplicates and without an empty tag; the tags the draft had
    play no role and are lost; a draft gets no [tags] property at all when
    there is no tag to set; and every other property of the draft is as it
    was. *)
Theorem ensureTags_replaces_tags (draft : list (string * Js.value)) (o : TagOptions) :
  let merged := merged_tags o in
  let result := VObj (ensureTagsOnTaskDraft draft o) in
  NoDup merged
  /\ (forall t, t ∈ merged -> t <> "")
  /\ (default true (enableRequiredTags o) = true ->
      forall t, t ∈ dedupeTags (default ["cli"] (requiredTags o)) -> t ∈ merged)
  /\ (merged <> [] -> get_field "tags" result = VArr (VStr <$> merged))
  /\ (merged = [] -> has_field "tags" result = false)
  /\ (forall n, n <> "tags" -> get_field n result = get_field n (VObj draft)).
Proof.
  intros merged result.
  set (required := if default true (enableRequiredTags o)
                   then dedupeTags (default ["cli"] (requiredTags o)) else []).
  set (hints := dedupeTags (default [] (tagHints o))).
  assert (Hm : merged
               = required ++ filter (fun t => negb (includes t required)) hints)
    by reflexivity.
  assert (Hreq : NoDup required /\ forall t, t ∈ required -> t <> "").
  { unfold required. destruct (default true (enableRequiredTags o)).
    - apply dedupeTags_members.
    - split; [constructor|]. intros t Ht. inversion Ht. }
  assert (Hhint : NoDup hints /\ forall t, t ∈ hints -> t <> "")
    by apply dedupeTags_members.
  split.
  { rewrite Hm. apply NoDup_app. split; [apply Hreq|]. split.
    - intros t Ht Ht'. apply list_elem_of_filter in Ht' as [Hnot _].
      apply includes_elem_of in Ht. rewrite Ht in Hnot. exact Hnot.
    - apply NoDup_filter, Hhint. }
  split.
  { intros t Ht. rewrite Hm in Ht. apply elem_of_app in Ht as [Ht|Ht].
    - apply Hreq, Ht.
    - apply list_elem_of_filter in Ht as [_ Ht]. apply Hhint, Ht. }
  split.
  { intros Hen t Ht. rewrite Hm. apply elem_of_app. left. unfold required.
    rewrite Hen. exact Ht. }
  unfold result, Tags.ensureTagsOnTaskDraft. fold merged.
  destruct merged as [|m ms] eqn:Hmerged; cbn [length Nat.eqb negb].
  - split; [intros H; contradiction|]. split.
    + intros _. cbn [has_field]. rewrite assoc_delete_field. reflexivity.
    + intros n Hn. cbn [get_field]. rewrite assoc_delete_field.
      destruct (String.eqb_spec "tags" n) as [<-|_]; [contradiction | reflexivity].
  - split.
    + intros _. cbn [get_field]. rewrite TokenStoreSpec.assoc_obj_set. reflexivity.
    + split; [discriminate|]. intros n Hn. cbn [get_field].
      rewrite TokenStoreSpec.assoc_obj_set.
      destruct (String.eqb_spec "tags" n) as [<-|_]; [contradiction | reflexivity].
Qed.

End WithRuntime.

End TagsSpec.

(** ** Properties of the projects commands *)

Module ProjectsSpec.
Import Js Cache CacheOps Projects.

Section WithRuntime.
Context (rt : Runtime) (opts : Options).

Local Abbreviation fetch := (Cache.fetch rt opts).
Local Abbreviation get := (Cache.get rt opts).
Local Abbreviation mutate := (Projects.mutate rt opts).
Local Abbreviation list_forced := (Projects.list_forced rt opts).

(** After [invalidate] the key has no memory entry and no readable file. *)
Lemma invalidate_leaves_nothing (k : string) (st st' : store) :
  invalidate rt opts k st = (inr tt, st') ->
  mem st' !! k = None
  /\ (disk st' !! fileForKey rt opts k = None
      \/ exists c, disk st' !! fileForKey rt opts k = Some (Faulty c)).
Proof.
  unfold invalidate, unlink. cbn [disk mem].
  destruct (disk st !! fileForKey rt opts k) as [[raw|c]|] eqn:Hfile.
  - intros [= <-]. cbn. split; [apply lookup_delete_eq | left; apply lookup_delete_eq].
  - destruct (is_coded_other_than_ENOENT (fs_error c)); [discriminate|].
    intros [= <-]. cbn. split; [apply lookup_delete_eq | eauto].
  - cbn. intros [= <-]. cbn. split; [apply lookup_delete_eq | auto].
Qed.

(** A [fetch] of a key that has no entry, with no fetch of it in flight,
    calls the fetcher, and the error of the fetcher is the error of [fetch]. *)
Lemma fetch_of_absent_key (now now_get now_set : Z) (k : string) (fetched : res Js.value)
    (o : FetchOptions) (st : store) :
  mem st !! k = None ->
  (disk st !! fileForKey rt opts k = None
   \/ exists c, disk st !! fileForKey rt opts k = Some (Faulty c)) ->
  exists r st'',
    fetch now now_get now_set k fetched o ∅ st = (Returned r true, st'')
    /\ (forall err, fetched = inl err -> r = inl err /\ st'' = st).
Proof.
  intros Hmem Hfile. unfold Cache.fetch.
  rewrite (CacheOpsSpec.get_without_file rt opts now_get k st Hmem Hfile).
  cbn [entry stale miss]. rewrite lookup_empty.
  destruct fetched as [err|v].
  - cbn [origin_catch leader_return]. eexists _, _. split; [reflexivity|].
    intros err' [= <-]. split; reflexivity.
  - destruct (origin_store rt opts now (fetch_window opts o) None _ v st) as [settled st2].
    eexists _, _. split; [reflexivity|]. intros err Herr. discriminate.
Qed.

(** X25: a change of the projects is not hidden by the cache.  After a
    [projects create], [update] or [delete] that completed, the next
    [projects list], in the same process or in a new one, finds no cached
    list: it calls the API, and when that call fails the failure is what the
    command reports, since there is no stale list to fall back on.  A
    command whose API call failed has left the cache as it was. *)
Theorem mutation_is_followed_by_refetch (data r : Js.value) (st st' : store) :
  mutate (inr data) st = (inr r, st') ->
  r = data_result data
  /\ (forall now now_get now_set fetched o,
        exists r' st'',
          fetch now now_get now_set cacheKey fetched o ∅ st' = (Returned r' true, st'')
          /\ (forall err, fetched = inl err -> r' = inl err))
  /\ (forall now now_get now_set fetched o,
        exists r' st'',
          fetch now now_get now_set cacheKey fetched o ∅ (restarted st')
          = (Returned r' true, st'')
          /\ (forall err, fetched = inl err -> r' = inl err))
  /\ (forall err, mutate (inl err) st = (inl err, st)).
Proof.
  unfold Projects.mutate.
  destruct (invalidate rt opts cacheKey st) as [[e|[]] st1] eqn:Hinv; [discriminate|].
  intros [= <- <-]. destruct (invalidate_leaves_nothing _ _ _ Hinv) as [Hmem Hfile].
  split; [reflexivity|]. split; [|split].
  - intros now now_get now_set fetched o.
    destruct (fetch_of_absent_key now now_get now_set cacheKey fetched o st1 Hmem Hfile)
      as (r' & st'' & Hf & He).
    exists r', st''. split; [exact Hf|]. intros err Herr. apply (He err Herr).
  - intros now now_get now_set fetched o.
    destruct (fetch_of_absent_key now now_get now_set cacheKey fetched o (restarted st1))
      as (r' & st'' & Hf & He); [apply lookup_empty | exact Hfile |].
    exists r', st''. split; [exact Hf|]. intros err Herr. apply (He err Herr).
  - intros err. reflexivity.
Qed.

(** X26: how long a forced refresh of the projects list is served.  After
    [projects list --force-refresh] stored the list at time [t], a
    [projects list] in a new process that reads the clock at [t'] answers from
    the cache, without calling the API, when [t' <= t + ttl], and calls the API
    when [t' > t + ttl], where [ttl] is the [projectsCacheTtlSeconds] of the
    configuration in milliseconds, seven days when it is absent.  The setting
    is not validated: with a negative one every later [projects list] calls
    the API. *)
Theorem forced_list_lifetime (ttlSeconds : option Z) (t : Z) (data r : Js.value)
    (st st' : store) :
  let e := new_entry opts t cacheKey data (Some (list_ttlMs ttlSeconds)) in
  JSON_parse rt (JSON_stringify rt (entry_object e)) = Some (entry_object e) ->
  list_forced ttlSeconds t (inr data) st = (inr r, st') ->
  expiresAt e = t + default 604800 ttlSeconds * 1000
  /\ (forall now t' now_set fetched o,
        t' <= expiresAt e ->
        fetch now t' now_set cacheKey fetched o ∅ (restarted st')
        = (Returned (inr (cache_result e)) false,
           {| mem := <[cacheKey := e]> ∅; disk := disk st' |}))
  /\ (forall now t' now_set fetched o,
        expiresAt e < t' ->
        exists r' st'',
          fetch now t' now_set cacheKey fetched o ∅ (restarted st')
          = (Returned r' true, st''))
  /\ (forall s, ttlSeconds = Some s -> s < 0 ->
        forall now t' now_set fetched o, t <= t' ->
        exists r' st'',
          fetch now t' now_set cacheKey fetched o ∅ (restarted st')
          = (Returned r' true, st'')).
Proof.
  intros e Hjson. unfold Projects.list_forced.
  destruct (Cache.set rt opts t cacheKey data (Some (list_ttlMs ttlSeconds)) st)
    as [[err|[]] st1] eqn:Hset; [discriminate|].
  intros [= <- <-].
  destruct (CacheSpec.set_success rt opts t cacheKey data _ st st1 Hset) as [_ Hdisk].
  assert (Hfile : disk (restarted st1) !! fileForKey rt opts cacheKey
                  = Some (File (JSON_stringify rt (entry_object e)))).
  { cbn [restarted disk]. rewrite Hdisk. apply lookup_insert_eq. }
  assert (Hget : forall t',
            get t' cacheKey (restarted st1)
            = inr ({| entry := Some e; stale := t' >? expiresAt e; source := Some Disk |},
                   {| mem := <[cacheKey := e]> ∅; disk := disk st1 |})).
  { intros t'. apply (CacheSpec.get_from_disk_file rt opts t' cacheKey e (restarted st1));
      [apply lookup_empty | exact Hfile | exact Hjson | reflexivity]. }
  assert (Hstale : forall now t' now_set fetched o,
            expiresAt e < t' ->
            exists r' st'',
              fetch now t' now_set cacheKey fetched o ∅ (restarted st1)
              = (Returned r' true, st'')).
  { intros now t' now_set fetched o Ht. unfold Cache.fetch. rewrite Hget.
    cbn [entry stale].
    replace (t' >? expiresAt e) with true by (symmetry; apply Z.gtb_lt; lia).
    rewrite lookup_empty.
    destruct (match fetched with inr v => _ | inl err => _ end) as [settled st2].
    eexists _, _. reflexivity. }
  split; [reflexivity|]. split; [|split].
  - intros now t' now_set fetched o Ht. unfold Cache.fetch. rewrite Hget.
    cbn [entry stale].
    replace (t' >? expiresAt e) with false; [reflexivity|].
    symmetry. rewrite Z.gtb_ltb. apply Z.ltb_ge. lia.
  - exact Hstale.
  - intros s0 -> Hneg now t' now_set fetched o Ht. apply Hstale.
    unfold e, new_entry, list_ttlMs. cbn [expiresAt default from_option id]. lia.
Qed.

End WithRuntime.

(** The list stored at 1000 under the demonstration runtime, whose default
    lifetime is not used: the projects list is kept seven days. *)
Lemma forced_list_lifetime_witness :
  exists r st' served st2,
    Projects.list_forced ProjectsExamples.list_runtime CacheExamples.demo_options
      None 1000 (inr (VStr "v1")) CacheExamples.empty_store = (inr r, st')
    /\ Cache.fetch ProjectsExamples.list_runtime CacheExamples.demo_options
         2000 604801000 2000 cacheKey (inl CacheExamples.network_error)
         CacheExamples.no_options ∅ (restarted st')
       = (Returned (inr served) false, st2).
Proof.
  eexists _, _, _, _. split; [reflexivity|].
  apply (proj1 (proj2 (forced_list_lifetime ProjectsExamples.list_runtime
           CacheExamples.demo_options None 1000 (VStr "v1") _ CacheExamples.empty_store _
           eq_refl eq_refl))).
  vm_compute. discriminate.
Defined.

(** [projects delete] over the store that holds the list of projects, in
    memory and in the file of the key [projects:list].  Before it, a
    [projects list] at 2000 is answered from the cached list without a call
    of the API; after it the entry and its file are gone, and the same
    [projects list], in this process or in a new one, calls the API and
    reports its failure. *)
Lemma mutation_is_followed_by_refetch_witness :
  mem ProjectsExamples.list_store !! cacheKey = Some ProjectsExamples.list_entry
  /\ disk ProjectsExamples.list_store
       !! fileForKey ProjectsExamples.list_runtime CacheExamples.demo_options cacheKey
     = Some (File "L")
  /\ Cache.fetch ProjectsExamples.list_runtime CacheExamples.demo_options
       2000 2000 2000 cacheKey (inl CacheExamples.network_error)
       CacheExamples.no_options ∅ ProjectsExamples.list_store
     = (Returned (inr (cache_result ProjectsExamples.list_entry)) false,
        ProjectsExamples.list_store)
  /\ Cache.fetch ProjectsExamples.list_runtime CacheExamples.demo_options
       2000 2000 2000 cacheKey (inl CacheExamples.network_error)
       CacheExamples.no_options ∅ (restarted ProjectsExamples.list_store)
     = (Returned (inr (cache_result ProjectsExamples.list_entry)) false,
        ProjectsExamples.list_store)
  /\ exists st',
       Projects.mutate ProjectsExamples.list_runtime CacheExamples.demo_options
         (inr VNull) ProjectsExamples.list_store = (inr (data_result VNull), st')
       /\ st' = {| mem := ∅; disk := ∅ |}
       /\ (exists r' st'',
            Cache.fetch ProjectsExamples.list_runtime CacheExamples.demo_options
              2000 2000 2000 cacheKey (inl CacheExamples.network_error)
              CacheExamples.no_options ∅ st' = (Returned r' true, st'')
            /\ r' = inl CacheExamples.network_error)
       /\ (exists r' st'',
            Cache.fetch ProjectsExamples.list_runtime CacheExamples.demo_options
              2000 2000 2000 cacheKey (inl CacheExamples.network_error)
              CacheExamples.no_options ∅ (restarted st') = (Returned r' true, st'')
            /\ r' = inl CacheExamples.network_error).
Proof.
  split; [vm_compute; reflexivity|]. split; [vm_compute; reflexivity|].
  split; [vm_compute; reflexivity|]. split; [vm_compute; reflexivity|].
  eexists. split; [reflexivity|]. split; [vm_compute; reflexivity|].
  pose proof (mutation_is_followed_by_refetch ProjectsExamples.list_runtime
                CacheExamples.demo_options VNull _ ProjectsExamples.list_store _ eq_refl)
    as (_ & Hsame & Hnew & _).
  split.
  - destruct (Hsame 2000 2000 2000 (inl CacheExamples.network_error)
                CacheExamples.no_options) as (r' & st'' & Hf & He).
    exists r', st''. split; [exact Hf|]. apply He. reflexivity.
  - destruct (Hnew 2000 2000 2000 (inl CacheExamples.network_error)
                CacheExamples.no_options) as (r' & st'' & Hf & He).
    exists r', st''. split; [exact Hf|]. apply He. reflexivity.
Defined.

End ProjectsSpec.

(** ** Properties of the refresh mutex *)

Module RefreshMutexSpec.
Import Js RefreshMutex.

Lemma loaded_invariant : mutex_invariant loaded.
Proof.
  unfold mutex_invariant, loaded. cbn.
  repeat split; intros; try discriminate; try lia;
    match goal with H : _ !! _ = Some _ |- _ =>
      rewrite lookup_empty in H; discriminate end.
Qed.

Ltac task_cases H tid' tid :=
  destruct (decide (tid' = tid)) as [->|?];
  [rewrite lookup_insert_eq in H | rewrite lookup_insert_ne in H by congruence].

Lemma mstep_preserves_invariant (ev : mevent) (s s' : msys) :
  mutex_invariant s -> mstep ev s = Some s' -> mutex_invariant s'.
Proof.
  intros (I1 & I2 & I3 & I4 & I5 & I6). destruct ev as [tid thrown|p r|tid]; cbn [mstep].
  - destruct (m_tasks s !! tid) eqn:Hfresh; [discriminate|].
    destruct (refreshPromise s) as [p|] eqn:Hrp.
    + intros [= <-]. unfold mutex_invariant, with_task. cbn.
      repeat split.
      * intros tid' p' H. task_cases H tid' tid; [discriminate|]. rewrite Hrp. eauto.
      * intros t1 t2 p1 p2 H1 H2.
        task_cases H1 t1 tid; [discriminate|]. task_cases H2 t2 tid; [discriminate|]. eauto.
      * intros p' Hp'. apply I3. congruence.
      * intros q Hq Hs. rewrite Hrp. eauto.
      * intros tid' p' r H. task_cases H tid' tid; [discriminate|]. eauto.
      * intros tid' p' H. task_cases H tid' tid; [|eauto].
        injection H as <-. apply I3. reflexivity.
    + destruct thrown as [err|]; intros [= <-]; unfold mutex_invariant; cbn.
      * repeat split.
        -- intros tid' p' H. task_cases H tid' tid; [discriminate|].
           specialize (I1 _ _ H). congruence.
        -- intros t1 t2 p1 p2 H1 H2.
           task_cases H1 t1 tid; [discriminate|]. task_cases H2 t2 tid; [discriminate|].
           eauto.
        -- discriminate.
        -- intros q Hq Hs. specialize (I4 q Hq Hs). congruence.
        -- intros tid' p' r H. task_cases H tid' tid; [discriminate|]. eauto.
        -- intros tid' p' H. task_cases H tid' tid; [discriminate|]. eauto.
      * repeat split.
        -- intros tid' p' H. task_cases H tid' tid; [congruence|].
           specialize (I1 _ _ H). congruence.
        -- intros t1 t2 p1 p2 H1 H2.
           task_cases H1 t1 tid; task_cases H2 t2 tid; try reflexivity.
           ++ specialize (I1 _ _ H2). congruence.
           ++ specialize (I1 _ _ H1). congruence.
           ++ eauto.
        -- intros p' [= <-]. lia.
        -- intros q Hq Hs. destruct (decide (q = m_next s)) as [->|Hne]; [reflexivity|].
           assert (Hlt : (q < m_next s)%nat) by lia.
           specialize (I4 q Hlt Hs). congruence.
        -- intros tid' p' r H. task_cases H tid' tid; [discriminate|]. eauto.
        -- intros tid' p' H. task_cases H tid' tid; [discriminate|].
           specialize (I6 _ _ H). lia.
  - destruct (bool_decide_reflect (p < m_next s)%nat) as [Hp|]; [|discriminate].
    destruct (m_settled s !! p) eqn:Hpending; [discriminate|].
    intros [= <-]. unfold mutex_invariant. cbn. repeat split; try assumption.
    + intros q Hq Hs. destruct (decide (q = p)) as [->|Hne].
      * rewrite lookup_insert_eq in Hs. discriminate.
      * rewrite lookup_insert_ne in Hs by congruence. eauto.
    + intros tid p' r' H. destruct (decide (p' = p)) as [->|Hne].
      * specialize (I5 _ _ _ H). congruence.
      * rewrite lookup_insert_ne by congruence. eauto.
  - destruct (m_tasks s !! tid) as [[p|p|p r]|] eqn:Htask; try discriminate.
    + destruct (m_settled s !! p) as [r|] eqn:Hsettled; [|discriminate].
      intros [= <-]. unfold mutex_invariant. cbn. repeat split.
      * intros tid' p' H. task_cases H tid' tid; [discriminate|].
        exfalso. apply n. eapply I2; eassumption.
      * intros t1 t2 p1 p2 H1 H2.
        task_cases H1 t1 tid; [discriminate|]. task_cases H2 t2 tid; [discriminate|].
        eauto.
      * discriminate.
      * intros q Hq Hs. specialize (I4 q Hq Hs). specialize (I1 _ _ Htask).
        rewrite I1 in I4. injection I4 as ->. congruence.
      * intros tid' p' r' H. task_cases H tid' tid; [|eauto].
        injection H as <- <-. exact Hsettled.
      * intros tid' p' H. task_cases H tid' tid; [discriminate|]. eauto.
    + destruct (m_settled s !! p) as [r|] eqn:Hsettled; [|discriminate].
      intros [= <-]. unfold mutex_invariant, with_task. cbn. repeat split.
      * intros tid' p' H. task_cases H tid' tid; [discriminate|]. eauto.
      * intros t1 t2 p1 p2 H1 H2.
        task_cases H1 t1 tid; [discriminate|]. task_cases H2 t2 tid; [discriminate|].
        eauto.
      * exact I3.
      * exact I4.
      * intros tid' p' r' H. task_cases H tid' tid; [|eauto].
        injection H as <- <-. exact Hsettled.
      * intros tid' p' H. task_cases H tid' tid; [discriminate|]. eauto.
Qed.

Lemma mrun_preserves_invariant (evs : list mevent) :
  forall s s', mutex_invariant s -> mrun evs s = Some s' -> mutex_invariant s'.
Proof.
  induction evs as [|ev rest IH]; intros s s' Hinv; cbn [mrun].
  - intros [= <-]. exact Hinv.
  - destruct (mstep ev s) as [s1|] eqn:Hstep; [|discriminate].
    apply IH. eapply mstep_preserves_invariant; eassumption.
Qed.

(** X27: [withRefreshMutex] lets one refresh run at a time.  In every state
    the calls and settlements can lead to from the loaded module, at most one
    promise returned by [fn] is pending, and it is the one stored in
    [refreshPromise]; a call made while [refreshPromise] is set does not call
    [fn] and follows the stored promise; and all the calls that led or
    followed the same promise settle with the same outcome, the one of that
    promise. *)
Theorem one_refresh_at_a_time (evs : list mevent) (s : msys) :
  mrun evs loaded = Some s ->
  (forall p q, (p < m_next s)%nat -> (q < m_next s)%nat ->
     m_settled s !! p = None -> m_settled s !! q = None ->
     p = q /\ refreshPromise s = Some p)
  /\ (forall p tid thrown s',
        refreshPromise s = Some p -> mstep (MCall tid thrown) s = Some s' ->
        fn_calls s' = fn_calls s /\ m_next s' = m_next s
        /\ m_tasks s' !! tid = Some (Following p))
  /\ (forall tid1 tid2 p r1 r2,
        m_tasks s !! tid1 = Some (Done (Some p) r1) ->
        m_tasks s !! tid2 = Some (Done (Some p) r2) ->
        r1 = r2 /\ m_settled s !! p = Some r1).
Proof.
  intros Hrun.
  destruct (mrun_preserves_invariant evs loaded s loaded_invariant Hrun)
    as (I1 & I2 & I3 & I4 & I5 & I6).
  split; [|split].
  - intros p q Hp Hq Hsp Hsq. pose proof (I4 p Hp Hsp) as H1.
    pose proof (I4 q Hq Hsq) as H2. split; [congruence | exact H1].
  - intros p tid thrown s' Hrp. cbn [mstep].
    destruct (m_tasks s !! tid); [discriminate|]. rewrite Hrp. intros [= <-].
    unfold with_task. cbn. split; [reflexivity|]. split; [reflexivity|].
    apply lookup_insert_eq.
  - intros tid1 tid2 p r1 r2 H1 H2. pose proof (I5 _ _ _ H1) as E1.
    pose proof (I5 _ _ _ H2) as E2. split; [congruence | exact E1].
Qed.

(** Two calls during one refresh that fails: [fn] was called once and both
    calls end with the error of the refresh. *)
Lemma one_refresh_at_a_time_witness :
  exists s,
    mrun RefreshMutexExamples.two_refreshers loaded = Some s
    /\ fn_calls s = 1%nat
    /\ m_tasks s !! 0%nat = Some (Done (Some 0%nat) (inl (VStr "expired")))
    /\ m_tasks s !! 1%nat = Some (Done (Some 0%nat) (inl (VStr "expired")))
    /\ refreshPromise s = None.
Proof.
  eexists. split; [reflexivity|]. split; [reflexivity|].
  assert (H0 : m_tasks (default loaded (mrun RefreshMutexExamples.two_refreshers loaded))
               !! 0%nat = Some (Done (Some 0%nat) (inl (VStr "expired"))))
    by reflexivity.
  assert (H1 : m_tasks (default loaded (mrun RefreshMutexExamples.two_refreshers loaded))
               !! 1%nat = Some (Done (Some 0%nat) (inl (VStr "expired"))))
    by reflexivity.
  pose proof (proj2 (proj2 (one_refresh_at_a_time RefreshMutexExamples.two_refreshers _
                eq_refl)) 0%nat 1%nat 0%nat _ _ H0 H1) as [_ _].
  split; [exact H0|]. split; [exact H1 | reflexivity].
Defined.

End RefreshMutexSpec.

(** ** More properties of the credential functions *)

Module TokenLifetimeSpec.
Import Token.

(** X28: [normalizeToken] is idempotent: normalising a normalised token
    again, at any later clock reading, changes nothing, so the expiry instant
    that was derived first is kept.  The one exception is excluded by the
    hypothesis: a derived instant that is the number 0 counts as absent and
    would be derived anew. *)
Theorem normalizeToken_is_idempotent (now now' : Z) (t : OAuthToken) :
  now + default 0 (expires_in t) * 1000 <> 0 ->
  normalizeToken now' (normalizeToken now t) = normalizeToken now t.
Proof.
  intros Hne. unfold normalizeToken.
  destruct t as [a r ty sc [i|] [ea|]]; cbn in *;
    try (destruct (ea =? 0) eqn:Ha; cbn);
    try (destruct (i =? 0) eqn:Hi; cbn);
    rewrite ?Ha, ?Hi; cbn; try reflexivity;
    (destruct (now + i * 1000 =? 0) eqn:Hz; [apply Z.eqb_eq in Hz; lia | reflexivity]).
Qed.

(** A token granted for an hour, normalised at 1000 and again at 5000. *)
Lemma normalizeToken_is_idempotent_witness :
  1000 + default 0 (expires_in TokenStoreExamples.fresh_token) * 1000 <> 0
  /\ expires_at (normalizeToken 5000 (normalizeToken 1000 TokenStoreExamples.fresh_token))
     = Some 3601000.
Proof.
  assert (Hne : 1000 + default 0 (expires_in TokenStoreExamples.fresh_token) * 1000 <> 0)
    by (vm_compute; discriminate).
  split; [exact Hne|].
  rewrite (normalizeToken_is_idempotent 1000 5000 TokenStoreExamples.fresh_token Hne).
  reflexivity.
Defined.

(** X29: when a token that was just granted expires.  For a token without
    [expires_at] (absent or 0) whose lifetime [expires_in] is [n] seconds
    ([n] is 0 when it is absent), normalised at [now], [isTokenExpired] at
    [now'] is [now' >= now + n*1000 - skew*1000] when [n] is not 0 and the
    derived instant [now + n*1000] is not 0, and false otherwise: with no
    lifetime no instant is derived, and a derived instant that is the number
    0 counts as absent, so such a token never expires.  Hence under the
    default skew of 60 seconds a token granted for 60 seconds or less, these
    two cases apart, is expired from the moment it is normalised. *)
Theorem fresh_token_expiry (now : Z) (t : OAuthToken) :
  truthy (expires_at t) = false ->
  (forall now' skewSec,
     isTokenExpired now' (normalizeToken now t) skewSec
     = negb (default 0 (expires_in t) =? 0)
       && negb (now + default 0 (expires_in t) * 1000 =? 0)
       && (now' >=? now + default 0 (expires_in t) * 1000 - default 60 skewSec * 1000))
  /\ isTokenExpired now (normalizeToken now t) None
     = negb (default 0 (expires_in t) =? 0)
       && negb (now + default 0 (expires_in t) * 1000 =? 0)
       && (default 0 (expires_in t) <=? 60).
Proof.
  intros Hat.
  assert (Hrule : forall now' skewSec,
            isTokenExpired now' (normalizeToken now t) skewSec
            = negb (default 0 (expires_in t) =? 0)
              && negb (now + default 0 (expires_in t) * 1000 =? 0)
              && (now' >=? now + default 0 (expires_in t) * 1000
                           - default 60 skewSec * 1000)).
  { intros now' skewSec. unfold isTokenExpired, normalizeToken. rewrite Hat.
    destruct (expires_in t) as [n|] eqn:Hin; cbn [truthy default from_option id negb andb].
    - destruct (n =? 0) eqn:Hn; cbn [negb andb].
      + rewrite Hat. reflexivity.
      + cbn [set_expires_at expires_at truthy default from_option id].
        destruct (now + n * 1000 =? 0); reflexivity.
    - rewrite Hat. reflexivity. }
  split; [exact Hrule|]. rewrite Hrule. f_equal. cbn [default from_option id].
  rewrite Z.geb_leb.
  destruct (Z_le_gt_dec (default 0 (expires_in t)) 60) as [Hle|Hgt].
  - replace (default 0 (expires_in t) <=? 60) with true by (symmetry; apply Z.leb_le; lia).
    apply Z.leb_le. lia.
  - replace (default 0 (expires_in t) <=? 60) with false by (symmetry; apply Z.leb_gt; lia).
    apply Z.leb_gt. lia.
Qed.

(** A token granted for 30 seconds is expired at once; a token whose derived
    instant is the number 0 is not expired, then or later. *)
Lemma fresh_token_expiry_witness :
  truthy (expires_at TokenStoreExamples.brief_token) = false
  /\ isTokenExpired 1000 (normalizeToken 1000 TokenStoreExamples.brief_token) None = true
  /\ truthy (expires_at TokenStoreExamples.backdated_token) = false
  /\ expires_at (normalizeToken 1000 TokenStoreExamples.backdated_token) = Some 0
  /\ isTokenExpired 1000 (normalizeToken 1000 TokenStoreExamples.backdated_token) None = false
  /\ isTokenExpired 9000 (normalizeToken 1000 TokenStoreExamples.backdated_token) (Some 0)
     = false.
Proof.
  split; [reflexivity|]. split.
  - exact (proj2 (fresh_token_expiry 1000 TokenStoreExamples.brief_token eq_refl)).
  - split; [reflexivity|]. split; [reflexivity|]. split.
    + exact (proj2 (fresh_token_expiry 1000 TokenStoreExamples.backdated_token eq_refl)).
    + exact (proj1 (fresh_token_expiry 1000 TokenStoreExamples.backdated_token eq_refl)
               9000 (Some 0)).
Defined.

End TokenLifetimeSpec.

(** ** Properties of the configuration file *)

Module ConfigSpec.
Import Js Config.

Section WithRuntime.
Context (JSON_parse : string -> option Js.value).

Local Abbreviation load_from := (Config.load_from JSON_parse).
Local Abbreviation loadConfig := (Config.loadConfig JSON_parse).

(** [fileExists] holds of what [fs.stat] finds, readable or not. *)
Lemma fileExists_iff (d : gmap string fs_node) (c : string) :
  fileExists d c = true
  <-> (exists raw, d !! c = Some (Readable raw)) \/ (exists code, d !! c = Some (Unreadable code)).
Proof.
  unfold fileExists, stat. destruct (d !! c) as [[raw|code|code]|]; split;
    try discriminate; try reflexivity; eauto;
    intros [[x Hx]|[x Hx]]; discriminate.
Qed.

Lemma load_from_spec (d : gmap string fs_node) (cs : list string) :
  match path (load_from d cs) with
  | None =>
      Forall (fun c => fileExists d c = false) cs
      /\ config (load_from d cs) = VObj [] /\ warnings (load_from d cs) = []
  | Some p =>
      exists before after,
        cs = before ++ p :: after
        /\ Forall (fun c => fileExists d c = false) before
        /\ fileExists d p = true
        /\ match d !! p with
           | Some (Readable raw) =>
               match JSON_parse raw with
               | Some data =>
                   config (load_from d cs) = data /\ warnings (load_from d cs) = []
               | None =>
                   config (load_from d cs) = VObj []
                   /\ warnings (load_from d cs) = [read_warning p Cache.syntax_error]
               end
           | Some (Unreadable code) =>
               config (load_from d cs) = VObj []
               /\ warnings (load_from d cs) = [read_warning p (Cache.fs_error code)]
           | Some (Inaccessible _) | None => False
           end
  end.
Proof.
  induction cs as [|c rest IH]; cbn [Config.load_from].
  - cbn. split; [constructor | split; reflexivity].
  - destruct (fileExists d c) eqn:Hc.
    + pose proof Hc as Hstat. unfold fileExists, stat in Hstat.
      unfold readJson, readFile.
      destruct (d !! c) as [[raw|code|code]|] eqn:Hfile; try discriminate.
      * destruct (JSON_parse raw) as [data|] eqn:Hparse; cbn [path];
          exists [], rest; rewrite Hfile, Hparse;
          (split; [reflexivity|]); (split; [constructor|]); (split; [exact Hc|]);
          split; reflexivity.
      * cbn [path]. exists [], rest. rewrite Hfile.
        split; [reflexivity|]. split; [constructor|]. split; [exact Hc|].
        split; reflexivity.
    + destruct (path (load_from d rest)) as [p|].
      * destruct IH as (before & after & -> & Hb & Hp & Hres).
        exists (c :: before), after. split; [reflexivity|].
        split; [constructor; assumption|]. split; [exact Hp | exact Hres].
      * destruct IH as (Hall & Hcfg & Hw). split; [constructor; assumption|].
        split; assumption.
Qed.

(** X30: [loadConfig] takes the first candidate that [fs.stat] finds, in the
    order command line, environment, working directory, home directory, and
    looks no further.  What [fs.stat] finds need not be a file that can be
    read.  When the candidate taken is a readable file that parses, its
    content is the configuration, without a warning; when it is a readable
    file that does not parse, or a directory or a file that cannot be read,
    the configuration is empty, with the one warning of the failed read, even
    when a later candidate is a valid configuration.  When [fs.stat] finds no
    candidate the configuration is empty without a warning and without a
    path.  A path named on the command line that [fs.stat] does not find is
    passed over in silence, as if the option had not been given. *)
Theorem loadConfig_first_existing_candidate (explicitPath env : option string)
    (cwdPath homePath : string) (d : gmap string fs_node) :
  let cs := candidates explicitPath env cwdPath homePath in
  let r := loadConfig explicitPath env cwdPath homePath d in
  match path r with
  | None =>
      Forall (fun c => fileExists d c = false) cs
      /\ config r = VObj [] /\ warnings r = []
  | Some p =>
      exists before after,
        cs = before ++ p :: after
        /\ Forall (fun c => fileExists d c = false) before
        /\ fileExists d p = true
        /\ match d !! p with
           | Some (Readable raw) =>
               match JSON_parse raw with
               | Some data => config r = data /\ warnings r = []
               | None =>
                   config r = VObj []
                   /\ warnings r = [read_warning p Cache.syntax_error]
               end
           | Some (Unreadable code) =>
               config r = VObj [] /\ warnings r = [read_warning p (Cache.fs_error code)]
           | Some (Inaccessible _) | None => False
           end
  end
  /\ (forall c, fileExists d c = true
       <-> (exists raw, d !! c = Some (Readable raw))
           \/ (exists code, d !! c = Some (Unreadable code)))
  /\ (forall p, explicitPath = Some p -> fileExists d p = false ->
      r = loadConfig None env cwdPath homePath d).
Proof.
  intros cs r. split; [apply load_from_spec|]. split; [apply fileExists_iff|].
  intros p -> Hp. unfold r, Config.loadConfig, candidates.
  destruct (String.eqb p ""); [reflexivity|].
  cbn [app Config.load_from]. rewrite Hp. reflexivity.
Qed.

End WithRuntime.

(** The configuration of the working directory is a directory: it is the
    candidate taken, the configuration is empty with the warning of the read,
    and the valid file of the home directory is not looked at. *)
Lemma loadConfig_first_existing_candidate_witness :
  loadConfig ConfigExamples.parse_one None None
    "/work/dida365.config.json" "/home/.config/dida365.json" ConfigExamples.directory_in_cwd
  = {| config := VObj []; path := Some "/work/dida365.config.json";
       warnings := ["Failed to read config at /work/dida365.config.json: EISDIR"] |}
  /\ loadConfig ConfigExamples.parse_one None None
       "/none/dida365.config.json" "/home/.config/dida365.json" ConfigExamples.directory_in_cwd
     = {| config := VObj [("timeoutMs", VNum 5000)];
          path := Some "/home/.config/dida365.json"; warnings := [] |}
  /\ (exists before after,
       candidates None None "/work/dida365.config.json" "/home/.config/dida365.json"
       = before ++ "/work/dida365.config.json" :: after
       /\ Forall (fun c => fileExists ConfigExamples.directory_in_cwd c = false) before
       /\ fileExists ConfigExamples.directory_in_cwd "/work/dida365.config.json" = true
       /\ config (loadConfig ConfigExamples.parse_one None None
                    "/work/dida365.config.json" "/home/.config/dida365.json"
                    ConfigExamples.directory_in_cwd) = VObj []
       /\ warnings (loadConfig ConfigExamples.parse_one None None
                      "/work/dida365.config.json" "/home/.config/dida365.json"
                      ConfigExamples.directory_in_cwd)
          = [read_warning "/work/dida365.config.json" (Cache.fs_error "EISDIR")]).
Proof.
  split; [vm_compute; reflexivity|]. split; [vm_compute; reflexivity|].
  exact (proj1 (loadConfig_first_existing_candidate ConfigExamples.parse_one
                  None None "/work/dida365.config.json" "/home/.config/dida365.json"
                  ConfigExamples.directory_in_cwd)).
Defined.

End ConfigSpec.
